(** * The request engine of the Entrolytics API client (src/client.ts)

    A shallow embedding of [ApiClient]: configuration resolution in the
    constructor, [getAuthHeaders], [createShareToken], [isRetryable],
    [buildUrl], the retry loop of [request] and the five verb helpers.

    Conventions of the embedding.
    - A JavaScript string is a [string] of bytes (its UTF-8 encoding).
    - A JavaScript [number] is a [Z]: the statuses, retry counts, delays and
      the numbers of the examples are integers in the safe range, where
      [String(n)] and [JSON.stringify(n)] are the decimal numeral.
    - An optional field ([x?: T]) is an [option]; [None] is [undefined].
    - A plain object used as a map is the list of its own entries in
      [Object.entries] order.
    - [async]/[await] is sequential state passing: the state is the client
      object ([this]) and the trace of transport calls and sleeps of the
      call; at every suspension another task may call [setBearerToken].
    - Platform classes the engine calls but does not define ([URL], [Buffer],
      [btoa]) are the fields of a [Platform]. *)

From Stdlib Require Import ZArith List String Ascii Bool Lia DecimalString.
Import ListNotations.
Open Scope string_scope.
Open Scope Z_scope.

(** ** JavaScript values *)

#[local] Unset Elimination Schemes.
Inductive JSValue : Type :=
| JUndefined
| JNull
| JBoolean (b : bool)
| JNumber (n : Z)
| JString (s : string)
| JArray (items : list JSValue)
| JObject (props : list (string * JSValue)).
#[local] Set Elimination Schemes.

(** What a [throw] carries: an instance of [Error] (with its [message]) or
    any other value. *)
Inductive Thrown : Type :=
| ThrownError (message : string)
| ThrownValue (v : JSValue).

(** The completion of an expression that may throw. *)
Inductive Completion (A : Type) : Type :=
| Normal (a : A)
| Throw (e : Thrown).
Arguments Normal {A} a.
Arguments Throw {A} e.

(** [ToBoolean]: the test of [if (v)]. *)
Definition ToBoolean (v : JSValue) : bool :=
  match v with
  | JUndefined | JNull => false
  | JBoolean b => b
  | JNumber n => negb (n =? 0)
  | JString s => negb (s =? "")%string
  | JArray _ | JObject _ => true
  end.

(** Truthiness of an optional string field. *)
Definition truthy (s : option string) : bool :=
  match s with
  | Some s => negb (s =? "")%string
  | None => false
  end.

(** [a || b] on optional strings. *)
Definition js_or (a b : option string) : option string :=
  if truthy a then a else b.

(** [a ?? d]. *)
Definition nullish {A : Type} (a : option A) (d : A) : A :=
  match a with
  | Some x => x
  | None => d
  end.

(** [String(n)] for an integral number. *)
Definition Number_toString (n : Z) : string :=
  NilZero.string_of_int (Z.to_int n).

(** ** Plain objects as insertion-ordered maps *)

(** [o[k] = v]: an existing key keeps its position, a new key goes last. *)
Fixpoint obj_set {V : Type} (k : string) (v : V) (o : list (string * V))
  : list (string * V) :=
  match o with
  | [] => [(k, v)]
  | (k', v') :: rest =>
      if (k' =? k)%string then (k, v) :: rest
      else (k', v') :: obj_set k v rest
  end.

(** [{ ...target, ...src }]. *)
Definition obj_spread {V : Type} (target src : list (string * V))
  : list (string * V) :=
  fold_left (fun o kv => obj_set (fst kv) (snd kv) o) src target.

Fixpoint obj_get {V : Type} (k : string) (o : list (string * V)) : option V :=
  match o with
  | [] => None
  | (k', v) :: rest => if (k' =? k)%string then Some v else obj_get k rest
  end.

(** [v[key]] for a key that no prototype defines (["error"],
    ["message"]): reading a property of [null] or [undefined] throws a
    TypeError, a primitive or an array answers [undefined].  The message
    of the TypeError is the wording of V8; nothing depends on its text. *)
Definition null_property_message (key : string) : string :=
  "Cannot read properties of null (reading '" ++ key ++ "')".

Definition GetV (v : JSValue) (key : string) : Completion JSValue :=
  match v with
  | JUndefined | JNull => Throw (ThrownError (null_property_message key))
  | JObject props => Normal (nullish (obj_get key props) JUndefined)
  | _ => Normal JUndefined
  end.

(** ** JSON.stringify *)

Definition hex_digit (upper : bool) (n : nat) : ascii :=
  let digits := if upper then "0123456789ABCDEF" else "0123456789abcdef" in
  nullish (String.get n digits) "0"%char.

Definition hex_byte (upper : bool) (c : ascii) : string :=
  let n := nat_of_ascii c in
  String (hex_digit upper (n / 16)) (String (hex_digit upper (n mod 16)) "").

Definition json_escape (c : ascii) : string :=
  let n := nat_of_ascii c in
  if (n =? 34)%nat then String "\" (String (ascii_of_nat 34) "")
  else if (n =? 92)%nat then "\\"
  else if (n =? 8)%nat then "\b"
  else if (n =? 12)%nat then "\f"
  else if (n =? 10)%nat then "\n"
  else if (n =? 13)%nat then "\r"
  else if (n =? 9)%nat then "\t"
  else if (n <? 32)%nat then "\u00" ++ hex_byte false c
  else String c "".

Fixpoint json_escape_all (s : string) : string :=
  match s with
  | EmptyString => ""
  | String c rest => json_escape c ++ json_escape_all rest
  end.

Definition json_quote (s : string) : string :=
  String (ascii_of_nat 34) (json_escape_all s ++ String (ascii_of_nat 34) "").

(** [JSON.stringify(v)]; [None] is the [undefined] it answers for
    [undefined].  A property holding [undefined] is left out of an object
    and written [null] in an array. *)
Fixpoint JSON_stringify (v : JSValue) : option string :=
  match v with
  | JUndefined => None
  | JNull => Some "null"
  | JBoolean b => Some (if b then "true" else "false")
  | JNumber n => Some (Number_toString n)
  | JString s => Some (json_quote s)
  | JArray items =>
      Some ("[" ++ String.concat ","
              (map (fun i => nullish (JSON_stringify i) "null") items) ++ "]")
  | JObject props =>
      Some ("{" ++ String.concat ","
              (flat_map (fun kv =>
                           match JSON_stringify (snd kv) with
                           | Some t => [json_quote (fst kv) ++ ":" ++ t]
                           | None => []
                           end) props) ++ "}")
  end.

(** ** URL and URLSearchParams *)

(** The application/x-www-form-urlencoded byte serializer: letters, digits
    and [*-._] stay, a space becomes [+], every other byte is [%XX]. *)
Definition urlencoded_plain (c : ascii) : bool :=
  let n := nat_of_ascii c in
  ((48 <=? n) && (n <=? 57) || (65 <=? n) && (n <=? 90)
   || (97 <=? n) && (n <=? 122)
   || (n =? 42) || (n =? 45) || (n =? 46) || (n =? 95))%nat.

Definition urlencoded_byte (c : ascii) : string :=
  if urlencoded_plain c then String c ""
  else if (nat_of_ascii c =? 32)%nat then "+"
  else "%" ++ hex_byte true c.

Fixpoint urlencoded_string (s : string) : string :=
  match s with
  | EmptyString => ""
  | String c rest => urlencoded_byte c ++ urlencoded_string rest
  end.

Definition urlencoded_serialize (l : list (string * string)) : string :=
  String.concat "&"
    (map (fun nv => urlencoded_string (fst nv) ++ "=" ++ urlencoded_string (snd nv)) l).

(** A [URL] object: the serialised scheme, authority and path, the query
    and fragment components, and the list of its [searchParams] object. *)
Record URL : Type := mkURL {
  url_front : string;
  url_query : option string;
  url_fragment : option string;
  searchParams : list (string * string)
}.

(** The tuples of a parameter list that are not called [name]. *)
Definition params_without (name : string) (l : list (string * string))
  : list (string * string) :=
  filter (fun nv => negb (fst nv =? name)%string) l.

(** The list update of [URLSearchParams.prototype.set]: the first tuple
    called [name] takes the value and the others go; without one the
    tuple is appended. *)
Fixpoint params_set (name value : string) (l : list (string * string))
  : list (string * string) :=
  match l with
  | [] => [(name, value)]
  | (n, v) :: rest =>
      if (n =? name)%string then (name, value) :: params_without name rest
      else (n, v) :: params_set name value rest
  end.

(** [url.searchParams.set(name, value)], with the update of the URL's
    query that follows it (an empty serialisation is the null query). *)
Definition searchParams_set (name value : string) (u : URL) : URL :=
  let l := params_set name value (searchParams u) in
  let q := urlencoded_serialize l in
  {| url_front := url_front u;
     url_query := if (q =? "")%string then None else Some q;
     url_fragment := url_fragment u;
     searchParams := l |}.

(** [url.toString()], the href. *)
Definition URL_toString (u : URL) : string :=
  url_front u
  ++ match url_query u with Some q => "?" ++ q | None => "" end
  ++ match url_fragment u with Some f => "#" ++ f | None => "" end.

(** ** The transport and the world of one call *)

Inductive HttpMethod : Type := GET | POST | PUT | DELETE | PATCH.

(** The [RequestInit] handed to the transport. *)
Record FetchOptions : Type := mkFetchOptions {
  fo_method : HttpMethod;
  fo_headers : list (string * string);
  fo_body : option string
}.

(** What a call does that the outside can observe. *)
Inductive Event : Type :=
| EvFetch (url : string) (init : FetchOptions)
| EvSleep (ms : Z).

Definition Trace : Type := list Event.

(** A [Response] as the engine reads it: [status], [ok] (a getter: the
    status is in 200..299) and [json()], which rejects ([None]) when the
    body is not JSON. *)
Record Response : Type := mkResponse {
  status : Z;
  json : option JSValue
}.

Definition Response_ok (r : Response) : bool :=
  (200 <=? status r) && (status r <=? 299).

Inductive FetchOutcome : Type :=
| Responds (r : Response)
| Rejects (e : Thrown).

(** A transport ([typeof fetch]): its answer to a call may depend on what
    the call has done so far. *)
Definition Transport : Type := Trace -> string -> FetchOptions -> FetchOutcome.

(** The surroundings of one call: the clock read by [Date.now()], and the
    token, if any, that another task passes to [setBearerToken] while the
    call is suspended after the given trace. *)
Record World : Type := mkWorld {
  Date_now : Trace -> Z;
  refreshed : Trace -> option string
}.

(** The platform classes: [new URL(path, base)] ([None]: it throws a
    TypeError), [Buffer.from(s).toString('base64')] where [Buffer] exists,
    and [btoa], which throws on a character above U+00FF. *)
Record Platform : Type := mkPlatform {
  URL_new : string -> string -> option URL;
  Buffer_base64 : option (string -> string);
  btoa : string -> Completion string
}.

(** ** The client *)

Record ClientConfig : Type := mkConfig {
  cfg_endpoint : option string;
  cfg_bearerToken : option string;
  cfg_apiKey : option string;
  cfg_userId : option string;
  cfg_secret : option string;
  cfg_fetch : option Transport;
  cfg_retries : option Z;
  cfg_retryDelay : option Z
}.

(** What the constructor reads from its surroundings: [process.env]
    ([None] where there is no [process]) and [globalThis.fetch]. *)
Record Runtime : Type := mkRuntime {
  process_env : option (string -> option string);
  global_fetch : option Transport
}.

Record ApiClient : Type := mkClient {
  endpoint : string;
  bearerToken : option string;
  apiKey : option string;
  userId : option string;
  secret : option string;
  fetchFn : option Transport;
  retries : Z;
  retryDelay : Z
}.

Inductive ParamValue : Type :=
| PString (s : string)
| PNumber (n : Z)
| PBoolean (b : bool)
| PUndefined.

Record RequestOptions : Type := mkOptions {
  opt_method : option HttpMethod;
  opt_body : JSValue;
  opt_params : option (list (string * ParamValue));
  opt_headers : option (list (string * string))
}.

Record ApiResponse : Type := mkApiResponse {
  ok : bool;
  resp_status : Z;
  data : option JSValue;
  error : option string
}.

(** ** Construction *)

Definition getEnv (rt : Runtime) (key : string) : option string :=
  match process_env rt with
  | Some env => env key
  | None => None
  end.

Definition endpoint_required : string :=
  "Entrolytics API endpoint is required. Set ENTROLYTICS_API_ENDPOINT or pass endpoint in config.".

(** [new ApiClient(config)]. *)
Definition ApiClient_new (rt : Runtime) (config : ClientConfig)
  : Completion ApiClient :=
  let this :=
    {| endpoint :=
         nullish (js_or (js_or (cfg_endpoint config)
                               (getEnv rt "ENTROLYTICS_API_ENDPOINT"))
                        (Some "")) "";
       bearerToken := js_or (cfg_bearerToken config) (getEnv rt "ENTROLYTICS_BEARER_TOKEN");
       apiKey := js_or (cfg_apiKey config) (getEnv rt "ENTROLYTICS_API_KEY");
       userId := js_or (cfg_userId config) (getEnv rt "ENTROLYTICS_USER_ID");
       secret := js_or (cfg_secret config) (getEnv rt "ENTROLYTICS_SECRET");
       fetchFn := match cfg_fetch config with
                  | Some f => Some f
                  | None => global_fetch rt
                  end;
       retries := nullish (cfg_retries config) 3;
       retryDelay := nullish (cfg_retryDelay config) 1000 |} in
  if (endpoint this =? "")%string then Throw (ThrownError endpoint_required)
  else Normal this.

Definition setBearerToken (token : string) (this : ApiClient) : ApiClient :=
  {| endpoint := endpoint this;
     bearerToken := Some token;
     apiKey := apiKey this;
     userId := userId this;
     secret := secret this;
     fetchFn := fetchFn this;
     retries := retries this;
     retryDelay := retryDelay this |}.

(** ** Authentication headers *)

Definition legacy_required : string :=
  "userId and secret are required for self-hosted authentication".

(** [createShareToken()]; [now] is the value of [Date.now()]. *)
Definition createShareToken (P : Platform) (this : ApiClient) (now : Z)
  : Completion string :=
  if negb (truthy (userId this)) || negb (truthy (secret this))
  then Throw (ThrownError legacy_required)
  else
    let payload :=
      JObject [("userId", JString (nullish (userId this) ""));
               ("timestamp", JNumber now)] in
    let text := nullish (JSON_stringify payload) "" in
    match Buffer_base64 P with
    | Some encode => Normal (encode text)
    | None => btoa P text
    end.

(** [getAuthHeaders()]. *)
Definition getAuthHeaders (P : Platform) (this : ApiClient) (now : Z)
  : Completion (list (string * string)) :=
  if truthy (bearerToken this) then
    Normal [("Authorization", "Bearer " ++ nullish (bearerToken this) "")]
  else if truthy (apiKey this) then
    Normal [("x-entrolytics-api-key", nullish (apiKey this) "")]
  else if truthy (userId this) && truthy (secret this) then
    match createShareToken P this now with
    | Normal token => Normal [("x-entrolytics-share-token", token)]
    | Throw e => Throw e
    end
  else Normal [].

(** ** Retry predicate and URL construction *)

Definition isRetryable (status : Z) : bool :=
  (status =? 0) || (status =? 429) || (500 <=? status).

(** [String(value)] for a query-parameter value. *)
Definition String_of (v : ParamValue) : string :=
  match v with
  | PString s => s
  | PNumber n => Number_toString n
  | PBoolean b => if b then "true" else "false"
  | PUndefined => "undefined"
  end.

(** The callback of [Object.entries(params).forEach]. *)
Definition set_param (url : URL) (entry : string * ParamValue) : URL :=
  match snd entry with
  | PUndefined => url
  | value => searchParams_set (fst entry) (String_of value) url
  end.

(** The [URL] object of [buildUrl] just before [url.toString()]. *)
Definition buildUrl_object (url : URL)
  (params : option (list (string * ParamValue))) : URL :=
  match params with
  | Some entries => fold_left set_param entries url
  | None => url
  end.

(** [buildUrl(path, params)]. *)
Definition buildUrl (P : Platform) (this : ApiClient) (path : string)
  (params : option (list (string * ParamValue))) : Completion string :=
  match URL_new P path (endpoint this) with
  | None => Throw (ThrownError "Invalid URL")
  | Some url => Normal (URL_toString (buildUrl_object url params))
  end.

(** ** The state of a call and its monad *)

Record State : Type := mkState {
  this_ : ApiClient;
  trace : Trace
}.

Definition M (A : Type) : Type := State -> Completion A * State.

Definition ret {A : Type} (a : A) : M A := fun s => (Normal a, s).

Definition bind {A B : Type} (m : M A) (k : A -> M B) : M B :=
  fun s =>
    match m s with
    | (Normal a, s') => k a s'
    | (Throw e, s') => (Throw e, s')
    end.

Definition lift {A : Type} (c : Completion A) : M A := fun s => (c, s).

Declare Scope call_scope.
Delimit Scope call_scope with call.
Notation "x <- m ;; k" := (bind m (fun x => k))
  (at level 100, m at next level, right associativity) : call_scope.
Notation "m ;;; k" := (bind m (fun _ => k))
  (at level 100, right associativity) : call_scope.

(** The call is suspended after event [e]; when it resumes, the token is
    the one another task may have set meanwhile. *)
Definition suspend (w : World) (e : Event) (s : State) : State :=
  let tr := (trace s ++ [e])%list in
  {| this_ := match refreshed w tr with
              | Some token => setBearerToken token (this_ s)
              | None => this_ s
              end;
     trace := tr |}.

Definition not_a_function : string := "this.fetchFn is not a function".

(** [await this.fetchFn(url, fetchOptions)]. *)
Definition await_fetch (w : World) (url : string) (init : FetchOptions)
  : M Response :=
  fun s =>
    match fetchFn (this_ s) with
    | None => (Throw (ThrownError not_a_function), s)
    | Some f =>
        match f (trace s) url init with
        | Responds r => (Normal r, suspend w (EvFetch url init) s)
        | Rejects e => (Throw e, suspend w (EvFetch url init) s)
        end
    end.

(** [await this.sleep(ms)]. *)
Definition sleep (w : World) (ms : Z) : M unit :=
  fun s => (Normal tt, suspend w (EvSleep ms) s).

(** [this.getAuthHeaders()] on the current state of the client. *)
Definition auth_headers (P : Platform) (w : World) : M (list (string * string)) :=
  fun s => (getAuthHeaders P (this_ s) (Date_now w (trace s)), s).

Definition read {A : Type} (field : ApiClient -> A) : M A :=
  fun s => (Normal (field (this_ s)), s).

(** ** request *)

(** The message of a failed response:
    [typeof data.error === 'string' ? data.error
     : typeof data.message === 'string' ? data.message : `HTTP ${status}`]. *)
Definition errorMessage (data : JSValue) (status : Z) : Completion string :=
  match GetV data "error" with
  | Throw e => Throw e
  | Normal (JString s) => Normal s
  | Normal _ =>
      match GetV data "message" with
      | Throw e => Throw e
      | Normal (JString s) => Normal s
      | Normal _ => Normal ("HTTP " ++ Number_toString status)
      end
  end.

(** The headers of an attempt:
    [{ 'Content-Type': 'application/json', ...auth, ...headers }]. *)
Definition compose_headers (auth : list (string * string))
  (headers : option (list (string * string))) : list (string * string) :=
  obj_spread (obj_spread [("Content-Type", "application/json")] auth)
             (nullish headers []).

(** How the [try] block of one attempt ends: with a [return], or with
    [continue] after recording [lastError] and sleeping. *)
Inductive Step : Type :=
| Return (r : ApiResponse)
| Continue (lastError : ApiResponse).

Definition failure (status : Z) (message : string) : ApiResponse :=
  {| ok := false; resp_status := status; data := None; error := Some message |}.

Open Scope call_scope.

(** The [try] block of attempt number [attempt]. *)
Definition try_block (P : Platform) (w : World) (url : string)
  (options : RequestOptions) (attempt : Z) : M Step :=
  auth <- auth_headers P w ;;
  let fetchOptions :=
    {| fo_method := nullish (opt_method options) GET;
       fo_headers := compose_headers auth (opt_headers options);
       fo_body := if ToBoolean (opt_body options)
                  then JSON_stringify (opt_body options) else None |} in
  response <- await_fetch w url fetchOptions ;;
  let data := nullish (json response) (JObject []) in
  if negb (Response_ok response) then
    message <- lift (errorMessage data (status response)) ;;
    let lastError := failure (status response) message in
    retries <- read retries ;;
    retryDelay <- read retryDelay ;;
    if isRetryable (status response) && (attempt <? retries) then
      sleep w (retryDelay * 2 ^ attempt) ;;; ret (Continue lastError)
    else ret (Return lastError)
  else
    ret (Return {| ok := true; resp_status := status response;
                   data := Some data; error := None |}).

Close Scope call_scope.

(** [error instanceof Error ? error.message : 'Network error']. *)
Definition thrown_message (e : Thrown) : string :=
  match e with
  | ThrownError message => message
  | ThrownValue _ => "Network error"
  end.

(** The [catch] block: record the failure and sleep if attempts remain. *)
Definition catch_block (w : World) (e : Thrown) (attempt : Z) (s : State)
  : ApiResponse * State :=
  let lastError := failure 0 (thrown_message e) in
  if attempt <? retries (this_ s)
  then (lastError, snd (sleep w (retryDelay (this_ s) * 2 ^ attempt) s))
  else (lastError, s).

Definition exhausted : ApiResponse := failure 0 "Request failed after retries".

(** The [for] loop from attempt number [attempt] on.  [fuel] bounds the
    number of iterations; [None] is a loop that ran out of it. *)
Fixpoint request_loop (P : Platform) (w : World) (fuel : nat) (url : string)
  (options : RequestOptions) (attempt : Z) (lastError : option ApiResponse)
  (s : State) : option (ApiResponse * State) :=
  match fuel with
  | O => None
  | S fuel' =>
      if attempt <=? retries (this_ s) then
        match try_block P w url options attempt s with
        | (Normal (Return r), s') => Some (r, s')
        | (Normal (Continue e), s') =>
            request_loop P w fuel' url options (attempt + 1) (Some e) s'
        | (Throw err, s') =>
            let '(e, s'') := catch_block w err attempt s' in
            request_loop P w fuel' url options (attempt + 1) (Some e) s''
        end
      else Some (nullish lastError exhausted, s)
  end.

(** [request(path, options)] on client [this]: [Some (Normal r, s)] when
    the promise resolves to [r], [Some (Throw e, s)] when it rejects. *)
Definition request (P : Platform) (w : World) (this : ApiClient)
  (path : string) (options : RequestOptions)
  : option (Completion ApiResponse * State) :=
  let s := {| this_ := this; trace := [] |} in
  match buildUrl P this path (opt_params options) with
  | Throw e => Some (Throw e, s)
  | Normal url =>
      match request_loop P w (S (Z.to_nat (retries this + 1))) url options 0 None s with
      | Some (r, s') => Some (Normal r, s')
      | None => None
      end
  end.

Definition get (P : Platform) (w : World) (this : ApiClient) (path : string)
  (params : option (list (string * ParamValue))) :=
  request P w this path
    {| opt_method := Some GET; opt_body := JUndefined;
       opt_params := params; opt_headers := None |}.

Definition post (P : Platform) (w : World) (this : ApiClient) (path : string)
  (body : JSValue) :=
  request P w this path
    {| opt_method := Some POST; opt_body := body;
       opt_params := None; opt_headers := None |}.

Definition put (P : Platform) (w : World) (this : ApiClient) (path : string)
  (body : JSValue) :=
  request P w this path
    {| opt_method := Some PUT; opt_body := body;
       opt_params := None; opt_headers := None |}.

Definition delete (P : Platform) (w : World) (this : ApiClient) (path : string) :=
  request P w this path
    {| opt_method := Some DELETE; opt_body := JUndefined;
       opt_params := None; opt_headers := None |}.

Definition patch (P : Platform) (w : World) (this : ApiClient) (path : string)
  (body : JSValue) :=
  request P w this path
    {| opt_method := Some PATCH; opt_body := body;
       opt_params := None; opt_headers := None |}.

(** ** Clients and worlds seen from a call *)

(** [this] with another bearer token; every client a call can observe is
    the starting one with some bearer token, no other field being mutable. *)
Definition with_bearer (token : option string) (this : ApiClient) : ApiClient :=
  {| endpoint := endpoint this;
     bearerToken := token;
     apiKey := apiKey this;
     userId := userId this;
     secret := secret this;
     fetchFn := fetchFn this;
     retries := retries this;
     retryDelay := retryDelay this |}.

(** The client as it stands after the events [todo], which follow [done]. *)
Fixpoint replay (w : World) (this : ApiClient) (done todo : Trace) : ApiClient :=
  match todo with
  | [] => this
  | e :: rest =>
      let done' := (done ++ [e])%list in
      replay w (match refreshed w done' with
                | Some token => setBearerToken token this
                | None => this
                end) done' rest
  end.

Definition client_after (w : World) (this : ApiClient) (tr : Trace) : ApiClient :=
  replay w this [] tr.

(** The [RequestInit] an attempt builds from authentication headers [auth]. *)
Definition fetchOptions_of (options : RequestOptions) (auth : list (string * string))
  : FetchOptions :=
  {| fo_method := nullish (opt_method options) GET;
     fo_headers := compose_headers auth (opt_headers options);
     fo_body := if ToBoolean (opt_body options)
                then JSON_stringify (opt_body options) else None |}.

(** Deriving the authentication headers never throws, whatever the bearer
    token has become. *)
Definition headers_derivable (P : Platform) (this : ApiClient) : Prop :=
  forall token now, exists auth,
    getAuthHeaders P (with_bearer token this) now = Normal auth.

(** The transport calls of a trace, in order. *)
Fixpoint fetches (tr : Trace) : list (string * FetchOptions) :=
  match tr with
  | [] => []
  | EvFetch url init :: rest => (url, init) :: fetches rest
  | EvSleep _ :: rest => fetches rest
  end.

(** The sleeps of a trace, in order. *)
Fixpoint sleeps (tr : Trace) : list Z :=
  match tr with
  | [] => []
  | EvFetch _ _ :: rest => sleeps rest
  | EvSleep ms :: rest => ms :: sleeps rest
  end.

(** ASCII lower case, for header names, which the wire compares without
    case. *)
Definition lower (c : ascii) : ascii :=
  let n := nat_of_ascii c in
  if ((65 <=? n) && (n <=? 90))%nat then ascii_of_nat (n + 32) else c.

Fixpoint lowercase (s : string) : string :=
  match s with
  | EmptyString => ""
  | String c rest => String (lower c) (lowercase rest)
  end.

(** The three credential headers. *)
Definition is_credential_header (name : string) : bool :=
  let n := lowercase name in
  (n =? "authorization")%string
  || (n =? "x-entrolytics-api-key")%string
  || (n =? "x-entrolytics-share-token")%string.

Definition credential_headers (headers : list (string * string))
  : list (string * string) :=
  filter (fun h => is_credential_header (fst h)) headers.

(** The defined values that the entries of a parameter map give to [key],
    as strings, in order. *)
Definition written (key : string) (entries : list (string * ParamValue))
  : list string :=
  flat_map (fun entry =>
              match snd entry with
              | PUndefined => []
              | value => if (fst entry =? key)%string then [String_of value] else []
              end) entries.

(** The tuples of a parameter list called [name]. *)
Definition params_named (name : string) (l : list (string * string))
  : list (string * string) :=
  filter (fun nv => (fst nv =? name)%string) l.

(** ** A reference platform for the examples *)

Module Reference.

Definition base64_alphabet : string :=
  "ABCDEFGHIJKLMNOPQRSTUVWXYZabcdefghijklmnopqrstuvwxyz0123456789+/".

Definition base64_digit (n : nat) : ascii :=
  nullish (String.get n base64_alphabet) "="%char.

Fixpoint base64_bytes (l : list nat) : string :=
  match l with
  | [] => ""
  | [a] =>
      String (base64_digit (a / 4))
        (String (base64_digit ((a mod 4) * 16)) "==")
  | [a; b] =>
      String (base64_digit (a / 4))
        (String (base64_digit ((a mod 4) * 16 + b / 16))
           (String (base64_digit ((b mod 16) * 4)) "="))
  | a :: b :: c :: rest =>
      String (base64_digit (a / 4))
        (String (base64_digit ((a mod 4) * 16 + b / 16))
           (String (base64_digit ((b mod 16) * 4 + c / 64))
              (String (base64_digit (c mod 64)) (base64_bytes rest))))
  end%nat.

Definition bytes_of (s : string) : list nat :=
  map nat_of_ascii (list_ascii_of_string s).

(** [Buffer.from(s).toString('base64')]. *)
Definition base64 (s : string) : string := base64_bytes (bytes_of s).

(** The Latin-1 bytes of a string given by its UTF-8 bytes, when all its
    characters are below U+0100. *)
Fixpoint latin1 (l : list nat) : option (list nat) :=
  match l with
  | [] => Some []
  | a :: rest =>
      if (a <? 128)%nat then option_map (cons a) (latin1 rest)
      else
        match rest with
        | b :: rest' =>
            if (a =? 194)%nat then option_map (cons b) (latin1 rest')
            else if (a =? 195)%nat then option_map (cons (b + 64)%nat) (latin1 rest')
            else None
        | [] => None
        end
  end.

(** [btoa(s)]: an InvalidCharacterError outside Latin-1. *)
Definition btoa_latin1 (s : string) : Completion string :=
  match latin1 (bytes_of s) with
  | Some l => Normal (base64_bytes l)
  | None => Throw (ThrownError "Invalid character")
  end.

(** The scheme state of the URL parser: a letter, then letters, digits,
    [+], [-] or [.], then a colon. *)
Definition is_alpha (c : ascii) : bool :=
  let n := nat_of_ascii c in
  ((65 <=? n) && (n <=? 90) || (97 <=? n) && (n <=? 122))%nat.

Definition is_scheme_char (c : ascii) : bool :=
  let n := nat_of_ascii c in
  is_alpha c || ((48 <=? n) && (n <=? 57) || (n =? 43) || (n =? 45) || (n =? 46))%nat.

Fixpoint scheme_tail (s : string) : bool :=
  match s with
  | EmptyString => false
  | String c rest =>
      if (nat_of_ascii c =? 58)%nat then true
      else if is_scheme_char c then scheme_tail rest else false
  end.

Definition has_scheme (s : string) : bool :=
  match s with
  | EmptyString => false
  | String c rest => is_alpha c && scheme_tail rest
  end.

(** [s] cut before the first of its characters that [stop] accepts. *)
Fixpoint cut (stop : ascii -> bool) (s : string) : string * string :=
  match s with
  | EmptyString => ("", "")
  | String c rest =>
      if stop c then ("", s)
      else let (a, b) := cut stop rest in (String c a, b)
  end.

Definition is_char (n : nat) (c : ascii) : bool := (nat_of_ascii c =? n)%nat.

Definition after (prefix s : string) : option string :=
  if String.prefix prefix s
  then Some (substring (String.length prefix)
                       (String.length s - String.length prefix) s)
  else None.

(** The origin of an http(s) URL with a host. *)
Definition origin_of (base : string) : option string :=
  let from scheme :=
    match after scheme base with
    | Some rest =>
        let (authority, _) :=
          cut (fun c => is_char 47 c || is_char 63 c || is_char 35 c || is_char 92 c) rest in
        if (authority =? "")%string then None else Some (scheme ++ authority)
    | None => None
    end in
  match from "https://" with
  | Some o => Some o
  | None => from "http://"
  end.

Fixpoint split_on (n : nat) (fuel : nat) (s : string) : list string :=
  match fuel with
  | O => [s]
  | S fuel' =>
      let (a, b) := cut (is_char n) s in
      match b with
      | String _ rest => a :: split_on n fuel' rest
      | EmptyString => [a]
      end
  end.

(** The query parser on a query without [%] and [+]. *)
Definition parse_query (q : string) : list (string * string) :=
  flat_map (fun piece =>
              if (piece =? "")%string then []
              else
                let (name, rest) := cut (is_char 61) piece in
                [(name, match rest with String _ v => v | EmptyString => "" end)])
           (split_on 38 (String.length q) q).

Fixpoint only_slashes (s : string) : bool :=
  match s with
  | EmptyString => true
  | String c rest => is_char 47 c && only_slashes rest
  end.

(** [new URL(path, base)] on the inputs of the examples.  As in the URL
    Standard, a base without a scheme fails (the parser is in its no-scheme
    state without a base URL), and against an http(s) base a reference of
    two or more slashes and nothing else fails (its host is empty); a
    reference that starts with one slash replaces the path of the base.
    Other shapes of reference are not modelled and answer [None]. *)
Definition new_URL (path base : string) : option URL :=
  if negb (has_scheme base) then None
  else
    match origin_of base with
    | None => None
    | Some origin =>
        match path with
        | String c rest =>
            if negb (is_char 47 c) then None
            else if only_slashes rest && negb (rest =? "")%string then None
            else if String.prefix "/" rest || String.prefix "\" rest then None
            else
              let (p, r) := cut (fun c => is_char 63 c || is_char 35 c) path in
              let (q, f) :=
                match r with
                | String c' r' =>
                    if is_char 63 c' then
                      let (q, f) := cut (is_char 35) r' in (Some q, f)
                    else (None, r)
                | EmptyString => (None, r)
                end in
              Some {| url_front := origin ++ p;
                      url_query := q;
                      url_fragment := match f with
                                      | String _ f' => Some f'
                                      | EmptyString => None
                                      end;
                      searchParams := match q with
                                      | Some q => parse_query q
                                      | None => []
                                      end |}
        | EmptyString => None
        end
    end.

(** A server runtime ([Buffer] exists) and an edge runtime (only [btoa]). *)
Definition node : Platform :=
  mkPlatform new_URL (Some base64) btoa_latin1.

Definition edge : Platform :=
  mkPlatform new_URL None btoa_latin1.

(** A world where nothing happens between the attempts. *)
Definition quiet : World :=
  {| Date_now := fun _ => 1700000000000; refreshed := fun _ => None |}.

(** A transport that gives the same answer to every call. *)
Definition always (o : FetchOutcome) : Transport := fun _ _ _ => o.

Definition client (token key user pass : option string) (f : Transport)
  (n delay : Z) : ApiClient :=
  {| endpoint := "https://analytics.example.com/api";
     bearerToken := token;
     apiKey := key;
     userId := user;
     secret := pass;
     fetchFn := Some f;
     retries := n;
     retryDelay := delay |}.

Definition no_options : RequestOptions :=
  {| opt_method := None; opt_body := JUndefined;
     opt_params := None; opt_headers := None |}.

(** A world in which another task refreshes the token during the first
    backoff sleep of the call. *)
Definition refreshing (token : string) : World :=
  {| Date_now := fun _ => 1700000000000;
     refreshed := fun tr =>
                    match tr with
                    | [EvFetch _ _; EvSleep _] => Some token
                    | _ => None
                    end |}.

Definition users_url : string := "https://analytics.example.com/users".

(** The [RequestInit] of a GET without body under one authentication
    header. *)
Definition plain_get (name value : string) : FetchOptions :=
  {| fo_method := GET;
     fo_headers := [("Content-Type", "application/json"); (name, value)];
     fo_body := None |}.

(** A runtime without environment variables, and a configuration that
    names an endpoint, an API key and a transport. *)
Definition bare : Runtime :=
  {| process_env := None; global_fetch := None |}.

(** A runtime whose environment names an endpoint and an API key. *)
Definition hosted : Runtime :=
  {| process_env :=
       Some (fun key =>
               if (key =? "ENTROLYTICS_API_ENDPOINT")%string
               then Some "https://analytics.example.com/api"%string
               else if (key =? "ENTROLYTICS_API_KEY")%string
               then Some "env-key"%string
               else None);
     global_fetch := None |}.

Definition key_config (endpoint : string) (f : Transport) : ClientConfig :=
  {| cfg_endpoint := Some endpoint;
     cfg_bearerToken := None;
     cfg_apiKey := Some "key";
     cfg_userId := None;
     cfg_secret := None;
     cfg_fetch := Some f;
     cfg_retries := None;
     cfg_retryDelay := None |}.

(** Canned answers of a server. *)
Definition answer (status : Z) (body : option JSValue) : FetchOutcome :=
  Responds {| status := status; json := body |}.

End Reference.

(** ** How the state of a call evolves *)

(** One observable step of a call: a transport call, made with the
    headers derived from the client as it stands, or a sleep. *)
Inductive step (P : Platform) (w : World) (url : string)
  (options : RequestOptions) : State -> State -> Prop :=
| step_fetch (s : State) (auth : list (string * string)) :
    getAuthHeaders P (this_ s) (Date_now w (trace s)) = Normal auth ->
    step P w url options s (suspend w (EvFetch url (fetchOptions_of options auth)) s)
| step_sleep (s : State) (ms : Z) :
    step P w url options s (suspend w (EvSleep ms) s).

Inductive steps (P : Platform) (w : World) (url : string)
  (options : RequestOptions) : State -> State -> Prop :=
| steps_refl (s : State) : steps P w url options s s
| steps_snoc (s1 s2 s3 : State) :
    steps P w url options s1 s2 ->
    step P w url options s2 s3 ->
    steps P w url options s1 s3.

(** Every transport call of a trace was made on [url] with the request
    built from the headers of the client of that moment. *)
Definition calls_fresh (P : Platform) (w : World) (this : ApiClient)
  (url : string) (options : RequestOptions) (tr : Trace) : Prop :=
  forall pre url' init post,
    tr = (pre ++ EvFetch url' init :: post)%list ->
    url' = url /\
    exists auth,
      getAuthHeaders P (client_after w this pre) (Date_now w pre) = Normal auth /\
      init = fetchOptions_of options auth.


(** The calls of the public surface. *)
Inductive Call : Type :=
| CallRequest (options : RequestOptions)
| CallGet (params : option (list (string * ParamValue)))
| CallPost (body : JSValue)
| CallPut (body : JSValue)
| CallDelete
| CallPatch (body : JSValue).

Definition invoke (P : Platform) (w : World) (this : ApiClient) (path : string)
  (c : Call) : option (Completion ApiResponse * State) :=
  match c with
  | CallRequest options => request P w this path options
  | CallGet params => get P w this path params
  | CallPost body => post P w this path body
  | CallPut body => put P w this path body
  | CallDelete => delete P w this path
  | CallPatch body => patch P w this path body
  end.

(** The options a call of the surface hands to [request]. *)
Definition options_of (c : Call) : RequestOptions :=
  match c with
  | CallRequest options => options
  | CallGet params =>
      {| opt_method := Some GET; opt_body := JUndefined;
         opt_params := params; opt_headers := None |}
  | CallPost body =>
      {| opt_method := Some POST; opt_body := body;
         opt_params := None; opt_headers := None |}
  | CallPut body =>
      {| opt_method := Some PUT; opt_body := body;
         opt_params := None; opt_headers := None |}
  | CallDelete =>
      {| opt_method := Some DELETE; opt_body := JUndefined;
         opt_params := None; opt_headers := None |}
  | CallPatch body =>
      {| opt_method := Some PATCH; opt_body := body;
         opt_params := None; opt_headers := None |}
  end.

(** An envelope of the [ok:false] branch. *)
Definition is_failure (r : ApiResponse) : Prop :=
  ok r = false /\ error r <> None.

(** Some credential is configured: a bearer token, an API key or the
    complete legacy pair. *)
Definition configured (this : ApiClient) : bool :=
  truthy (bearerToken this) || truthy (apiKey this)
  || (truthy (userId this) && truthy (secret this)).

(** A header map that names none of the credential headers. *)
Definition names_no_credential (headers : option (list (string * string))) : Prop :=
  Forall (fun h => is_credential_header (fst h) = false) (nullish headers []).

(** The entries of a parameter map whose value is not [undefined]. *)
Definition defined_entries (entries : list (string * ParamValue))
  : list (string * ParamValue) :=
  filter (fun entry => match snd entry with PUndefined => false | _ => true end)
         entries.

(** ** Outcomes of an attempt *)

(** The envelope an attempt records for an answer of the transport: the
    one its [try] block returns or stores in [lastError], or the one its
    [catch] block stores. *)
Definition envelope_of (out : FetchOutcome) : ApiResponse :=
  match out with
  | Rejects e => failure 0 (thrown_message e)
  | Responds r =>
      let data := nullish (json r) (JObject []) in
      if Response_ok r then
        {| ok := true; resp_status := status r; data := Some data; error := None |}
      else
        match errorMessage data (status r) with
        | Normal message => failure (status r) message
        | Throw e => failure 0 (thrown_message e)
        end
  end.

(** An answer after which the loop goes on while attempts remain: a
    rejection, or a failed response whose status is retryable or whose
    message cannot be derived. *)
Definition retried (out : FetchOutcome) : Prop :=
  match out with
  | Rejects _ => True
  | Responds r =>
      Response_ok r = false /\
      (isRetryable (status r) = true \/
       exists e, errorMessage (nullish (json r) (JObject [])) (status r) = Throw e)
  end.

(** An answer that ends the call at once: a success, or a failed response
    with a derived message and a status that is not retryable. *)
Definition terminal (out : FetchOutcome) : Prop :=
  match out with
  | Rejects _ => False
  | Responds r =>
      Response_ok r = true \/
      (Response_ok r = false /\ isRetryable (status r) = false /\
       exists m, errorMessage (nullish (json r) (JObject [])) (status r) = Normal m)
  end.

(** The trace of [k] attempts on [url], starting with attempt number [n],
    each but the last followed by a sleep of [delay * 2 ^ attempt]. *)
Inductive backoff_run (url : string) (delay : Z) : Z -> nat -> Trace -> Prop :=
| run_last (n : Z) (init : FetchOptions) :
    backoff_run url delay n 1 [EvFetch url init]
| run_more (n : Z) (k : nat) (init : FetchOptions) (tr : Trace) :
    backoff_run url delay (n + 1) (S k) tr ->
    backoff_run url delay n (S (S k)) (EvFetch url init :: EvSleep (delay * 2 ^ n) :: tr).

(** A [URL] whose query is the serialisation of its parameter list. *)
Definition query_in_sync (u : URL) : Prop :=
  url_query u = Some (urlencoded_serialize (searchParams u)).

(** The message of the TypeError for reading [data.error] on [null]. *)
Definition null_body_message : string := null_property_message "error".

(** ** Schedules and well-formed envelopes *)

(** The backoff delays of [n] consecutive attempts, the first of them
    attempt number [from]. *)
Definition delays (delay from : Z) (n : nat) : list Z :=
  map (fun k => delay * 2 ^ (from + Z.of_nat k)) (seq 0 n).

Definition total (l : list Z) : Z := fold_right Z.add 0 l.

(** An envelope of one of the two shapes of [ApiResponse]: a success
    with data and a 2xx status, or a failure with a message and another
    status. *)
Definition well_formed (r : ApiResponse) : Prop :=
  if ok r
  then data r <> None /\ error r = None /\ 200 <= resp_status r <= 299
  else data r = None /\ error r <> None /\ ~ (200 <= resp_status r <= 299).

(** The text that [createShareToken] encodes. *)
Definition share_token_text (this : ApiClient) (now : Z) : string :=
  nullish (JSON_stringify
             (JObject [("userId", JString (nullish (userId this) ""));
                       ("timestamp", JNumber now)])) "".

(** The method a call of the surface sends. *)
Definition method_of (c : Call) : HttpMethod :=
  match c with
  | CallRequest options => nullish (opt_method options) GET
  | CallGet _ => GET
  | CallPost _ => POST
  | CallPut _ => PUT
  | CallDelete => DELETE
  | CallPatch _ => PATCH
  end.

(** The names of a parameter list. *)
Definition names (l : list (string * string)) : list string := map fst l.

(** * Runtime detection (src/runtime.ts) and edge helpers (src/edge-helpers.ts) *)

(** The [process] global: not declared at all, declared with the value
    [undefined], or an object with its [env] and [versions] ([None]:
    [undefined]); [versions] holds [node] ([None]: [undefined]). *)
Inductive ProcessGlobal : Type :=
| ProcessUndeclared
| ProcessUndefined
| ProcessObject (env : option (string -> option string))
                (versions : option (option string)).

(** The globals the helpers probe.  [g_Deno] is [Some None] for a [Deno]
    without [env]; [Deno.env.get] may throw.  [g_crypto] is [Some b] when
    [crypto] is defined, [b] telling whether [crypto.subtle] is. *)
Record Globals : Type := mkGlobals {
  g_process : ProcessGlobal;
  g_Deno : option (option (string -> Completion (option string)));
  g_EdgeRuntime : bool;
  g_globalThis_EdgeRuntime : bool;
  g_WebAssembly : bool;
  g_Response : bool;
  g_caches : bool;
  g_crypto : option bool;
  g_fetch : bool;
  g_ReadableStream : bool
}.

Module RuntimeDetection.

Inductive Runtime : Type := RtNode | RtEdge | RtUnknown.

Definition Runtime_name (r : Runtime) : string :=
  match r with
  | RtNode => "node"
  | RtEdge => "edge"
  | RtUnknown => "unknown"
  end.

Definition Runtime_eqb (a b : Runtime) : bool :=
  match a, b with
  | RtNode, RtNode | RtEdge, RtEdge | RtUnknown, RtUnknown => true
  | _, _ => false
  end.

Definition process_not_defined : string := "process is not defined".

(** [process?.versions?.node]: a ReferenceError when [process] is not
    declared. *)
Definition process_versions_node (g : Globals) : Completion (option string) :=
  match g_process g with
  | ProcessUndeclared => Throw (ThrownError process_not_defined)
  | ProcessUndefined => Normal None
  | ProcessObject _ versions => Normal (nullish versions None)
  end.

(** [detectRuntime()]. *)
Definition detectRuntime (g : Globals) : Completion Runtime :=
  let is_node :=
    match g_process g with
    | ProcessObject _ (Some (Some _)) => true
    | _ => false
    end in
  if g_EdgeRuntime g then Normal RtEdge
  else if g_globalThis_EdgeRuntime g then Normal RtEdge
  else if match g_Deno g with Some _ => true | None => false end then Normal RtEdge
  else if g_WebAssembly g && g_Response g then
    match process_versions_node g with
    | Throw e => Throw e
    | Normal node =>
        if negb (truthy node) then Normal RtEdge
        else if is_node then Normal RtNode else Normal RtUnknown
    end
  else if is_node then Normal RtNode else Normal RtUnknown.

Definition isNodeRuntime (g : Globals) : Completion bool :=
  match detectRuntime g with
  | Normal r => Normal (Runtime_eqb r RtNode)
  | Throw e => Throw e
  end.

Definition isEdgeRuntime (g : Globals) : Completion bool :=
  match detectRuntime g with
  | Normal r => Normal (Runtime_eqb r RtEdge)
  | Throw e => Throw e
  end.

Record Capabilities : Type := mkCapabilities {
  cap_runtime : Runtime;
  cap_isNode : bool;
  cap_isEdge : bool;
  supportsFileSystem : bool;
  supportsWebCrypto : bool;
  supportsFetch : bool;
  supportsStreams : bool
}.

Definition getRuntimeCapabilities (g : Globals) : Completion Capabilities :=
  match detectRuntime g with
  | Throw e => Throw e
  | Normal runtime =>
      Normal {| cap_runtime := runtime;
                cap_isNode := Runtime_eqb runtime RtNode;
                cap_isEdge := Runtime_eqb runtime RtEdge;
                supportsFileSystem := Runtime_eqb runtime RtNode;
                supportsWebCrypto := match g_crypto g with
                                     | Some subtle => subtle
                                     | None => false
                                     end;
                supportsFetch := g_fetch g;
                supportsStreams := g_ReadableStream g |}
  end.

Definition assertRuntime_message (expected actual : Runtime) : string :=
  "Expected " ++ Runtime_name expected ++ " runtime, but detected "
  ++ Runtime_name actual ++ ". " ++ "This code requires "
  ++ Runtime_name expected ++ " runtime to function correctly.".

Definition assertRuntime (g : Globals) (expected : Runtime) : Completion unit :=
  match detectRuntime g with
  | Throw e => Throw e
  | Normal actual =>
      if negb (Runtime_eqb actual expected)
      then Throw (ThrownError (assertRuntime_message expected actual))
      else Normal tt
  end.

(** The runtimes in which the Node branch of [detectRuntime] is reached
    and taken: no edge indicator, a [process] object whose
    [versions.node] is set, and a non-empty version where [WebAssembly]
    and [Response] both exist. *)
Definition runs_on_node (g : Globals) : Prop :=
  g_EdgeRuntime g = false /\
  g_globalThis_EdgeRuntime g = false /\
  g_Deno g = None /\
  exists env version,
    g_process g = ProcessObject env (Some (Some version)) /\
    (version <> ""%string \/ g_WebAssembly g && g_Response g = false).

End RuntimeDetection.

Module EdgeHelpers.

(** The value [process.env] holds for a key, when there is one. *)
Definition process_env_value (g : Globals) (key : string) : option string :=
  match g_process g with
  | ProcessObject (Some env) _ => env key
  | _ => None
  end.

(** [getEdgeEnv(key, defaultValue)]. *)
Definition getEdgeEnv (g : Globals) (key : string) (defaultValue : option string)
  : option string :=
  let from_deno :=
    match g_Deno g with
    | Some (Some get) =>
        match get key with
        | Normal value => Some (js_or value defaultValue)
        | Throw _ => None
        end
    | _ => None
    end in
  let after_process :=
    match from_deno with
    | Some answer => answer
    | None => defaultValue
    end in
  match g_process g with
  | ProcessObject (Some env) _ =>
      match env key with
      | Some value => Some value
      | None => after_process
      end
  | _ => after_process
  end.

Definition required_message (key : string) : string :=
  "Required environment variable " ++ key ++ " is not set".

(** [requireEdgeEnv(key)]. *)
Definition requireEdgeEnv (g : Globals) (key : string) : Completion string :=
  let value := getEdgeEnv g key None in
  if negb (truthy value) then Throw (ThrownError (required_message key))
  else Normal (nullish value "").

(** The headers of a [Request], through [headers.get] ([None]: [null]). *)
Definition Headers : Type := string -> option string.

Definition nullable (v : option string) : JSValue :=
  match v with
  | Some s => JString s
  | None => JNull
  end.

Record Geo : Type := mkGeo {
  country : JSValue;
  region : JSValue;
  city : JSValue;
  latitude : JSValue;
  longitude : JSValue
}.

(** [getGeoFromRequest(request)]. *)
Definition getGeoFromRequest (headers : Headers) : Geo :=
  let vercelCountry := headers "x-vercel-ip-country" in
  if truthy vercelCountry then
    {| country := nullable vercelCountry;
       region := nullable (headers "x-vercel-ip-country-region");
       city := nullable (headers "x-vercel-ip-city");
       latitude := nullable (headers "x-vercel-ip-latitude");
       longitude := nullable (headers "x-vercel-ip-longitude") |}
  else
    let cfCountry := headers "cf-ipcountry" in
    if truthy cfCountry then
      {| country := nullable cfCountry;
         region := nullable (headers "cf-region");
         city := nullable (headers "cf-city");
         latitude := nullable (headers "cf-latitude");
         longitude := nullable (headers "cf-longitude") |}
    else
      {| country := JUndefined; region := JUndefined; city := JUndefined;
         latitude := JUndefined; longitude := JUndefined |}.

(** White space of [String.prototype.trim], on UTF-8 bytes: TAB to CR and
    SP; U+00A0; U+1680, U+2000 to U+200A, U+2028, U+2029, U+202F, U+205F,
    U+3000 and U+FEFF. *)
Definition ws1 (a : ascii) : bool :=
  let a := nat_of_ascii a in ((9 <=? a) && (a <=? 13) || (a =? 32))%nat.

Definition ws2 (a b : ascii) : bool :=
  ((nat_of_ascii a =? 194) && (nat_of_ascii b =? 160))%nat.

Definition ws3 (a b c : ascii) : bool :=
  let a := nat_of_ascii a in
  let b := nat_of_ascii b in
  let c := nat_of_ascii c in
  ((a =? 225) && (b =? 154) && (c =? 128)
   || (a =? 226) && (b =? 128)
      && ((128 <=? c) && (c <=? 138) || (c =? 168) || (c =? 169) || (c =? 175))
   || (a =? 226) && (b =? 129) && (c =? 159)
   || (a =? 227) && (b =? 128) && (c =? 128)
   || (a =? 239) && (b =? 187) && (c =? 191))%nat.

(** The bytes after one leading white-space character; with [backwards]
    the list is a reversed string and the character is read from its end. *)
Definition skip_space (backwards : bool) (l : list ascii) : option (list ascii) :=
  match l with
  | a :: r =>
      if ws1 a then Some r
      else
        match r with
        | b :: r2 =>
            if (if backwards then ws2 b a else ws2 a b) then Some r2
            else
              match r2 with
              | c :: r3 =>
                  if (if backwards then ws3 c b a else ws3 a b c)
                  then Some r3 else None
              | [] => None
              end
        | [] => None
        end
  | [] => None
  end.

Fixpoint skip_spaces (backwards : bool) (fuel : nat) (l : list ascii)
  : list ascii :=
  match fuel with
  | O => l
  | S fuel' =>
      match skip_space backwards l with
      | Some r => skip_spaces backwards fuel' r
      | None => l
      end
  end.

Definition trim_bytes (l : list ascii) : list ascii :=
  let l1 := skip_spaces false (List.length l) l in
  rev (skip_spaces true (List.length l1) (rev l1)).

(** [s.trim()]. *)
Definition trim (s : string) : string :=
  string_of_list_ascii (trim_bytes (list_ascii_of_string s)).

(** [s.split(',')[0]]. *)
Fixpoint first_segment (s : string) : string :=
  match s with
  | EmptyString => ""
  | String c rest =>
      if (nat_of_ascii c =? 44)%nat then "" else String c (first_segment rest)
  end.

(** [getClientIp(request)]. *)
Definition getClientIp (headers : Headers) : option string :=
  let forwarded :=
    match headers "x-forwarded-for" with
    | Some value => Some (trim (first_segment value))
    | None => None
    end in
  js_or (js_or (js_or (js_or forwarded (headers "x-real-ip"))
                      (headers "cf-connecting-ip"))
               (headers "x-vercel-forwarded-for"))
        None.

(** ** createEdgeFetch *)

Record JSError : Type := mkError {
  err_name : string;
  err_message : string
}.

(** What the transport can throw: an [Error] or another value. *)
Inductive Raised : Type :=
| RaisedError (e : JSError)
| RaisedValue (v : JSValue).

(** The values of a [RequestInit]: plain data, an abort signal supplied
    by the caller, or the signal of the controller of an attempt. *)
Inductive InitValue : Type :=
| Plain (v : JSValue)
| CallerSignal
| ControllerSignal (attempt : Z).

Definition EdgeFetchOptions : Type := list (string * InitValue).

Record EdgeResponse : Type := mkEdgeResponse {
  er_status : Z;
  er_statusText : string
}.

Definition er_ok (r : EdgeResponse) : bool :=
  (200 <=? er_status r) && (er_status r <=? 299).

Inductive EdgeOutcome : Type :=
| EdgeResponds (r : EdgeResponse)
| EdgeRejects (e : Raised).

(** A transport call, with the timeout armed for it, or a sleep. *)
Inductive EdgeEvent : Type :=
| EdgeCall (input : string) (init : EdgeFetchOptions) (timeout : Z)
| EdgeSleep (ms : Z).

Definition EdgeTransport : Type :=
  list EdgeEvent -> string -> EdgeFetchOptions -> EdgeOutcome.

Inductive EdgeResult : Type :=
| EdgeResolved (r : EdgeResponse)
| EdgeRejected (e : JSError).

(** [String(v)]. *)
Fixpoint ToString (v : JSValue) : string :=
  match v with
  | JUndefined => "undefined"
  | JNull => "null"
  | JBoolean b => if b then "true" else "false"
  | JNumber n => Number_toString n
  | JString s => s
  | JArray items =>
      String.concat ","
        (map (fun i => match i with
                       | JUndefined | JNull => ""
                       | _ => ToString i
                       end) items)
  | JObject _ => "[object Object]"
  end.

(** A numeric option of an options object ([None]: [undefined]).  The
    options are read as [EdgeFetchOptions] types them: [retries],
    [retryDelay] and [timeout] hold a number or are absent. *)
Definition number_field (key : string) (o : EdgeFetchOptions) : option Z :=
  match obj_get key o with
  | Some (Plain (JNumber n)) => Some n
  | _ => None
  end.

(** The rest of the destructuring
    [{ retries, retryDelay, timeout, ...fetchDefaults }]. *)
Definition fetchDefaults_of (defaultOptions : EdgeFetchOptions) : EdgeFetchOptions :=
  filter (fun kv => negb ((fst kv =? "retries")%string
                          || (fst kv =? "retryDelay")%string
                          || (fst kv =? "timeout")%string))
         defaultOptions.

Definition http_error (r : EdgeResponse) : JSError :=
  {| err_name := "Error";
     err_message := "HTTP " ++ Number_toString (er_status r) ++ ": "
                    ++ er_statusText r |}.

Definition timeout_error (finalTimeout : Z) : JSError :=
  {| err_name := "Error";
     err_message := "Request timeout after " ++ Number_toString finalTimeout ++ "ms" |}.

Definition request_failed : JSError :=
  {| err_name := "Error"; err_message := "Request failed" |}.

Definition fetch_not_defined : JSError :=
  {| err_name := "ReferenceError"; err_message := "fetch is not defined" |}.

(** How the body of one iteration ends: [return response], a [throw]
    out of the [catch] block, or on to the backoff with [lastError]. *)
Inductive EdgeStep : Type :=
| EdgeReturn (r : EdgeResponse)
| EdgeThrow (e : JSError)
| EdgeNext (lastError : JSError).

(** The [catch] block. *)
Definition edge_catch (finalTimeout : Z) (error : Raised) : EdgeStep :=
  let lastError :=
    match error with
    | RaisedError e => e
    | RaisedValue v => {| err_name := "Error"; err_message := ToString v |}
    end in
  if (err_name lastError =? "AbortError")%string
  then EdgeThrow (timeout_error finalTimeout)
  else EdgeNext lastError.

(** The [try] block with its [catch]: the step and the trace after it. *)
Definition edge_attempt (fetch : option EdgeTransport) (input : string)
  (finalOptions : EdgeFetchOptions) (finalTimeout attempt : Z)
  (tr : list EdgeEvent) : EdgeStep * list EdgeEvent :=
  let init := obj_set "signal" (ControllerSignal attempt) finalOptions in
  match fetch with
  | None => (edge_catch finalTimeout (RaisedError fetch_not_defined), tr)
  | Some f =>
      let tr1 := (tr ++ [EdgeCall input init finalTimeout])%list in
      match f tr input init with
      | EdgeResponds response =>
          if er_ok response
             || (400 <=? er_status response) && (er_status response <? 500)
          then (EdgeReturn response, tr1)
          else (EdgeNext (http_error response), tr1)
      | EdgeRejects error => (edge_catch finalTimeout error, tr1)
      end
  end.

(** The [for] loop of [edgeFetch] from attempt number [attempt] on. *)
Fixpoint edge_loop (fetch : option EdgeTransport) (fuel : nat) (input : string)
  (finalOptions : EdgeFetchOptions) (finalRetries finalDelay finalTimeout : Z)
  (attempt : Z) (lastError : option JSError) (tr : list EdgeEvent)
  : option (EdgeResult * list EdgeEvent) :=
  match fuel with
  | O => None
  | S fuel' =>
      if attempt <=? finalRetries then
        match edge_attempt fetch input finalOptions finalTimeout attempt tr with
        | (EdgeReturn r, tr1) => Some (EdgeResolved r, tr1)
        | (EdgeThrow e, tr1) => Some (EdgeRejected e, tr1)
        | (EdgeNext e, tr1) =>
            let tr2 :=
              if attempt <? finalRetries
              then (tr1 ++ [EdgeSleep (finalDelay * 2 ^ attempt)])%list else tr1 in
            edge_loop fetch fuel' input finalOptions finalRetries finalDelay
              finalTimeout (attempt + 1) (Some e) tr2
        end
      else Some (EdgeRejected (nullish lastError request_failed), tr)
  end.

Definition finalRetries_of (defaultOptions : EdgeFetchOptions)
  (options : option EdgeFetchOptions) : Z :=
  nullish (number_field "retries" (nullish options []))
          (nullish (number_field "retries" defaultOptions) 3).

Definition finalDelay_of (defaultOptions : EdgeFetchOptions)
  (options : option EdgeFetchOptions) : Z :=
  nullish (number_field "retryDelay" (nullish options []))
          (nullish (number_field "retryDelay" defaultOptions) 1000).

Definition finalTimeout_of (defaultOptions : EdgeFetchOptions)
  (options : option EdgeFetchOptions) : Z :=
  nullish (number_field "timeout" (nullish options []))
          (nullish (number_field "timeout" defaultOptions) 30000).

Definition finalOptions_of (defaultOptions : EdgeFetchOptions)
  (options : option EdgeFetchOptions) : EdgeFetchOptions :=
  obj_spread (fetchDefaults_of defaultOptions) (nullish options []).

(** [createEdgeFetch(defaultOptions)(input, options)] over the global
    [fetch] ([None] where there is none). *)
Definition createEdgeFetch (fetch : option EdgeTransport)
  (defaultOptions : option EdgeFetchOptions) (input : string)
  (options : option EdgeFetchOptions)
  : option (EdgeResult * list EdgeEvent) :=
  let defaults := nullish defaultOptions [] in
  let finalRetries := finalRetries_of defaults options in
  edge_loop fetch (S (Z.to_nat (finalRetries + 1))) input
    (finalOptions_of defaults options) finalRetries
    (finalDelay_of defaults options) (finalTimeout_of defaults options)
    0 None [].

(** The transport calls and the sleeps of a trace. *)
Fixpoint edge_calls (tr : list EdgeEvent) : list (string * EdgeFetchOptions * Z) :=
  match tr with
  | [] => []
  | EdgeCall input init timeout :: rest => (input, init, timeout) :: edge_calls rest
  | EdgeSleep _ :: rest => edge_calls rest
  end.

Fixpoint edge_sleeps (tr : list EdgeEvent) : list Z :=
  match tr with
  | [] => []
  | EdgeCall _ _ _ :: rest => edge_sleeps rest
  | EdgeSleep ms :: rest => ms :: edge_sleeps rest
  end.

(** An answer that [edgeFetch] hands back: a 2xx or a 4xx response. *)
Definition handed_back (r : EdgeResponse) : bool :=
  er_ok r || (400 <=? er_status r) && (er_status r <? 500).

(** The [Error] an answer leaves in [lastError]: [HTTP status: text] for
    a response, the thrown [Error], or a new [Error] made of the thrown
    value. *)
Definition error_of (out : EdgeOutcome) : JSError :=
  match out with
  | EdgeResponds r => http_error r
  | EdgeRejects (RaisedError e) => e
  | EdgeRejects (RaisedValue v) => {| err_name := "Error"; err_message := ToString v |}
  end.

(** An answer after which [edgeFetch] goes on: a response that is
    neither 2xx nor 4xx, or a rejection that is not an abort. *)
Definition goes_on (out : EdgeOutcome) : Prop :=
  match out with
  | EdgeResponds r => handed_back r = false
  | EdgeRejects _ => (err_name (error_of out) =? "AbortError")%string = false
  end.

End EdgeHelpers.

(** ** Sample inputs *)

Module Samples.

Import EdgeHelpers.

(** A server that is unavailable twice and then answers [{"x":1}]. *)
Definition flaky : Transport :=
  fun tr _ _ =>
    if (List.length (fetches tr) <? 2)%nat
    then Responds {| status := 503; json := None |}
    else Responds {| status := 200; json := Some (JObject [("x", JNumber 1)]) |}.

(** A Deno runtime that also exposes a Node-compatible [process]. *)
Definition deno_with_process : Globals :=
  {| g_process := ProcessObject (Some (fun _ => None)) (Some (Some "20.11.1"));
     g_Deno := Some (Some (fun _ => Normal None));
     g_EdgeRuntime := false;
     g_globalThis_EdgeRuntime := false;
     g_WebAssembly := true;
     g_Response := true;
     g_caches := true;
     g_crypto := Some true;
     g_fetch := true;
     g_ReadableStream := true |}.

(** A worker without [process]. *)
Definition worker : Globals :=
  {| g_process := ProcessUndeclared;
     g_Deno := None;
     g_EdgeRuntime := false;
     g_globalThis_EdgeRuntime := false;
     g_WebAssembly := true;
     g_Response := true;
     g_caches := true;
     g_crypto := Some true;
     g_fetch := true;
     g_ReadableStream := true |}.

(** A runtime whose [process.env] holds [API_KEY] as the empty string
    while [Deno.env] has a value for it. *)
Definition empty_in_process : Globals :=
  {| g_process := ProcessObject
                    (Some (fun key => if (key =? "API_KEY")%string
                                      then Some "" else None))
                    None;
     g_Deno := Some (Some (fun _ => Normal (Some "from-deno")));
     g_EdgeRuntime := false;
     g_globalThis_EdgeRuntime := false;
     g_WebAssembly := true;
     g_Response := true;
     g_caches := false;
     g_crypto := None;
     g_fetch := true;
     g_ReadableStream := true |}.

(** The headers of a proxied request. *)
Definition proxied (forwarded : string) : Headers :=
  fun name =>
    if (name =? "x-forwarded-for")%string then Some forwarded
    else if (name =? "x-real-ip")%string then Some "198.51.100.4"
    else None.

Definition aborting : EdgeTransport :=
  fun _ _ _ =>
    EdgeRejects (RaisedError {| err_name := "AbortError";
                                err_message := "This operation was aborted" |}).

Definition unavailable : EdgeTransport :=
  fun _ _ _ =>
    EdgeResponds {| er_status := 503; er_statusText := "Service Unavailable" |}.

End Samples.

(** * Properties *)

#[local] Open Scope list_scope.

(** ** The steps of a call *)

Section Steps.

Variable P : Platform.
Variable w : World.

(** The [try] block, branch by branch. *)
Lemma try_block_cases (url : string) (options : RequestOptions) (attempt : Z)
  (s : State) :
  try_block P w url options attempt s =
  match getAuthHeaders P (this_ s) (Date_now w (trace s)) with
  | Throw e => (Throw e, s)
  | Normal auth =>
      let init := fetchOptions_of options auth in
      match fetchFn (this_ s) with
      | None => (Throw (ThrownError not_a_function), s)
      | Some f =>
          let s1 := suspend w (EvFetch url init) s in
          match f (trace s) url init with
          | Rejects e => (Throw e, s1)
          | Responds r =>
              if Response_ok r then
                (Normal (Return {| ok := true; resp_status := status r;
                                   data := Some (nullish (json r) (JObject []));
                                   error := None |}), s1)
              else
                match errorMessage (nullish (json r) (JObject [])) (status r) with
                | Throw e => (Throw e, s1)
                | Normal message =>
                    if isRetryable (status r) && (attempt <? retries (this_ s1))
                    then (Normal (Continue (failure (status r) message)),
                          suspend w (EvSleep (retryDelay (this_ s1) * 2 ^ attempt)) s1)
                    else (Normal (Return (failure (status r) message)), s1)
                end
          end
      end
  end.
Proof.
  unfold try_block, bind, auth_headers, await_fetch, lift, read, sleep, ret,
    fetchOptions_of.
  destruct (getAuthHeaders P (this_ s) (Date_now w (trace s))) as [auth|e];
    [|reflexivity].
  cbv zeta.
  destruct (fetchFn (this_ s)) as [f|]; [|reflexivity].
  destruct (f (trace s) url _) as [r|e]; [|reflexivity].
  destruct (Response_ok r); cbn [negb]; [reflexivity|].
  destruct (errorMessage _ (status r)) as [m|e]; [|reflexivity].
  destruct (isRetryable (status r) && _); reflexivity.
Qed.

(** A suspension changes the bearer token at most. *)
Lemma suspend_this (e : Event) (s : State) :
  exists token, this_ (suspend w e s) = with_bearer token (this_ s).
Proof.
  unfold suspend; cbn [this_].
  destruct (refreshed w _) as [t|].
  - exists (Some t). reflexivity.
  - exists (bearerToken (this_ s)). destruct (this_ s); reflexivity.
Qed.

Lemma suspend_trace (e : Event) (s : State) :
  trace (suspend w e s) = (trace s ++ [e])%list.
Proof. reflexivity. Qed.


Lemma with_bearer_again (t t' : option string) (c : ApiClient) :
  with_bearer t' (with_bearer t c) = with_bearer t' c.
Proof. reflexivity. Qed.

Lemma with_bearer_self (c : ApiClient) : with_bearer (bearerToken c) c = c.
Proof. destruct c; reflexivity. Qed.

Lemma steps_trans (url : string) (o : RequestOptions) (s1 s2 s3 : State) :
  steps P w url o s1 s2 -> steps P w url o s2 s3 -> steps P w url o s1 s3.
Proof.
  intros H12 H23. induction H23 as [|s2 s s3 _ IH Hs].
  - exact H12.
  - eapply steps_snoc; [apply IH; exact H12|exact Hs].
Qed.

Lemma steps_one (url : string) (o : RequestOptions) (s s' : State) :
  step P w url o s s' -> steps P w url o s s'.
Proof. intro H. eapply steps_snoc; [apply steps_refl|exact H]. Qed.

(** The [try] block moves the state by a transport call and a sleep at
    most. *)
Lemma try_block_steps (url : string) (o : RequestOptions) (attempt : Z)
  (s : State) :
  steps P w url o s (snd (try_block P w url o attempt s)).
Proof.
  rewrite try_block_cases.
  destruct (getAuthHeaders P (this_ s) (Date_now w (trace s))) as [auth|e] eqn:Ha;
    [|apply steps_refl].
  cbv zeta.
  destruct (fetchFn (this_ s)) as [f|]; [|apply steps_refl].
  assert (Hf : steps P w url o s (suspend w (EvFetch url (fetchOptions_of o auth)) s))
    by (apply steps_one, step_fetch, Ha).
  destruct (f (trace s) url _) as [r|e]; [|exact Hf].
  destruct (Response_ok r); [exact Hf|].
  destruct (errorMessage _ _) as [m|e]; [|exact Hf].
  destruct (isRetryable (status r) && _); [|exact Hf].
  eapply steps_snoc; [exact Hf|apply step_sleep].
Qed.

Lemma catch_block_steps (url : string) (o : RequestOptions) (e : Thrown)
  (attempt : Z) (s : State) :
  steps P w url o s (snd (catch_block w e attempt s)).
Proof.
  unfold catch_block.
  destruct (attempt <? retries (this_ s)); cbn [snd].
  - apply steps_one, step_sleep.
  - apply steps_refl.
Qed.

Lemma request_loop_steps (url : string) (o : RequestOptions) (fuel : nat) :
  forall attempt lastError s r s',
    request_loop P w fuel url o attempt lastError s = Some (r, s') ->
    steps P w url o s s'.
Proof.
  induction fuel as [|fuel IH]; intros attempt lastError s r s' H; [discriminate|].
  cbn [request_loop] in H.
  destruct (attempt <=? retries (this_ s)).
  - pose proof (try_block_steps url o attempt s) as Ht.
    destruct (try_block P w url o attempt s) as [[[r0|e0]|err] s1]; cbn [snd] in Ht.
    + injection H as <- <-. exact Ht.
    + eapply steps_trans; [exact Ht|eapply IH; exact H].
    + pose proof (catch_block_steps url o err attempt s1) as Hc.
      destruct (catch_block w err attempt s1) as [e1 s2]; cbn [snd] in Hc.
      eapply steps_trans; [exact Ht|].
      eapply steps_trans; [exact Hc|eapply IH; exact H].
  - injection H as <- <-. apply steps_refl.
Qed.

(** Along a call only the bearer token of the client changes. *)
Lemma steps_this (url : string) (o : RequestOptions) (s s' : State) :
  steps P w url o s s' ->
  exists token, this_ s' = with_bearer token (this_ s).
Proof.
  induction 1 as [s|s1 s2 s3 _ [t IH] Hs].
  - exists (bearerToken (this_ s)). symmetry. apply with_bearer_self.
  - assert (Hsus : exists e, s3 = suspend w e s2)
      by (destruct Hs; eexists; reflexivity).
    destruct Hsus as [e ->].
    destruct (suspend_this e s2) as [t' Ht'].
    exists t'. rewrite Ht', IH. apply with_bearer_again.
Qed.

Lemma steps_retries (url : string) (o : RequestOptions) (s s' : State) :
  steps P w url o s s' -> retries (this_ s') = retries (this_ s).
Proof. intro H. destruct (steps_this _ _ _ _ H) as [t ->]. reflexivity. Qed.

(** The loop ends: with fuel above the number of attempts left it
    answers an envelope. *)
Lemma request_loop_total (url : string) (o : RequestOptions) (fuel : nat) :
  forall attempt lastError s,
    (Z.to_nat (retries (this_ s) + 1 - attempt) < fuel)%nat ->
    exists r s', request_loop P w fuel url o attempt lastError s = Some (r, s').
Proof.
  induction fuel as [|fuel IH]; intros attempt lastError s Hfuel; [lia|].
  cbn [request_loop].
  destruct (attempt <=? retries (this_ s)) eqn:Hle; [|eauto].
  apply Z.leb_le in Hle.
  pose proof (try_block_steps url o attempt s) as Ht.
  destruct (try_block P w url o attempt s) as [[[r0|e0]|err] s1]; cbn [snd] in Ht.
  - eauto.
  - apply IH. rewrite (steps_retries _ _ _ _ Ht). lia.
  - pose proof (catch_block_steps url o err attempt s1) as Hc.
    destruct (catch_block w err attempt s1) as [e1 s2]; cbn [snd] in Hc.
    apply IH.
    rewrite (steps_retries _ _ _ _ Hc), (steps_retries _ _ _ _ Ht). lia.
Qed.

End Steps.

(** ** Settling: what a call answers *)

Section Settling.

Variable P : Platform.
Variable w : World.

Lemma invoke_request (this : ApiClient) (path : string) (c : Call) :
  invoke P w this path c = request P w this path (options_of c).
Proof. destruct c; reflexivity. Qed.





End Settling.

(** ** Headers are derived afresh on every attempt *)

Section Freshness.

Variable P : Platform.
Variable w : World.

Lemma replay_snoc (e : Event) (todo : Trace) :
  forall this done,
    replay w this done (todo ++ [e]) =
    match refreshed w (done ++ todo ++ [e]) with
    | Some token => setBearerToken token (replay w this done todo)
    | None => replay w this done todo
    end.
Proof.
  induction todo as [|x todo IH]; intros this done.
  - cbn [replay app]. reflexivity.
  - cbn [replay app]. rewrite IH.
    replace ((done ++ [x]) ++ todo ++ [e])%list with (done ++ x :: todo ++ [e])%list
      by (rewrite <- app_assoc; reflexivity).
    reflexivity.
Qed.

Lemma client_after_snoc (this : ApiClient) (tr : Trace) (e : Event) :
  client_after w this (tr ++ [e]) =
  match refreshed w (tr ++ [e]) with
  | Some token => setBearerToken token (client_after w this tr)
  | None => client_after w this tr
  end.
Proof. unfold client_after. rewrite replay_snoc. reflexivity. Qed.

Lemma client_after_this (this : ApiClient) (tr : Trace) :
  exists token, client_after w this tr = with_bearer token this.
Proof.
  induction tr as [|e tr IH] using rev_ind.
  - exists (bearerToken this). symmetry. apply with_bearer_self.
  - destruct IH as [t IH]. rewrite client_after_snoc.
    destruct (refreshed w (tr ++ [e])) as [t'|]; [|eauto].
    exists (Some t'). rewrite IH. reflexivity.
Qed.

Lemma snoc_split {A : Type} (tr pre post : list A) (e x : A) :
  (tr ++ [e] = pre ++ x :: post)%list ->
  (pre = tr /\ x = e /\ post = []) \/
  (exists post', post = (post' ++ [e])%list /\ tr = (pre ++ x :: post')%list).
Proof.
  intro H. destruct post as [|p post0].
  - apply app_inj_tail in H. destruct H as [-> ->]. left. auto.
  - destruct (@exists_last _ (p :: post0)) as [post' [a Hp]]; [discriminate|].
    rewrite Hp in H |- *.
    change (pre ++ x :: post' ++ [a])%list with (pre ++ (x :: post') ++ [a])%list in H.
    rewrite app_assoc in H. apply app_inj_tail in H. destruct H as [-> ->].
    right. exists post'. auto.
Qed.

(** The invariant of a call: the client of the state is the starting
    client after the refreshes of the trace, and every transport call so
    far used the headers of its moment. *)
Lemma steps_fresh (this : ApiClient) (url : string) (o : RequestOptions)
  (s s' : State) :
  steps P w url o s s' ->
  this_ s = client_after w this (trace s) ->
  calls_fresh P w this url o (trace s) ->
  this_ s' = client_after w this (trace s') /\
  calls_fresh P w this url o (trace s').
Proof.
  intros H H0 Hc. induction H as [s|s1 s2 s3 _ IH Hs]; [auto|].
  destruct (IH H0 Hc) as [Hthis Hcalls]. clear IH. split.
  - assert (Hsus : exists e, s3 = suspend w e s2)
      by (destruct Hs; eexists; reflexivity).
    destruct Hsus as [e ->].
    rewrite suspend_trace, client_after_snoc. unfold suspend; cbn [this_].
    rewrite Hthis. reflexivity.
  - intros pre url' init post Hsplit. destruct Hs as [s2 auth Ha|s2 ms];
      rewrite suspend_trace in Hsplit;
      apply snoc_split in Hsplit;
      destruct Hsplit as [[-> [Heq _]]|[post' [_ Htr]]];
      try (eapply Hcalls; exact Htr); [|discriminate].
    injection Heq as -> ->. split; [reflexivity|].
    exists auth. rewrite <- Hthis. auto.
Qed.

Lemma request_calls_fresh (this : ApiClient) (path : string)
  (o : RequestOptions) (outcome : Completion ApiResponse) (s : State) :
  request P w this path o = Some (outcome, s) ->
  exists url, calls_fresh P w this url o (trace s).
Proof.
  unfold request. intro H.
  destruct (buildUrl P this path (opt_params o)) as [url|e].
  - exists url.
    destruct (request_loop P w _ url o 0 None _) as [[r s']|] eqn:Hloop;
      [|discriminate].
    injection H as _ <-.
    apply request_loop_steps in Hloop.
    eapply steps_fresh in Hloop; [apply Hloop|reflexivity|].
    intros pre url' init post Hnil. destruct pre; discriminate.
  - exists "". injection H as _ <-.
    intros pre url' init post Hnil. destruct pre; discriminate.
Qed.

Lemma request_calls_url (this : ApiClient) (path : string)
  (o : RequestOptions) (outcome : Completion ApiResponse) (s : State)
  (url : string) :
  request P w this path o = Some (outcome, s) ->
  buildUrl P this path (opt_params o) = Normal url ->
  calls_fresh P w this url o (trace s).
Proof.
  unfold request. intros H Hurl. rewrite Hurl in H.
  destruct (request_loop P w _ url o 0 None _) as [[r s']|] eqn:Hloop;
    [|discriminate].
  injection H as _ <-.
  apply request_loop_steps in Hloop.
  eapply steps_fresh in Hloop; [apply Hloop|reflexivity|].
  intros pre url' init post Hnil. destruct pre; discriminate.
Qed.

Lemma fetches_app (a b : Trace) :
  fetches (a ++ b) = (fetches a ++ fetches b)%list.
Proof.
  induction a as [|[u i|ms] a IH]; cbn [fetches app]; [reflexivity| |exact IH].
  rewrite IH. reflexivity.
Qed.

Lemma fetches_In (tr : Trace) (url : string) (init : FetchOptions) :
  In (url, init) (fetches tr) ->
  exists pre post, tr = (pre ++ EvFetch url init :: post)%list.
Proof.
  induction tr as [|[u i|ms] tr IH]; cbn [fetches]; intro H.
  - destruct H.
  - destruct H as [H|H].
    + injection H as -> ->. exists [], tr. reflexivity.
    + destruct (IH H) as [pre [post ->]].
      exists (EvFetch u i :: pre), post. reflexivity.
  - destruct (IH H) as [pre [post ->]].
    exists (EvSleep ms :: pre), post. reflexivity.
Qed.

(** What [getAuthHeaders] answers, by the credential that wins. *)
Lemma getAuthHeaders_bearer (this : ApiClient) (now : Z) :
  truthy (bearerToken this) = true ->
  getAuthHeaders P this now =
  Normal [("Authorization", ("Bearer " ++ nullish (bearerToken this) "")%string)].
Proof. unfold getAuthHeaders. intros ->. reflexivity. Qed.

Lemma getAuthHeaders_apiKey (this : ApiClient) (now : Z) :
  truthy (bearerToken this) = false ->
  truthy (apiKey this) = true ->
  getAuthHeaders P this now =
  Normal [("x-entrolytics-api-key", nullish (apiKey this) "")].
Proof. unfold getAuthHeaders. intros -> ->. reflexivity. Qed.

Lemma truthy_Some (s : string) : s <> "" -> truthy (Some s) = true.
Proof. intro H. cbn. apply String.eqb_neq in H. rewrite H. reflexivity. Qed.

(** C3.  With a bearer token, an API key and the legacy pair all
    present, [getAuthHeaders] answers the bearer [Authorization] header
    alone; without the bearer token the API key wins over the legacy pair.
    The derivation is made afresh on every attempt: after
    [setBearerToken(token)] it answers the new token, every transport call
    of a [request] carries the headers derived from the client as it stood
    at that call, and a token set while the call was suspended is the one
    the next attempt sends. *)
Theorem auth_priority_fresh (this : ApiClient) (now : Z) :
  truthy (bearerToken this) = true ->
  truthy (apiKey this) = true ->
  truthy (userId this) = true ->
  truthy (secret this) = true ->
  getAuthHeaders P this now =
    Normal [("Authorization", ("Bearer " ++ nullish (bearerToken this) "")%string)]
  /\ (forall absent, truthy absent = false ->
      getAuthHeaders P (with_bearer absent this) now =
        Normal [("x-entrolytics-api-key", nullish (apiKey this) "")])
  /\ (forall token, token <> "" ->
      getAuthHeaders P (setBearerToken token this) now =
        Normal [("Authorization", ("Bearer " ++ token)%string)])
  /\ (forall path o outcome s pre url init post,
      request P w this path o = Some (outcome, s) ->
      trace s = (pre ++ EvFetch url init :: post)%list ->
      (exists auth,
         getAuthHeaders P (client_after w this pre) (Date_now w pre) = Normal auth /\
         fo_headers init = compose_headers auth (opt_headers o))
      /\ (forall token, pre <> [] -> refreshed w pre = Some token -> token <> "" ->
          fo_headers init =
            compose_headers [("Authorization", ("Bearer " ++ token)%string)] (opt_headers o))).
Proof.
  intros Hb Hk Hu Hs. split; [apply getAuthHeaders_bearer, Hb|].
  split;
    [intros absent Ha; exact (getAuthHeaders_apiKey (with_bearer absent this) now Ha Hk)|].
  split.
  { intros token Ht.
    exact (getAuthHeaders_bearer (setBearerToken token this) now (truthy_Some _ Ht)). }
  intros path o outcome s pre url init post Hreq Htr.
  destruct (request_calls_fresh _ _ _ _ _ Hreq) as [url0 Hfresh].
  destruct (Hfresh _ _ _ _ Htr) as [_ [auth [Hauth ->]]].
  split; [exists auth; auto|].
  intros token Hpre Href Htok.
  destruct (@exists_last _ pre Hpre) as [pre' [e Hp]].
  rewrite Hp in Hauth, Href. rewrite client_after_snoc, Href in Hauth.
  rewrite getAuthHeaders_bearer in Hauth by (apply truthy_Some, Htok).
  injection Hauth as <-. reflexivity.
Qed.

End Freshness.

(** ** What goes on the wire *)

Section Wire.

Variable P : Platform.
Variable w : World.

Lemma ToBoolean_false (v : JSValue) :
  ToBoolean v = false <->
  v = JUndefined \/ v = JNull \/ v = JBoolean false \/ v = JNumber 0
  \/ v = JString "".
Proof.
  split.
  - destruct v as [| |b|n|s|items|props]; cbn [ToBoolean]; intro H;
      try discriminate; auto.
    + subst b. auto.
    + apply negb_false_iff, Z.eqb_eq in H. subst n. auto 6.
    + apply negb_false_iff, String.eqb_eq in H. subst s. auto 6.
  - intros [-> | [-> | [-> | [-> | ->]]]]; reflexivity.
Qed.

Lemma JSON_stringify_defined (v : JSValue) :
  v <> JUndefined -> exists text, JSON_stringify v = Some text.
Proof.
  destruct v; cbn [JSON_stringify]; intro H; try (eexists; reflexivity).
  contradiction.
Qed.

(** C6, as amended.  On every transport call of a call of the surface
    the body is the JSON text of the caller's body when that value is
    truthy (an object or array, a non-empty string, a non-zero number,
    [true]), and there is no body when it is absent or falsy
    ([undefined], [null], [false], [0], the empty string). *)
Theorem body_attached_when_truthy (this : ApiClient) (path : string) (c : Call)
  (outcome : Completion ApiResponse) (s : State) (url : string)
  (init : FetchOptions) :
  invoke P w this path c = Some (outcome, s) ->
  In (url, init) (fetches (trace s)) ->
  (ToBoolean (opt_body (options_of c)) = true ->
   exists text,
     JSON_stringify (opt_body (options_of c)) = Some text /\
     fo_body init = Some text)
  /\ (ToBoolean (opt_body (options_of c)) = false -> fo_body init = None)
  /\ (ToBoolean (opt_body (options_of c)) = false <->
      opt_body (options_of c) = JUndefined \/ opt_body (options_of c) = JNull
      \/ opt_body (options_of c) = JBoolean false
      \/ opt_body (options_of c) = JNumber 0
      \/ opt_body (options_of c) = JString "").
Proof.
  rewrite invoke_request. intros Hreq Hin.
  destruct (request_calls_fresh _ _ _ _ _ _ _ Hreq) as [url0 Hfresh].
  destruct (fetches_In _ _ _ Hin) as [pre [post Htr]].
  destruct (Hfresh _ _ _ _ Htr) as [_ [auth [_ ->]]].
  cbn [fo_body fetchOptions_of].
  split; [|split; [|apply ToBoolean_false]].
  - intro Ht. rewrite Ht.
    destruct (JSON_stringify_defined (opt_body (options_of c))) as [text Hs].
    { intro Hu. rewrite Hu in Ht. discriminate. }
    exists text. auto.
  - intros ->. reflexivity.
Qed.

Lemma credential_obj_set (k v : string) (l : list (string * string)) :
  is_credential_header k = false ->
  credential_headers (obj_set k v l) = credential_headers l.
Proof.
  intro Hk. induction l as [|[k' v'] l IH]; cbn [obj_set].
  - unfold credential_headers. cbn [filter fst]. rewrite Hk. reflexivity.
  - destruct (k' =? k)%string eqn:E.
    + apply String.eqb_eq in E. subst k'.
      unfold credential_headers. cbn [filter fst]. rewrite Hk. reflexivity.
    + unfold credential_headers in *. cbn [filter fst]. rewrite IH. reflexivity.
Qed.

Lemma credential_spread (src : list (string * string)) :
  Forall (fun h => is_credential_header (fst h) = false) src ->
  forall target,
    credential_headers (obj_spread target src) = credential_headers target.
Proof.
  unfold obj_spread. induction 1 as [|[k v] src Hk _ IH]; intro target.
  - reflexivity.
  - cbn [fold_left fst snd]. rewrite IH. apply credential_obj_set, Hk.
Qed.

(** [getAuthHeaders] answers one credential header or none. *)
Lemma getAuthHeaders_shape (this : ApiClient) (now : Z)
  (auth : list (string * string)) :
  getAuthHeaders P this now = Normal auth ->
  credential_headers (obj_spread [("Content-Type", "application/json")] auth) = auth
  /\ List.length auth = (if configured this then 1 else 0)%nat.
Proof.
  unfold getAuthHeaders, configured.
  destruct (truthy (bearerToken this)).
  { intro H. injection H as <-. split; reflexivity. }
  destruct (truthy (apiKey this)).
  { intro H. injection H as <-. split; reflexivity. }
  destruct (truthy (userId this) && truthy (secret this)).
  - destruct (createShareToken P this now) as [token|e]; [|discriminate].
    intro H. injection H as <-. split; reflexivity.
  - intro H. injection H as <-. split; reflexivity.
Qed.

(** C7, as amended.  The engine contributes at most one credential
    header to a request: exactly one when the client of that moment has a
    bearer token, an API key or the complete legacy pair, and none
    otherwise (an anonymous request).  When the caller's header overrides
    name none of the three credential headers, that is exactly what every
    transport call of a [request] carries. *)
Theorem one_credential_header_at_most (this : ApiClient) (path : string)
  (o : RequestOptions) (outcome : Completion ApiResponse) (s : State)
  (url : string) (init : FetchOptions) :
  request P w this path o = Some (outcome, s) ->
  In (url, init) (fetches (trace s)) ->
  exists token now auth,
    getAuthHeaders P (with_bearer token this) now = Normal auth /\
    fo_headers init = compose_headers auth (opt_headers o) /\
    List.length auth = (if configured (with_bearer token this) then 1 else 0)%nat /\
    (names_no_credential (opt_headers o) ->
     credential_headers (fo_headers init) = auth).
Proof.
  intros Hreq Hin.
  destruct (request_calls_fresh _ _ _ _ _ _ _ Hreq) as [url0 Hfresh].
  destruct (fetches_In _ _ _ Hin) as [pre [post Htr]].
  destruct (Hfresh _ _ _ _ Htr) as [_ [auth [Hauth ->]]].
  destruct (client_after_this w this pre) as [token Hc]. rewrite Hc in Hauth.
  exists token, (Date_now w pre), auth.
  destruct (getAuthHeaders_shape _ _ _ Hauth) as [Hcred Hlen].
  repeat split; [exact Hauth|exact Hlen|].
  intro Hclean. cbn [fo_headers fetchOptions_of]. unfold compose_headers.
  rewrite credential_spread by exact Hclean. exact Hcred.
Qed.

End Wire.

(** ** Query parameters *)

Section Query.

Lemma named_without_same (name : string) (l : list (string * string)) :
  params_named name (params_without name l) = [].
Proof.
  unfold params_named, params_without.
  induction l as [|[n v] l IH]; cbn [filter fst]; [reflexivity|].
  destruct (n =? name)%string eqn:E; cbn [negb filter fst]; [exact IH|].
  rewrite E. exact IH.
Qed.

Lemma named_without_other (key name : string) (l : list (string * string)) :
  key <> name ->
  params_named key (params_without name l) = params_named key l.
Proof.
  intro Hne. unfold params_named, params_without.
  induction l as [|[n v] l IH]; cbn [filter fst]; [reflexivity|].
  destruct (n =? name)%string eqn:E; cbn [negb filter fst].
  - apply String.eqb_eq in E. subst n.
    assert (Hk : (name =? key)%string = false)
      by (apply String.eqb_neq; congruence).
    rewrite Hk. exact IH.
  - rewrite IH. reflexivity.
Qed.

Lemma params_named_cons (key n v : string) (l : list (string * string)) :
  params_named key ((n, v) :: l) =
  if (n =? key)%string then (n, v) :: params_named key l else params_named key l.
Proof. reflexivity. Qed.

(** [set] leaves exactly one tuple for its name and touches no other. *)
Lemma named_params_set (key name value : string) (l : list (string * string)) :
  params_named key (params_set name value l) =
  if (name =? key)%string then [(name, value)] else params_named key l.
Proof.
  induction l as [|[n v] l IH]; cbn [params_set].
  - rewrite params_named_cons. destruct (name =? key)%string; reflexivity.
  - destruct (n =? name)%string eqn:E.
    + apply String.eqb_eq in E. subst n. rewrite !params_named_cons.
      destruct (name =? key)%string eqn:K.
      * apply String.eqb_eq in K. subst key.
        rewrite named_without_same. reflexivity.
      * apply named_without_other. apply String.eqb_neq in K. congruence.
    + rewrite !params_named_cons, IH.
      destruct (name =? key)%string eqn:K; [|reflexivity].
      apply String.eqb_eq in K. subst key. rewrite E. reflexivity.
Qed.

Lemma named_set_param (key : string) (u : URL) (entry : string * ParamValue) :
  params_named key (searchParams (set_param u entry)) =
  match written key [entry] with
  | [] => params_named key (searchParams u)
  | value :: _ => [(key, value)]
  end.
Proof.
  destruct entry as [name v]. unfold set_param, written.
  cbn [flat_map fst snd app].
  destruct v as [s|n|b|]; cbn [searchParams_set searchParams];
    try rewrite named_params_set;
    try (destruct (name =? key)%string eqn:K; cbn [app];
         [apply String.eqb_eq in K; subst key|]; reflexivity).
Qed.

Lemma written_cons (key : string) (entry : string * ParamValue)
  (entries : list (string * ParamValue)) :
  written key (entry :: entries) = written key [entry] ++ written key entries.
Proof. unfold written. cbn [flat_map]. rewrite app_nil_r. reflexivity. Qed.

Lemma written_single (key : string) (entry : string * ParamValue) :
  written key [entry] = [] \/ exists value, written key [entry] = [value].
Proof.
  unfold written. cbn [flat_map]. rewrite app_nil_r.
  destruct (snd entry); try (destruct (fst entry =? key)%string); eauto.
Qed.

(** After the loop of [buildUrl], a key has the tuples the path gave it
    when no defined value was written to it, and otherwise one tuple with
    the last value written. *)
Lemma named_fold_set_param (key : string) (entries : list (string * ParamValue)) :
  forall u,
    params_named key (searchParams (fold_left set_param entries u)) =
    match written key entries with
    | [] => params_named key (searchParams u)
    | value :: values => [(key, last (value :: values) "")]
    end.
Proof.
  induction entries as [|entry entries IH]; intro u; [reflexivity|].
  cbn [fold_left]. rewrite IH, written_cons, named_set_param.
  destruct (written_single key entry) as [->|[x ->]]; cbn [app].
  - reflexivity.
  - destruct (written key entries) as [|v vs]; reflexivity.
Qed.

Lemma serialize_nonempty (l : list (string * string)) :
  l <> [] -> (urlencoded_serialize l =? "")%string = false.
Proof.
  intro H. apply String.eqb_neq. destruct l as [|[n v] l]; [contradiction|].
  unfold urlencoded_serialize. cbn [map fst snd String.concat].
  destruct (map _ l); destruct (urlencoded_string n); discriminate.
Qed.

Lemma params_set_nonempty (name value : string) (l : list (string * string)) :
  params_set name value l <> [].
Proof.
  destruct l as [|[n v] l]; cbn [params_set]; [discriminate|].
  destruct (n =? name)%string; discriminate.
Qed.

Lemma searchParams_set_sync (name value : string) (u : URL) :
  query_in_sync (searchParams_set name value u).
Proof.
  unfold query_in_sync, searchParams_set. cbn [url_query searchParams].
  rewrite serialize_nonempty by apply params_set_nonempty. reflexivity.
Qed.

Lemma fold_set_param_sync (entries : list (string * ParamValue)) :
  forall u,
    (query_in_sync u \/ defined_entries entries <> []) ->
    query_in_sync (fold_left set_param entries u).
Proof.
  induction entries as [|[name v] entries IH]; intros u H.
  - destruct H as [H|H]; [exact H|contradiction].
  - cbn [fold_left]. apply IH.
    destruct v; try (left; apply searchParams_set_sync).
    cbn [set_param snd]. exact H.
Qed.

Lemma fold_set_param_untouched (entries : list (string * ParamValue)) :
  forall u, defined_entries entries = [] -> fold_left set_param entries u = u.
Proof.
  induction entries as [|[name v] entries IH]; intros u H; [reflexivity|].
  cbn [fold_left]. destruct v; try discriminate. apply IH, H.
Qed.

Lemma fold_set_param_frame (entries : list (string * ParamValue)) :
  forall u,
    url_front (fold_left set_param entries u) = url_front u /\
    url_fragment (fold_left set_param entries u) = url_fragment u.
Proof.
  induction entries as [|[name v] entries IH]; intro u; [auto|].
  cbn [fold_left]. destruct (IH (set_param u (name, v))) as [-> ->].
  destruct v; auto.
Qed.

Lemma written_unique (key : string) (value : ParamValue)
  (entries : list (string * ParamValue)) :
  NoDup (map fst entries) ->
  In (key, value) entries ->
  written key entries =
  match value with PUndefined => [] | _ => [String_of value] end.
Proof.
  induction entries as [|[k v] entries IH]; intros Hnd Hin; [destruct Hin|].
  cbn [map fst] in Hnd. inversion Hnd as [|? ? Hnotin Hnd']. subst.
  rewrite written_cons. destruct Hin as [Heq|Hin].
  - injection Heq as -> ->.
    assert (Hrest : written key entries = []).
    { clear - Hnotin. induction entries as [|[k' v'] entries IH]; [reflexivity|].
      rewrite written_cons. rewrite IH by (intro; apply Hnotin; right; assumption).
      unfold written. cbn [flat_map fst snd].
      assert (Hk : (k' =? key)%string = false).
      { apply String.eqb_neq. intro. subst. apply Hnotin. left. reflexivity. }
      rewrite Hk. destruct v'; reflexivity. }
    rewrite Hrest. unfold written. cbn [flat_map fst snd].
    rewrite String.eqb_refl. destruct value; reflexivity.
  - rewrite (IH Hnd' Hin).
    assert (Hk : (k =? key)%string = false).
    { apply String.eqb_neq. intro. subst. apply Hnotin.
      apply (in_map fst) in Hin. exact Hin. }
    unfold written. cbn [flat_map fst snd]. rewrite Hk.
    destruct v; reflexivity.
Qed.

Variable P : Platform.

(** C8.  When the path resolves, [buildUrl] answers the href of a
    [URL] in which, for the entries of the parameter map (whose keys are
    distinct, as those of an object are): an entry holding [undefined]
    writes nothing, so that its key has only the tuples the path itself
    carried, none when the path carried none; every other entry has exactly
    one tuple, holding [String(value)]; and, whatever the entries, the last
    defined value written to a key wins.  Once a value has been written the
    query of the URL is the serialisation of that list, and with nothing to
    write the URL is left as parsed.  Every transport call of
    [get(path, params)] is made on that href. *)
Theorem buildUrl_query (this : ApiClient) (path : string)
  (params : option (list (string * ParamValue))) (u : URL) :
  URL_new P path (endpoint this) = Some u ->
  let entries := nullish params [] in
  let built := buildUrl_object u params in
  buildUrl P this path params = Normal (URL_toString built)
  /\ (forall key value,
        NoDup (map fst entries) -> In (key, value) entries ->
        params_named key (searchParams built) =
        match value with
        | PUndefined => params_named key (searchParams u)
        | _ => [(key, String_of value)]
        end)
  /\ (forall key,
        params_named key (searchParams built) =
        match written key entries with
        | [] => params_named key (searchParams u)
        | value :: values => [(key, last (value :: values) "")]
        end)
  /\ (defined_entries entries = [] -> built = u)
  /\ (defined_entries entries <> [] ->
      url_query built = Some (urlencoded_serialize (searchParams built)) /\
      url_front built = url_front u /\ url_fragment built = url_fragment u)
  /\ (forall w outcome s url init,
        get P w this path params = Some (outcome, s) ->
        In (url, init) (fetches (trace s)) ->
        url = URL_toString built).
Proof.
  intros Hu entries built.
  assert (Hbuild : buildUrl P this path params = Normal (URL_toString built))
    by (unfold buildUrl; rewrite Hu; reflexivity).
  assert (Hget : forall w outcome s url init,
             get P w this path params = Some (outcome, s) ->
             In (url, init) (fetches (trace s)) ->
             url = URL_toString built).
  { intros w outcome s url init Hreq Hin.
    destruct (fetches_In _ _ _ Hin) as [pre [post Htr]].
    exact (proj1 (request_calls_url P w this path _ outcome s _ Hreq Hbuild
                    _ _ _ _ Htr)). }
  assert (Hb : built = fold_left set_param entries u)
    by (unfold built, entries, buildUrl_object; destruct params; reflexivity).
  split; [unfold buildUrl; rewrite Hu; reflexivity|].
  split.
  { intros key value Hnd Hin. rewrite Hb, named_fold_set_param.
    rewrite (written_unique _ _ _ Hnd Hin). destruct value; reflexivity. }
  split; [intro key; rewrite Hb; apply named_fold_set_param|].
  split; [intro H; rewrite Hb; apply fold_set_param_untouched, H|].
  split; [|exact Hget].
  intro H. rewrite Hb. split.
  - apply fold_set_param_sync. right. exact H.
  - apply fold_set_param_frame.
Qed.

End Query.

(** ** Empty strings are absent credentials *)

Section EmptyCredentials.

Variable P : Platform.
Variable w : World.

Lemma js_or_empty (b : option string) : js_or (Some "") b = js_or None b.
Proof. reflexivity. Qed.

Lemma getAuthHeaders_empty_bearer (this : ApiClient) (now : Z) :
  getAuthHeaders P (setBearerToken "" this) now =
  getAuthHeaders P (with_bearer None this) now.
Proof. reflexivity. Qed.

(** C10.  An empty string counts as an absent credential.  In the
    constructor an explicit empty string for [endpoint], [bearerToken],
    [apiKey], [userId] or [secret] resolves as the missing field does, to
    the environment variable: with an empty [endpoint] and a non-empty
    [ENTROLYTICS_API_ENDPOINT] the client is constructed on the value of
    the variable, and without such a value the missing-endpoint error is
    thrown; and in a constructed client each credential field given as the
    empty string holds what [process.env] holds under the variable of the
    field ([undefined] where there is no [process.env]).  A client whose
    bearer token was set to the empty string derives the headers of the
    client without a bearer token: no [Authorization] header, but the API
    key header when there is an API key, and the legacy derivation
    otherwise; and an attempt made after [setBearerToken("")] was called
    during a suspension of the request sends those headers.  For every
    credential field of the client an empty string derives the headers
    that the missing field derives. *)
Theorem empty_credential_is_absent (rt : Runtime) (this : ApiClient) (now : Z) :
  (forall e b k u s f n d,
     ApiClient_new rt (mkConfig (Some "") b k u s f n d) =
       ApiClient_new rt (mkConfig None b k u s f n d)
     /\ ApiClient_new rt (mkConfig e (Some "") k u s f n d) =
          ApiClient_new rt (mkConfig e None k u s f n d)
     /\ ApiClient_new rt (mkConfig e b (Some "") u s f n d) =
          ApiClient_new rt (mkConfig e b None u s f n d)
     /\ ApiClient_new rt (mkConfig e b k (Some "") s f n d) =
          ApiClient_new rt (mkConfig e b k None s f n d)
     /\ ApiClient_new rt (mkConfig e b k u (Some "") f n d) =
          ApiClient_new rt (mkConfig e b k u None f n d))
  /\ (forall b k u s f n d,
        truthy (getEnv rt "ENTROLYTICS_API_ENDPOINT") = false ->
        ApiClient_new rt (mkConfig (Some "") b k u s f n d) =
          Throw (ThrownError endpoint_required))
  /\ (forall env value b k u s f n d,
        process_env rt = Some env ->
        env "ENTROLYTICS_API_ENDPOINT" = Some value -> value <> "" ->
        exists built,
          ApiClient_new rt (mkConfig (Some "") b k u s f n d) = Normal built /\
          endpoint built = value)
  /\ (forall env config built,
        process_env rt = Some env ->
        ApiClient_new rt config = Normal built ->
        (cfg_bearerToken config = Some "" ->
         bearerToken built = env "ENTROLYTICS_BEARER_TOKEN") /\
        (cfg_apiKey config = Some "" ->
         apiKey built = env "ENTROLYTICS_API_KEY") /\
        (cfg_userId config = Some "" ->
         userId built = env "ENTROLYTICS_USER_ID") /\
        (cfg_secret config = Some "" ->
         secret built = env "ENTROLYTICS_SECRET"))
  /\ (forall config built,
        process_env rt = None ->
        ApiClient_new rt config = Normal built ->
        (cfg_bearerToken config = Some "" -> bearerToken built = None) /\
        (cfg_apiKey config = Some "" -> apiKey built = None) /\
        (cfg_userId config = Some "" -> userId built = None) /\
        (cfg_secret config = Some "" -> secret built = None))
  /\ getAuthHeaders P (setBearerToken "" this) now =
       getAuthHeaders P (with_bearer None this) now
  /\ (forall auth,
        getAuthHeaders P (setBearerToken "" this) now = Normal auth ->
        obj_get "Authorization" auth = None)
  /\ (truthy (apiKey this) = true ->
      getAuthHeaders P (setBearerToken "" this) now =
        Normal [("x-entrolytics-api-key", nullish (apiKey this) "")])
  /\ (truthy (apiKey this) = false ->
      truthy (userId this) && truthy (secret this) = true ->
      getAuthHeaders P (setBearerToken "" this) now =
        match createShareToken P this now with
        | Normal token => Normal [("x-entrolytics-share-token", token)]
        | Throw e => Throw e
        end)
  /\ (forall path o outcome s pre url init post,
        request P w this path o = Some (outcome, s) ->
        trace s = pre ++ EvFetch url init :: post ->
        pre <> [] -> refreshed w pre = Some "" ->
        exists auth,
          getAuthHeaders P (with_bearer None this) (Date_now w pre) = Normal auth /\
          fo_headers init = compose_headers auth (opt_headers o))
  /\ (forall e b k u s f n d,
        getAuthHeaders P (mkClient e (Some "") k u s f n d) now =
          getAuthHeaders P (mkClient e None k u s f n d) now
        /\ getAuthHeaders P (mkClient e b (Some "") u s f n d) now =
             getAuthHeaders P (mkClient e b None u s f n d) now
        /\ getAuthHeaders P (mkClient e b k (Some "") s f n d) now =
             getAuthHeaders P (mkClient e b k None s f n d) now
        /\ getAuthHeaders P (mkClient e b k u (Some "") f n d) now =
             getAuthHeaders P (mkClient e b k u None f n d) now).
Proof.
  split; [intros; repeat split; reflexivity|].
  split.
  { intros b k u s f n d He. unfold ApiClient_new. cbn [cfg_endpoint endpoint].
    rewrite js_or_empty. unfold js_or at 2. cbn [truthy].
    unfold js_or. rewrite He. reflexivity. }
  split.
  { intros env value b k u s f n d Henv Hvalue Hne.
    unfold ApiClient_new, getEnv. rewrite Henv, Hvalue.
    cbn [cfg_endpoint endpoint]. rewrite js_or_empty.
    apply String.eqb_neq in Hne.
    unfold js_or. cbn [truthy]. rewrite Hne. cbn [negb nullish]. rewrite Hne.
    eexists. split; reflexivity. }
  split.
  { intros env config built Henv Hnew.
    unfold ApiClient_new, getEnv in Hnew. rewrite Henv in Hnew.
    destruct (String.eqb _ _) in Hnew; [discriminate|].
    injection Hnew as <-.
    cbn [bearerToken apiKey userId secret].
    repeat split; intros ->; reflexivity. }
  split.
  { intros config built Henv Hnew.
    unfold ApiClient_new, getEnv in Hnew. rewrite Henv in Hnew.
    destruct (String.eqb _ _) in Hnew; [discriminate|].
    injection Hnew as <-.
    cbn [bearerToken apiKey userId secret].
    repeat split; intros ->; reflexivity. }
  split; [reflexivity|].
  split.
  { rewrite getAuthHeaders_empty_bearer. unfold getAuthHeaders.
    cbn [with_bearer bearerToken apiKey userId secret truthy].
    intros auth H.
    destruct (truthy (apiKey this)); [injection H as <-; reflexivity|].
    destruct (truthy (userId this) && truthy (secret this)).
    - destruct (createShareToken P _ now); [injection H as <-; reflexivity|discriminate].
    - injection H as <-. reflexivity. }
  split.
  { intro Hk.
    exact (getAuthHeaders_apiKey P (setBearerToken "" this) now eq_refl Hk). }
  split.
  { intros Hk Hl. unfold getAuthHeaders.
    cbn [setBearerToken bearerToken apiKey userId secret truthy String.eqb negb].
    rewrite Hk, Hl. reflexivity. }
  split.
  2:{ intros e b k u s f n d. unfold getAuthHeaders.
      cbn [bearerToken apiKey userId secret].
      repeat split;
        destruct (truthy b); try reflexivity;
        destruct (truthy k); try reflexivity;
        destruct (truthy u); reflexivity. }
  intros path o outcome s pre url init post Hreq Htr Hpre Href.
  destruct (request_calls_fresh _ _ _ _ _ _ _ Hreq) as [url0 Hfresh].
  destruct (Hfresh _ _ _ _ Htr) as [_ [auth [Hauth ->]]].
  exists auth. split; [|reflexivity].
  destruct (@exists_last _ pre Hpre) as [pre' [e Hp]].
  rewrite Hp in Hauth, Href. rewrite client_after_snoc, Href in Hauth.
  destruct (client_after_this w this pre') as [t Ht]. rewrite Ht in Hauth.
  rewrite <- Hp in Hauth. exact Hauth.
Qed.

End EmptyCredentials.

(** ** Runs of the retry loop *)

Section Runs.

Variable P : Platform.
Variable w : World.
Variable this : ApiClient.
Variable o : RequestOptions.
Variable url : string.
Variable f : Transport.

Hypothesis Hderiv : headers_derivable P this.
Hypothesis Hf : fetchFn this = Some f.

(** An attempt of [this] reaches the transport. *)
Lemma try_block_reached (n : Z) (s : State) (t : option string) :
  this_ s = with_bearer t this ->
  exists auth,
    let init := fetchOptions_of o auth in
    let s1 := suspend w (EvFetch url init) s in
    (exists t1, this_ s1 = with_bearer t1 this) /\
    try_block P w url o n s =
    match f (trace s) url init with
    | Rejects e => (Throw e, s1)
    | Responds r =>
        if Response_ok r then
          (Normal (Return {| ok := true; resp_status := status r;
                             data := Some (nullish (json r) (JObject []));
                             error := None |}), s1)
        else
          match errorMessage (nullish (json r) (JObject [])) (status r) with
          | Throw e => (Throw e, s1)
          | Normal message =>
              if isRetryable (status r) && (n <? retries this)
              then (Normal (Continue (failure (status r) message)),
                    suspend w (EvSleep (retryDelay this * 2 ^ n)) s1)
              else (Normal (Return (failure (status r) message)), s1)
          end
    end.
Proof.
  intro Hs. destruct (Hderiv t (Date_now w (trace s))) as [auth Ha].
  exists auth. cbv zeta.
  destruct (suspend_this w (EvFetch url (fetchOptions_of o auth)) s) as [t1 Ht1].
  rewrite Hs, with_bearer_again in Ht1.
  split; [exists t1; exact Ht1|].
  rewrite try_block_cases, Hs, Ha. cbv zeta.
  cbn [fetchFn with_bearer]. rewrite Hf, Ht1. reflexivity.
Qed.

Lemma request_loop_S (fuel : nat) (n : Z) (lastError : option ApiResponse)
  (s : State) :
  request_loop P w (S fuel) url o n lastError s =
  if n <=? retries (this_ s) then
    match try_block P w url o n s with
    | (Normal (Return r), s') => Some (r, s')
    | (Normal (Continue e), s') =>
        request_loop P w fuel url o (n + 1) (Some e) s'
    | (Throw err, s') =>
        let '(e, s'') := catch_block w err n s' in
        request_loop P w fuel url o (n + 1) (Some e) s''
    end
  else Some (nullish lastError exhausted, s).
Proof. reflexivity. Qed.

(** An attempt whose answer ends the call. *)
Lemma iteration_terminal (fuel : nat) (n : Z) (lastError : option ApiResponse)
  (s : State) (t : option string) :
  this_ s = with_bearer t this ->
  n <= retries this ->
  (forall init, terminal (f (trace s) url init)) ->
  exists init,
    request_loop P w (S fuel) url o n lastError s =
    Some (envelope_of (f (trace s) url init), suspend w (EvFetch url init) s).
Proof.
  intros Hs Hn Hterm.
  destruct (try_block_reached n s t Hs) as [auth [_ Htry]]. cbv zeta in Htry.
  exists (fetchOptions_of o auth).
  rewrite request_loop_S, Hs. cbn [retries with_bearer].
  apply Z.leb_le in Hn. rewrite Hn, Htry.
  specialize (Hterm (fetchOptions_of o auth)). unfold envelope_of.
  destruct (f (trace s) url (fetchOptions_of o auth)) as [r|e]; [|destruct Hterm].
  cbn [terminal] in Hterm. cbv zeta.
  destruct Hterm as [Hok|[Hok [Hret [m Hm]]]]; rewrite Hok; [reflexivity|].
  rewrite Hm, Hret. reflexivity.
Qed.

(** An attempt whose answer is retried: the loop goes on after the
    backoff sleep when attempts remain, and ends on the last attempt. *)
Lemma iteration_retried (fuel : nat) (n : Z) (lastError : option ApiResponse)
  (s : State) (t : option string) :
  this_ s = with_bearer t this ->
  n <= retries this ->
  (forall init, retried (f (trace s) url init)) ->
  exists init,
    let out := f (trace s) url init in
    let s1 := suspend w (EvFetch url init) s in
    let s2 := suspend w (EvSleep (retryDelay this * 2 ^ n)) s1 in
    (exists t2, this_ s2 = with_bearer t2 this) /\
    (n < retries this ->
     request_loop P w (S fuel) url o n lastError s =
     request_loop P w fuel url o (n + 1) (Some (envelope_of out)) s2) /\
    (n = retries this ->
     request_loop P w (S (S fuel)) url o n lastError s =
     Some (envelope_of out, s1)).
Proof.
  intros Hs Hn Hret.
  destruct (try_block_reached n s t Hs) as [auth [[t1 Ht1] Htry]].
  cbv zeta in Htry, Ht1.
  exists (fetchOptions_of o auth). cbv zeta.
  specialize (Hret (fetchOptions_of o auth)).
  set (s1 := suspend w (EvFetch url (fetchOptions_of o auth)) s) in *.
  set (s2 := suspend w (EvSleep (retryDelay this * 2 ^ n)) s1).
  assert (Ht2 : exists t2, this_ s2 = with_bearer t2 this).
  { destruct (suspend_this w (EvSleep (retryDelay this * 2 ^ n)) s1) as [t2 Ht2].
    exists t2. fold s2 in Ht2. rewrite Ht2, Ht1. apply with_bearer_again. }
  split; [exact Ht2|].
  assert (Hle : (n <=? retries (this_ s)) = true)
    by (rewrite Hs; apply Z.leb_le; exact Hn).
  assert (Hcatch : forall e,
             catch_block w e n s1 =
             if n <? retries this then (failure 0 (thrown_message e), s2)
             else (failure 0 (thrown_message e), s1)).
  { intro e. unfold catch_block. rewrite Ht1. cbn [retries retryDelay with_bearer].
    reflexivity. }
  split.
  - intro Hlt. apply Z.ltb_lt in Hlt.
    rewrite request_loop_S, Hle, Htry. unfold envelope_of.
    destruct (f (trace s) url (fetchOptions_of o auth)) as [r|e].
    + cbn [retried] in Hret. destruct Hret as [Hok Hwhy]. rewrite Hok. cbv zeta.
      destruct (errorMessage _ (status r)) as [m|e] eqn:Hm.
      * destruct Hwhy as [Hr|[e He]]; [|discriminate].
        rewrite Hr, Hlt. reflexivity.
      * rewrite Hcatch, Hlt. reflexivity.
    + rewrite Hcatch, Hlt. reflexivity.
  - intro Heq.
    assert (Hlt : (n <? retries this) = false) by (apply Z.ltb_ge; lia).
    assert (Hout : forall e, request_loop P w (S fuel) url o (n + 1) (Some e) s1
                             = Some (e, s1)).
    { intro e. rewrite request_loop_S, Ht1. cbn [retries with_bearer].
      assert (Hgt : (n + 1 <=? retries this) = false) by (apply Z.leb_gt; lia).
      rewrite Hgt. reflexivity. }
    rewrite request_loop_S, Hle, Htry. unfold envelope_of.
    destruct (f (trace s) url (fetchOptions_of o auth)) as [r|e].
    + cbn [retried] in Hret. destruct Hret as [Hok _]. rewrite Hok. cbv zeta.
      destruct (errorMessage _ (status r)) as [m|e] eqn:Hm.
      * rewrite Hlt, andb_false_r. reflexivity.
      * rewrite Hcatch, Hlt. apply Hout.
    + rewrite Hcatch, Hlt. apply Hout.
Qed.

(** When every answer is retried, the loop makes each of the attempts
    left, sleeps between them, and returns what the last attempt recorded. *)
Lemma loop_exhausts (k : nat) :
  forall n fuel lastError s t,
    this_ s = with_bearer t this ->
    retries this = n + Z.of_nat k ->
    (S k < fuel)%nat ->
    (forall tr init, retried (f tr url init)) ->
    exists tr pre init s',
      request_loop P w fuel url o n lastError s =
        Some (envelope_of (f pre url init), s') /\
      trace s' = trace s ++ tr /\
      backoff_run url (retryDelay this) n (S k) tr /\
      trace s' = pre ++ [EvFetch url init].
Proof.
  induction k as [|k IH]; intros n fuel lastError s t Hs Hk Hfuel Hret.
  - destruct fuel as [|[|fuel]]; try lia.
    destruct (iteration_retried fuel n lastError s t Hs) as [init [_ [_ Hlast]]];
      [lia|intro; apply Hret|].
    cbv zeta in Hlast.
    exists [EvFetch url init], (trace s), init, (suspend w (EvFetch url init) s).
    split; [apply Hlast; lia|].
    repeat split. apply run_last.
  - destruct fuel as [|fuel]; try lia.
    destruct (iteration_retried fuel n lastError s t Hs)
      as [init [[t2 Ht2] [Hmore _]]]; [lia|intro; apply Hret|].
    cbv zeta in Hmore, Ht2.
    rewrite Hmore by lia.
    destruct (IH (n + 1) fuel (Some (envelope_of (f (trace s) url init))) _ t2 Ht2)
      as [tr [pre [init' [s' [Hloop [Htr [Hrun Hlast]]]]]]]; [lia|lia|exact Hret|].
    exists (EvFetch url init :: EvSleep (retryDelay this * 2 ^ n) :: tr),
      pre, init', s'.
    split; [exact Hloop|]. split; [|split; [apply run_more, Hrun|exact Hlast]].
    rewrite Htr, !suspend_trace, <- !app_assoc. reflexivity.
Qed.

Variable path : string.
Hypothesis Hurl : buildUrl P this path (opt_params o) = Normal url.

(** A call whose first answer is terminal makes one attempt. *)
Lemma request_terminal :
  0 <= retries this ->
  (forall init, terminal (f [] url init)) ->
  exists init s,
    request P w this path o = Some (Normal (envelope_of (f [] url init)), s) /\
    trace s = [EvFetch url init].
Proof.
  intros Hn Hterm. unfold request. rewrite Hurl.
  destruct (iteration_terminal (Z.to_nat (retries this + 1)) 0 None
              {| this_ := this; trace := [] |} (bearerToken this))
    as [init Hloop];
    [symmetry; apply with_bearer_self|exact Hn|exact Hterm|].
  rewrite Hloop. exists init. eexists. split; reflexivity.
Qed.

(** A call all of whose answers are retried makes [retries + 1]
    attempts, sleeps [retryDelay * 2 ^ k] after attempt [k] when another
    follows, and resolves to what the last attempt recorded. *)
Lemma request_exhausts :
  0 <= retries this ->
  (forall tr init, retried (f tr url init)) ->
  exists pre init s,
    request P w this path o = Some (Normal (envelope_of (f pre url init)), s) /\
    trace s = pre ++ [EvFetch url init] /\
    backoff_run url (retryDelay this) 0 (Z.to_nat (retries this + 1)) (trace s).
Proof.
  intros Hn Hret. unfold request. rewrite Hurl.
  destruct (loop_exhausts (Z.to_nat (retries this)) 0
              (S (Z.to_nat (retries this + 1))) None
              {| this_ := this; trace := [] |} (bearerToken this))
    as [tr [pre [init [s' [Hloop [Htr [Hrun Hlast]]]]]]];
    [symmetry; apply with_bearer_self|lia|lia|exact Hret|].
  rewrite Hloop. exists pre, init, s'. split; [reflexivity|].
  split; [exact Hlast|].
  cbn [trace app] in Htr. rewrite Htr.
  replace (Z.to_nat (retries this + 1)) with (S (Z.to_nat (retries this))) by lia.
  exact Hrun.
Qed.

End Runs.

(** ** The retry policy on particular transports *)

Lemma backoff_run_two (url : string) (d n : Z) (tr : Trace) :
  backoff_run url d n 2 tr ->
  exists i1 i2, tr = [EvFetch url i1; EvSleep (d * 2 ^ n); EvFetch url i2].
Proof.
  intro H. inversion H as [|? ? i1 tr1 H1]; subst.
  inversion H1; subst. eauto.
Qed.

Lemma backoff_run_three (url : string) (d n : Z) (tr : Trace) :
  backoff_run url d n 3 tr ->
  exists i1 i2 i3,
    tr = [EvFetch url i1; EvSleep (d * 2 ^ n);
          EvFetch url i2; EvSleep (d * 2 ^ (n + 1)); EvFetch url i3].
Proof.
  intro H. inversion H as [|? ? i1 tr1 H1]; subst.
  destruct (backoff_run_two _ _ _ _ H1) as [i2 [i3 ->]]. eauto.
Qed.

Lemma isRetryable_spec (status : Z) :
  isRetryable status = true <-> status = 0 \/ status = 429 \/ 500 <= status.
Proof.
  unfold isRetryable. rewrite !orb_true_iff, !Z.eqb_eq, Z.leb_le. tauto.
Qed.

(** The message of a failed response whose body is an object, or is not
    JSON at all (so that [data] is the empty object). *)
Lemma errorMessage_object (props : list (string * JSValue)) (status : Z) :
  errorMessage (JObject props) status =
  Normal match obj_get "error" props with
         | Some (JString s) => s
         | _ =>
             match obj_get "message" props with
             | Some (JString s) => s
             | _ => ("HTTP " ++ Number_toString status)%string
             end
         end.
Proof.
  unfold errorMessage. cbn [GetV].
  destruct (obj_get "error" props) as [[| | | |s| |]|]; cbn [nullish];
    try reflexivity;
    destruct (obj_get "message" props) as [[| | | |s'| |]|]; reflexivity.
Qed.

(** On a body that is JSON [null] the derivation of the message throws. *)
Lemma errorMessage_null (status : Z) :
  errorMessage JNull status = Throw (ThrownError (null_property_message "error")).
Proof. reflexivity. Qed.

(** A failed response whose status is not retryable and whose message
    can be derived ends the call at the first attempt. *)
Lemma terminal_status_one_attempt (P : Platform) (w : World) (this : ApiClient)
  (path : string) (o : RequestOptions) (url : string) (f : Transport)
  (r : Response) (m : string) :
  buildUrl P this path (opt_params o) = Normal url ->
  headers_derivable P this ->
  fetchFn this = Some f ->
  0 <= retries this ->
  (forall init, f [] url init = Responds r) ->
  Response_ok r = false ->
  isRetryable (status r) = false ->
  errorMessage (nullish (json r) (JObject [])) (status r) = Normal m ->
  exists init s,
    request P w this path o = Some (Normal (failure (status r) m), s) /\
    trace s = [EvFetch url init].
Proof.
  intros Hurl Hd Hf Hn Hr Hok Hret Hm.
  destruct (request_terminal P w this o url f Hd Hf path Hurl Hn) as [init [s [Hreq Htr]]].
  { intro init. rewrite Hr. cbn [terminal]. right. eauto. }
  exists init, s. split; [|exact Htr].
  rewrite Hreq, Hr. unfold envelope_of. rewrite Hok, Hm. reflexivity.
Qed.

(** Status 404 with body [{"message":"not found"}]: one attempt, and
    the message of the body. *)
Lemma not_found_one_attempt (P : Platform) (w : World) (this : ApiClient)
  (path : string) (o : RequestOptions) (url : string) (f : Transport) :
  buildUrl P this path (opt_params o) = Normal url ->
  headers_derivable P this ->
  fetchFn this = Some f ->
  0 <= retries this ->
  (forall init,
     f [] url init =
     Responds (mkResponse 404 (Some (JObject [("message", JString "not found")])))) ->
  exists init s,
    request P w this path o = Some (Normal (failure 404 "not found"), s) /\
    trace s = [EvFetch url init].
Proof.
  intros Hurl Hd Hf Hn Hr.
  exact (terminal_status_one_attempt P w this path o url f _ "not found"
           Hurl Hd Hf Hn Hr eq_refl eq_refl eq_refl).
Qed.

(** Status 503 on every attempt with [retries = 2], when the message of
    each response can be derived: three attempts, sleeps of [retryDelay]
    and [retryDelay * 2], and the failure with status 503. *)
Lemma unavailable_three_attempts (P : Platform) (w : World) (this : ApiClient)
  (path : string) (o : RequestOptions) (url : string) (f : Transport) :
  buildUrl P this path (opt_params o) = Normal url ->
  headers_derivable P this ->
  fetchFn this = Some f ->
  retries this = 2 ->
  (forall tr init, exists r m,
     f tr url init = Responds r /\ status r = 503 /\
     errorMessage (nullish (json r) (JObject [])) 503 = Normal m) ->
  exists i1 i2 i3 r m s,
    request P w this path o = Some (Normal (failure 503 m), s) /\
    trace s = [EvFetch url i1; EvSleep (retryDelay this);
               EvFetch url i2; EvSleep (retryDelay this * 2); EvFetch url i3] /\
    f [EvFetch url i1; EvSleep (retryDelay this);
       EvFetch url i2; EvSleep (retryDelay this * 2)] url i3 = Responds r /\
    errorMessage (nullish (json r) (JObject [])) 503 = Normal m.
Proof.
  intros Hurl Hd Hf Hn Hr.
  destruct (request_exhausts P w this o url f Hd Hf path Hurl)
    as [pre [init [s [Hreq [Hlast Hrun]]]]]; [lia| |].
  { intros tr init. destruct (Hr tr init) as [r [m [-> [Hs _]]]].
    cbn [retried]. unfold Response_ok, isRetryable. rewrite Hs. auto. }
  rewrite Hn in Hrun. change (Z.to_nat (2 + 1)) with 3%nat in Hrun.
  destruct (backoff_run_three _ _ _ _ Hrun) as [i1 [i2 [i3 Htr]]].
  rewrite Z.pow_0_r, Z.mul_1_r in Htr.
  change (2 ^ (0 + 1)) with 2 in Htr.
  rewrite Htr in Hlast.
  change [EvFetch url i1; EvSleep (retryDelay this); EvFetch url i2;
          EvSleep (retryDelay this * 2); EvFetch url i3]
    with ([EvFetch url i1; EvSleep (retryDelay this); EvFetch url i2;
           EvSleep (retryDelay this * 2)] ++ [EvFetch url i3]) in Hlast.
  apply app_inj_tail in Hlast. destruct Hlast as [<- Hi].
  injection Hi as <-.
  destruct (Hr [EvFetch url i1; EvSleep (retryDelay this); EvFetch url i2;
                EvSleep (retryDelay this * 2)] i3) as [r [m [Hf3 [Hs Hm]]]].
  exists i1, i2, i3, r, m, s.
  split; [|split; [exact Htr|split; [exact Hf3|exact Hm]]].
  rewrite Hreq, Hf3. unfold envelope_of, Response_ok. rewrite Hs, Hm. reflexivity.
Qed.

(** C5.  With [retries = 1] and a transport that throws on every call,
    a [request] that reaches the transport makes exactly two attempts,
    with one sleep of [retryDelay] between them, and resolves to a failure
    of status 0 without data whose [error] is decided by what the second
    attempt threw: the message of a thrown [Error], whatever that message
    is (the empty one included), and ["Network error"] for every thrown
    value that is not an [Error], whatever it carries. *)
Theorem transport_exception_two_attempts (P : Platform) (w : World)
  (this : ApiClient) (path : string) (o : RequestOptions) (url : string)
  (f : Transport) :
  buildUrl P this path (opt_params o) = Normal url ->
  headers_derivable P this ->
  fetchFn this = Some f ->
  retries this = 1 ->
  (forall tr init, exists e, f tr url init = Rejects e) ->
  exists i1 i2 e r s,
    request P w this path o = Some (Normal r, s) /\
    trace s = [EvFetch url i1; EvSleep (retryDelay this); EvFetch url i2] /\
    f [EvFetch url i1; EvSleep (retryDelay this)] url i2 = Rejects e /\
    ok r = false /\ resp_status r = 0 /\ data r = None /\
    (forall message, e = ThrownError message -> error r = Some message) /\
    (forall v, e = ThrownValue v -> error r = Some "Network error"%string).
Proof.
  intros Hurl Hd Hf Hn Hr.
  destruct (request_exhausts P w this o url f Hd Hf path Hurl)
    as [pre [init [s [Hreq [Hlast Hrun]]]]]; [lia| |].
  { intros tr init. destruct (Hr tr init) as [e ->]. exact I. }
  rewrite Hn in Hrun. change (Z.to_nat (1 + 1)) with 2%nat in Hrun.
  destruct (backoff_run_two _ _ _ _ Hrun) as [i1 [i2 Htr]].
  rewrite Z.pow_0_r, Z.mul_1_r in Htr.
  rewrite Htr in Hlast.
  change [EvFetch url i1; EvSleep (retryDelay this); EvFetch url i2]
    with ([EvFetch url i1; EvSleep (retryDelay this)] ++ [EvFetch url i2]) in Hlast.
  apply app_inj_tail in Hlast. destruct Hlast as [<- Hi].
  injection Hi as <-.
  destruct (Hr [EvFetch url i1; EvSleep (retryDelay this)] i2) as [e He].
  exists i1, i2, e, (failure 0 (thrown_message e)), s.
  split; [rewrite Hreq, He; reflexivity|].
  split; [exact Htr|]. split; [exact He|].
  repeat split; intros ? ->; reflexivity.
Qed.

(** C9.  When the transport answers a [request] that reaches it with a
    success status and a body that is not JSON, the call resolves at that
    first attempt, without a sleep or a second transport call, to
    [{ ok: true, status, data: {} }]; and at whatever attempt of the loop
    such an answer comes, the loop returns that envelope right after the
    transport call. *)
Theorem unparseable_success_body (P : Platform) (w : World) (this : ApiClient)
  (path : string) (o : RequestOptions) (url : string) (f : Transport)
  (r : Response) :
  buildUrl P this path (opt_params o) = Normal url ->
  headers_derivable P this ->
  fetchFn this = Some f ->
  0 <= retries this ->
  (forall init, f [] url init = Responds r) ->
  Response_ok r = true ->
  json r = None ->
  (exists init s,
     request P w this path o =
       Some (Normal {| ok := true; resp_status := status r;
                       data := Some (JObject []); error := None |}, s) /\
     trace s = [EvFetch url init])
  /\ (forall fuel attempt lastError s token,
        this_ s = with_bearer token this ->
        attempt <= retries this ->
        (forall init, f (trace s) url init = Responds r) ->
        exists init,
          request_loop P w (S fuel) url o attempt lastError s =
          Some ({| ok := true; resp_status := status r;
                   data := Some (JObject []); error := None |},
                suspend w (EvFetch url init) s)).
Proof.
  intros Hurl Hd Hf Hn Hr Hok Hjson.
  assert (Henv : envelope_of (Responds r) =
                 {| ok := true; resp_status := status r;
                    data := Some (JObject []); error := None |})
    by (unfold envelope_of; rewrite Hok, Hjson; reflexivity).
  split.
  - destruct (request_terminal P w this o url f Hd Hf path Hurl Hn)
      as [init [s [Hreq Htr]]].
    { intro init. rewrite Hr. cbn [terminal]. left. exact Hok. }
    exists init, s. split; [|exact Htr].
    rewrite Hreq, Hr, Henv. reflexivity.
  - intros fuel attempt lastError s token Hs Ha Hr'.
    destruct (iteration_terminal P w this o url f Hd Hf fuel attempt lastError s
                token Hs Ha) as [init Hloop].
    { intro init. rewrite Hr'. cbn [terminal]. left. exact Hok. }
    exists init. rewrite Hloop, Hr', Henv. reflexivity.
Qed.

(** * The properties at concrete inputs *)

Import Reference.

(** Where [Buffer] exists the share token can always be encoded. *)
Lemma headers_derivable_buffer (P : Platform) (this : ApiClient)
  (encode : string -> string) :
  Buffer_base64 P = Some encode -> headers_derivable P this.
Proof.
  intros Hb token now. unfold getAuthHeaders, createShareToken.
  cbn [with_bearer bearerToken apiKey userId secret].
  destruct (truthy token); [eauto|].
  destruct (truthy (apiKey this)); [eauto|].
  destruct (truthy (userId this)); destruct (truthy (secret this));
    cbn [andb negb orb]; rewrite ?Hb; eauto.
Qed.

Example users_url_built (this : ApiClient) :
  endpoint this = "https://analytics.example.com/api"%string ->
  buildUrl node this "/users" None = Normal users_url.
Proof. intro H. unfold buildUrl. rewrite H. reflexivity. Qed.



(** C2 at a failing input.  [retries = 2], and the server answers
    every attempt with status 503 and the JSON body [null]: reading
    [data.error] throws inside the [try] block, the [catch] block records
    a transport failure, and after three attempts with sleeps of
    [retryDelay] and [retryDelay * 2] the call resolves with status 0, not
    503. *)
Theorem unavailable_null_body_loses_status :
  exists s,
    request node quiet
      (client None (Some "key") None None (always (answer 503 (Some JNull))) 2 1000)
      "/users" no_options
    = Some (Normal {| ok := false; resp_status := 0; data := None;
                      error := Some null_body_message |}, s) /\
    List.length (fetches (trace s)) = 3%nat /\
    sleeps (trace s) = [1000; 2000].
Proof. eexists. split; [vm_compute; reflexivity|]. split; reflexivity. Qed.

(** C4 at a failing input.  The server answers status 404 with the
    JSON body [null]: the message is not derived as ["HTTP 404"], the
    response is retried as a transport failure until the attempts are
    exhausted (four of them with the default [retries = 3]), and the call
    resolves with status 0. *)
Theorem not_found_null_body_is_retried :
  exists this s,
    ApiClient_new bare
      (key_config "https://analytics.example.com/api" (always (answer 404 (Some JNull))))
      = Normal this /\
    request node quiet this "/users" no_options
    = Some (Normal {| ok := false; resp_status := 0; data := None;
                      error := Some null_body_message |}, s) /\
    List.length (fetches (trace s)) = 4%nat /\
    sleeps (trace s) = [1000; 2000; 4000] /\
    isRetryable 404 = false.
Proof.
  eexists. eexists. split; [reflexivity|].
  split; [vm_compute; reflexivity|]. repeat split; reflexivity.
Qed.

Lemma auth_priority_fresh_witness :
  getAuthHeaders node
    (client (Some "tok") (Some "key") (Some "user") (Some "pass")
       (always (answer 503 None)) 2 100) 0
  = Normal [("Authorization", "Bearer tok"%string)]
  /\ fo_headers (plain_get "Authorization" "Bearer new")
     = compose_headers [("Authorization", "Bearer new"%string)] None.
Proof.
  destruct (auth_priority_fresh node (refreshing "new")
              (client (Some "tok") (Some "key") (Some "user") (Some "pass")
                 (always (answer 503 None)) 2 100) 0
              eq_refl eq_refl eq_refl eq_refl) as [Hbearer [_ [_ Hfresh]]].
  split; [exact Hbearer|].
  refine (proj2 (Hfresh "/users"%string no_options _ _
                   [EvFetch users_url (plain_get "Authorization" "Bearer tok");
                    EvSleep 100]
                   users_url (plain_get "Authorization" "Bearer new")
                   [EvSleep 200;
                    EvFetch users_url (plain_get "Authorization" "Bearer new")]
                   _ _) "new"%string _ _ _).
  - vm_compute. reflexivity.
  - reflexivity.
  - discriminate.
  - reflexivity.
  - discriminate.
Defined.

(** C6 fails as stated: a body of [0] (or [false], or the empty
    string) is supplied by the caller and has a JSON text, and the
    transport call carries no body. *)
Lemma falsy_body_counterexample :
  exists outcome s init,
    post node quiet
      (client None (Some "key") None None (always (answer 200 None)) 3 1000)
      "/counters" (JNumber 0) = Some (outcome, s) /\
    fetches (trace s) = [("https://analytics.example.com/counters"%string, init)] /\
    JSON_stringify (JNumber 0) = Some "0"%string /\
    fo_body init = None /\
    ToBoolean (JBoolean false) = false /\ ToBoolean (JString "") = false.
Proof.
  eexists. eexists. eexists.
  split; [vm_compute; reflexivity|]. repeat split; reflexivity.
Qed.

Lemma body_attached_when_truthy_witness :
  exists text,
    JSON_stringify (JObject [("name", JString "a")]) = Some text /\
    fo_body {| fo_method := POST;
               fo_headers := [("Content-Type", "application/json");
                              ("x-entrolytics-api-key", "key")]%string;
               fo_body := JSON_stringify (JObject [("name", JString "a")]) |}
    = Some text.
Proof.
  refine (proj1 (body_attached_when_truthy node quiet
                   (client None (Some "key") None None (always (answer 200 None)) 3 1000)
                   "/counters" (CallPost (JObject [("name", JString "a")]))
                   _ _ "https://analytics.example.com/counters"%string _ _ _) _).
  - vm_compute. reflexivity.
  - left. reflexivity.
  - reflexivity.
Defined.

(** C7 fails as stated: a client without credentials sends no
    credential header at all, and a caller's override can add a second one
    to the one the engine derives. *)
Lemma credential_count_counterexample :
  (exists outcome s init,
     request node quiet
       (client None None None None (always (answer 200 None)) 3 1000)
       "/users" no_options = Some (outcome, s) /\
     fetches (trace s) = [(users_url, init)] /\
     credential_headers (fo_headers init) = [])
  /\ (exists outcome s init,
        request node quiet
          (client (Some "tok") None None None (always (answer 200 None)) 3 1000)
          "/users"
          {| opt_method := None; opt_body := JUndefined; opt_params := None;
             opt_headers := Some [("x-entrolytics-api-key", "other")]%string |}
        = Some (outcome, s) /\
        fetches (trace s) = [(users_url, init)] /\
        List.length (credential_headers (fo_headers init)) = 2%nat).
Proof.
  split; eexists; eexists; eexists;
    (split; [vm_compute; reflexivity|]); split; reflexivity.
Qed.

Lemma one_credential_header_at_most_witness :
  exists auth,
    List.length auth = 1%nat /\
    credential_headers (fo_headers (plain_get "x-entrolytics-api-key" "key")) = auth.
Proof.
  destruct (one_credential_header_at_most node quiet
              (client None (Some "key") None None (always (answer 200 None)) 3 1000)
              "/users" no_options
              (Normal {| ok := true; resp_status := 200;
                         data := Some (JObject []); error := None |})
              {| this_ := client None (Some "key") None None
                            (always (answer 200 None)) 3 1000;
                 trace := [EvFetch users_url
                             (plain_get "x-entrolytics-api-key" "key")] |}
              users_url (plain_get "x-entrolytics-api-key" "key"))
    as [token [now [auth [Hauth [Hheaders [Hlen Hclean]]]]]].
  - vm_compute. reflexivity.
  - left. reflexivity.
  - exists auth. split.
    + rewrite Hlen. unfold configured.
      cbn [with_bearer bearerToken apiKey client]. rewrite orb_true_r. reflexivity.
    + apply Hclean. constructor.
Defined.

(** C5 fails as stated: an [Error] thrown with an empty message
    carries no message, and the envelope holds that empty message, not
    ["Network error"]; an object that is not an [Error] carries the
    message ["boom"], and the envelope holds ["Network error"]. *)
Lemma exception_message_counterexample :
  (exists s,
     request node quiet
       (client None (Some "key") None None
          (always (Rejects (ThrownError ""))) 1 250)
       "/users" no_options
     = Some (Normal {| ok := false; resp_status := 0; data := None;
                       error := Some ""%string |}, s) /\
     List.length (fetches (trace s)) = 2%nat)
  /\ (exists s,
        GetV (JObject [("message", JString "boom")]) "message"
        = Normal (JString "boom") /\
        request node quiet
          (client None (Some "key") None None
             (always (Rejects (ThrownValue (JObject [("message", JString "boom")]))))
             1 250)
          "/users" no_options
        = Some (Normal {| ok := false; resp_status := 0; data := None;
                          error := Some "Network error"%string |}, s) /\
        List.length (fetches (trace s)) = 2%nat).
Proof.
  split; eexists; repeat split; vm_compute; reflexivity.
Qed.

Lemma transport_exception_two_attempts_witness :
  exists i1 i2 s,
    request node quiet
      (client None (Some "key") None None
         (always (Rejects (ThrownError "socket hang up"))) 1 250)
      "/users" no_options
    = Some (Normal {| ok := false; resp_status := 0; data := None;
                      error := Some "socket hang up"%string |}, s) /\
    trace s = [EvFetch users_url i1; EvSleep 250; EvFetch users_url i2].
Proof.
  destruct (transport_exception_two_attempts node quiet
              (client None (Some "key") None None
                 (always (Rejects (ThrownError "socket hang up"))) 1 250)
              "/users" no_options users_url
              (always (Rejects (ThrownError "socket hang up"))))
    as [i1 [i2 [e [r [s [Hreq [Htr [He [Hok [Hst [Hda [Hmsg _]]]]]]]]]]]].
  - apply users_url_built. reflexivity.
  - apply (headers_derivable_buffer node _ base64). reflexivity.
  - reflexivity.
  - reflexivity.
  - intros tr init. eexists. reflexivity.
  - exists i1, i2, s. split; [|exact Htr].
    rewrite Hreq. unfold always in He. injection He as <-.
    specialize (Hmsg "socket hang up"%string eq_refl).
    destruct r as [rok rst rda rer]. cbn in Hok, Hst, Hda, Hmsg.
    subst. reflexivity.
Defined.

Lemma unparseable_success_body_witness :
  exists init s,
    request node quiet
      (client None None (Some "user") (Some "pass") (always (answer 204 None)) 3 1000)
      "/users" no_options
    = Some (Normal {| ok := true; resp_status := 204;
                      data := Some (JObject []); error := None |}, s) /\
    trace s = [EvFetch users_url init].
Proof.
  refine (proj1 (unparseable_success_body node quiet
                   (client None None (Some "user") (Some "pass")
                      (always (answer 204 None)) 3 1000)
                   "/users" no_options users_url (always (answer 204 None))
                   {| status := 204; json := None |} _ _ _ _ _ _ _)).
  - apply users_url_built. reflexivity.
  - apply (headers_derivable_buffer node _ base64). reflexivity.
  - reflexivity.
  - cbn. lia.
  - intro init. reflexivity.
  - reflexivity.
  - reflexivity.
Defined.

Lemma buildUrl_query_witness :
  buildUrl node
    (client None (Some "key") None None (always (answer 200 None)) 3 1000)
    "/users?page=1"
    (Some [("page", PNumber 2); ("q", PString "a b"); ("skip", PUndefined);
           ("exact", PBoolean true)]%string)
  = Normal "https://analytics.example.com/users?page=2&q=a+b&exact=true"%string.
Proof.
  exact (proj1 (buildUrl_query node
                  (client None (Some "key") None None (always (answer 200 None)) 3 1000)
                  "/users?page=1"
                  (Some [("page", PNumber 2); ("q", PString "a b");
                         ("skip", PUndefined); ("exact", PBoolean true)]%string)
                  (mkURL users_url (Some "page=1"%string) None [("page", "1")]%string)
                  eq_refl)).
Defined.

Lemma empty_credential_is_absent_witness :
  exists built,
    ApiClient_new hosted
      (mkConfig (Some ""%string) None (Some ""%string) None None None None None)
    = Normal built /\
    endpoint built = "https://analytics.example.com/api"%string /\
    apiKey built = Some "env-key"%string.
Proof.
  destruct (proj1 (proj2 (proj2
              (empty_credential_is_absent node quiet hosted
                 (client None None None None (always (answer 200 None)) 3 1000) 0)))
              (nullish (process_env hosted) (fun _ => None))
              "https://analytics.example.com/api"%string
              None (Some ""%string) None None None None None
              eq_refl eq_refl)
    as [built [Hnew Hendpoint]]; [discriminate|].
  exists built. split; [exact Hnew|]. split; [exact Hendpoint|].
  exact (proj1 (proj2 (proj1 (proj2 (proj2 (proj2
           (empty_credential_is_absent node quiet hosted
              (client None None None None (always (answer 200 None)) 3 1000) 0))))
           (nullish (process_env hosted) (fun _ => None)) _ built eq_refl Hnew))
         eq_refl).
Defined.

(** The share token of an ASCII user id is the same on both runtimes. *)
Example share_token_on_both_runtimes :
  createShareToken edge
    (client None None (Some "user") (Some "pass") (always (answer 200 None)) 3 1000)
    1700000000000
  = Normal "eyJ1c2VySWQiOiJ1c2VyIiwidGltZXN0YW1wIjoxNzAwMDAwMDAwMDAwfQ=="%string
  /\ createShareToken node
       (client None None (Some "user") (Some "pass") (always (answer 200 None)) 3 1000)
       1700000000000
     = Normal "eyJ1c2VySWQiOiJ1c2VyIiwidGltZXN0YW1wIjoxNzAwMDAwMDAwMDAwfQ=="%string.
Proof. split; vm_compute; reflexivity. Qed.

(** * Further properties of the request engine *)

Section Schedule.

Variable P : Platform.
Variable w : World.
Variable url : string.
Variable o : RequestOptions.

Lemma suspend_config (e : Event) (s : State) :
  retries (this_ (suspend w e s)) = retries (this_ s) /\
  retryDelay (this_ (suspend w e s)) = retryDelay (this_ s).
Proof. destruct (suspend_this w e s) as [t ->]. split; reflexivity. Qed.

Lemma delays_S (d a : Z) (n : nat) :
  delays d a (S n) = d * 2 ^ a :: delays d (a + 1) n.
Proof.
  unfold delays. cbn [seq map]. rewrite Z.add_0_r. f_equal.
  rewrite <- seq_shift, map_map. apply map_ext. intro k.
  f_equal. f_equal. lia.
Qed.

Lemma delays_length (d a : Z) (n : nat) : List.length (delays d a n) = n.
Proof. unfold delays. rewrite length_map, length_seq. reflexivity. Qed.

Lemma sleeps_app (a b : Trace) : sleeps (a ++ b) = sleeps a ++ sleeps b.
Proof.
  induction a as [|[u i|ms] a IH]; cbn [sleeps app]; [reflexivity|exact IH|].
  rewrite IH. reflexivity.
Qed.

(** What one iteration of the loop does: it makes one transport call
    at most and then returns, or goes on to the next attempt, after a
    sleep of [retryDelay * 2 ^ attempt] when attempts remain. *)
Lemma iteration_cases (fuel : nat) (a : Z) (lastError : option ApiResponse)
  (s : State) :
  a <= retries (this_ s) ->
  exists pre,
    (List.length (fetches pre) <= 1)%nat /\ sleeps pre = [] /\
    ((exists r s1,
        request_loop P w (S fuel) url o a lastError s = Some (r, s1) /\
        trace s1 = trace s ++ pre)
     \/ (exists e s2,
           request_loop P w (S fuel) url o a lastError s =
           request_loop P w fuel url o (a + 1) (Some e) s2 /\
           retries (this_ s2) = retries (this_ s) /\
           retryDelay (this_ s2) = retryDelay (this_ s) /\
           ((a < retries (this_ s) /\
             trace s2 = trace s ++ pre ++ [EvSleep (retryDelay (this_ s) * 2 ^ a)])
            \/ (a = retries (this_ s) /\ trace s2 = trace s ++ pre)))).
Proof.
  intro Ha.
  assert (Hcatch : forall e pre s1,
             trace s1 = trace s ++ pre ->
             retries (this_ s1) = retries (this_ s) ->
             retryDelay (this_ s1) = retryDelay (this_ s) ->
             exists e' s2,
               catch_block w e a s1 = (e', s2) /\
               retries (this_ s2) = retries (this_ s) /\
               retryDelay (this_ s2) = retryDelay (this_ s) /\
               ((a < retries (this_ s) /\
                 trace s2 = trace s ++ pre ++ [EvSleep (retryDelay (this_ s) * 2 ^ a)])
                \/ (a = retries (this_ s) /\ trace s2 = trace s ++ pre))).
  { intros e pre s1 Htr Hr Hd. unfold catch_block. rewrite Hr, Hd.
    destruct (a <? retries (this_ s)) eqn:Hlt.
    - apply Z.ltb_lt in Hlt. eexists _, _. split; [reflexivity|].
      cbn [snd sleep].
      destruct (suspend_config (EvSleep (retryDelay (this_ s) * 2 ^ a)) s1)
        as [-> ->].
      repeat split; try assumption. left. split; [exact Hlt|].
      rewrite suspend_trace, Htr, <- app_assoc. reflexivity.
    - apply Z.ltb_ge in Hlt. eexists _, _. split; [reflexivity|].
      repeat split; try assumption. right. split; [lia|exact Htr]. }
  rewrite request_loop_S.
  apply Z.leb_le in Ha. rewrite Ha. rewrite try_block_cases.
  destruct (getAuthHeaders P (this_ s) (Date_now w (trace s))) as [auth|e].
  2:{ exists []. split; [cbn; lia|]. split; [reflexivity|]. right.
      destruct (Hcatch e [] s) as [e' [s2 [Hc Hrest]]];
        [rewrite app_nil_r; reflexivity|reflexivity|reflexivity|].
      rewrite Hc. exists e', s2. split; [reflexivity|exact Hrest]. }
  cbv zeta.
  destruct (fetchFn (this_ s)) as [f|].
  2:{ exists []. split; [cbn; lia|]. split; [reflexivity|]. right.
      destruct (Hcatch (ThrownError not_a_function) [] s) as [e' [s2 [Hc Hrest]]];
        [rewrite app_nil_r; reflexivity|reflexivity|reflexivity|].
      rewrite Hc. exists e', s2. split; [reflexivity|exact Hrest]. }
  set (init := fetchOptions_of o auth).
  set (s1 := suspend w (EvFetch url init) s).
  destruct (suspend_config (EvFetch url init) s) as [Hr1 Hd1]. fold s1 in Hr1, Hd1.
  assert (Htr1 : trace s1 = trace s ++ [EvFetch url init]) by reflexivity.
  exists [EvFetch url init]. split; [cbn; lia|]. split; [reflexivity|].
  assert (Hthrow : forall e,
             exists e' s2,
               (let '(e0, s0) := catch_block w e a s1 in
                request_loop P w fuel url o (a + 1) (Some e0) s0) =
               request_loop P w fuel url o (a + 1) (Some e') s2 /\
               retries (this_ s2) = retries (this_ s) /\
               retryDelay (this_ s2) = retryDelay (this_ s) /\
               ((a < retries (this_ s) /\
                 trace s2 = trace s ++ [EvFetch url init]
                              ++ [EvSleep (retryDelay (this_ s) * 2 ^ a)])
                \/ (a = retries (this_ s) /\ trace s2 = trace s ++ [EvFetch url init]))).
  { intro e. destruct (Hcatch e [EvFetch url init] s1 Htr1 Hr1 Hd1)
      as [e' [s2 [Hc Hrest]]].
    rewrite Hc. exists e', s2. split; [reflexivity|exact Hrest]. }
  destruct (f (trace s) url init) as [r|e].
  2:{ right. destruct (Hthrow e) as [e' [s2 [Hc Hrest]]]. exists e', s2.
      split; [exact Hc|exact Hrest]. }
  destruct (Response_ok r).
  { left. eexists _, _. split; [reflexivity|exact Htr1]. }
  destruct (errorMessage _ (status r)) as [m|e].
  2:{ right. destruct (Hthrow e) as [e' [s2 [Hc Hrest]]]. exists e', s2.
      split; [exact Hc|exact Hrest]. }
  rewrite Hr1, Hd1.
  destruct (isRetryable (status r) && (a <? retries (this_ s))) eqn:Hgo.
  - right. apply andb_true_iff in Hgo. destruct Hgo as [_ Hlt].
    apply Z.ltb_lt in Hlt. eexists _, _. split; [reflexivity|].
    destruct (suspend_config (EvSleep (retryDelay (this_ s) * 2 ^ a)) s1)
      as [-> ->].
    repeat split; try assumption. left. split; [exact Hlt|].
    rewrite suspend_trace, Htr1, <- app_assoc. reflexivity.
  - left. eexists _, _. split; [reflexivity|exact Htr1].
Qed.

(** The schedule of a loop, whatever the transport answers. *)
Lemma request_loop_schedule (fuel : nat) :
  forall a lastError s r s',
    request_loop P w fuel url o a lastError s = Some (r, s') ->
    exists ext n,
      trace s' = trace s ++ ext /\
      sleeps ext = delays (retryDelay (this_ s)) a n /\
      (List.length (fetches ext) <= n + 1)%nat /\
      a + Z.of_nat n <= Z.max a (retries (this_ s)) /\
      (retries (this_ s) < a -> ext = []).
Proof.
  induction fuel as [|fuel IH]; intros a lastError s r s' H; [discriminate|].
  destruct (Z.le_gt_cases a (retries (this_ s))) as [Ha|Ha].
  2:{ rewrite request_loop_S in H.
      assert (Hgt : (a <=? retries (this_ s)) = false) by (apply Z.leb_gt; lia).
      rewrite Hgt in H. injection H as _ <-.
      exists [], 0%nat. rewrite app_nil_r. repeat split; try reflexivity; cbn; lia. }
  destruct (iteration_cases fuel a lastError s Ha)
    as [pre [Hpre [Hquiet [[r1 [s1 [Hnow Htr]]]|[e [s2 [Hnext [Hr [Hd Hwhere]]]]]]]]].
  - rewrite Hnow in H. injection H as _ <-.
    exists pre, 0%nat. repeat split; try assumption; try lia.
  - rewrite Hnext in H.
    destruct (IH _ _ _ _ _ H) as [ext [n [Htr' [Hsl [Hfe [Hbound Hnone]]]]]].
    rewrite Hr, Hd in *.
    destruct Hwhere as [[Hlt Htr]|[Heq Htr]].
    + exists (pre ++ [EvSleep (retryDelay (this_ s) * 2 ^ a)] ++ ext), (S n).
      split; [rewrite Htr', Htr, <- !app_assoc; reflexivity|].
      split; [rewrite !sleeps_app, Hquiet, Hsl, delays_S; reflexivity|].
      split; [rewrite !fetches_app, !length_app; cbn; lia|].
      split; [lia|lia].
    + assert (Hext : ext = []) by (apply Hnone; lia). subst ext.
      assert (Hn : n = 0%nat).
      { apply (f_equal (@List.length Z)) in Hsl.
        rewrite delays_length in Hsl. cbn in Hsl. lia. }
      subst n. exists pre, 0%nat. rewrite app_nil_r in Htr'.
      split; [rewrite Htr', Htr; reflexivity|].
      repeat split; try assumption; try lia.
Qed.

End Schedule.

Section Bounds.

Variable P : Platform.
Variable w : World.

Lemma request_returns (this : ApiClient) (path : string) (o : RequestOptions) :
  exists outcome s, request P w this path o = Some (outcome, s).
Proof.
  unfold request. destruct (buildUrl P this path (opt_params o)) as [url|e].
  - destruct (request_loop_total P w url o (S (Z.to_nat (retries this + 1)))
                0 None {| this_ := this; trace := [] |}) as [r [s' H]].
    { cbn [this_]. lia. }
    rewrite H. eauto.
  - eauto.
Qed.

Lemma call_schedule (this : ApiClient) (path : string) (c : Call) :
  exists outcome s n,
    invoke P w this path c = Some (outcome, s) /\
    sleeps (trace s) = delays (retryDelay this) 0 n /\
    Z.of_nat n <= Z.max 0 (retries this) /\
    (List.length (fetches (trace s)) <= n + 1)%nat /\
    (retries this < 0 -> trace s = []).
Proof.
  rewrite invoke_request. unfold request.
  destruct (buildUrl P this path (opt_params (options_of c))) as [url|e].
  - set (s0 := {| this_ := this; trace := [] |}).
    destruct (request_loop_total P w url (options_of c)
                (S (Z.to_nat (retries this + 1))) 0 None s0) as [r [s' H]].
    { cbn [this_ s0]. lia. }
    rewrite H.
    destruct (request_loop_schedule P w url (options_of c) _ _ _ _ _ _ H)
      as [ext [n [Htr [Hsl [Hfe [Hb Hnone]]]]]].
    cbn [s0 this_ trace app] in *. rewrite <- Htr in *.
    exists (Normal r), s', n. repeat split; try assumption; lia.
  - exists (Throw e), {| this_ := this; trace := [] |}, 0%nat.
    repeat split; cbn; lia.
Qed.

(** X1.  Whatever the transport and the rest of the world do, a call
    of the surface ends after at most [retries + 1] transport calls: it
    sleeps [n] times, with [n] at most [retries], the [k]-th sleep (from 0)
    lasting [retryDelay * 2 ^ k], and it makes at most [n + 1] transport
    calls; with a negative [retries] it makes no transport call at all. *)
Theorem attempts_are_bounded (this : ApiClient) (path : string) (c : Call) :
  exists outcome s n,
    invoke P w this path c = Some (outcome, s) /\
    sleeps (trace s) = delays (retryDelay this) 0 n /\
    Z.of_nat n <= Z.max 0 (retries this) /\
    (List.length (fetches (trace s)) <= n + 1)%nat /\
    (retries this < 0 -> trace s = []).
Proof. apply call_schedule. Qed.


(** X3.  With a negative [retries] the loop body never runs: a call
    whose URL builds resolves, without any transport call or sleep, to the
    fallback failure [{ ok: false, status: 0, error: 'Request failed after
    retries' }]. *)
Theorem negative_retries_fall_back (this : ApiClient) (path : string) (c : Call)
  (url : string) :
  retries this < 0 ->
  buildUrl P this path (opt_params (options_of c)) = Normal url ->
  invoke P w this path c =
  Some (Normal {| ok := false; resp_status := 0; data := None;
                  error := Some "Request failed after retries"%string |},
        {| this_ := this; trace := [] |}).
Proof.
  intros Hneg Hurl. rewrite invoke_request. unfold request. rewrite Hurl.
  rewrite request_loop_S. cbn [this_].
  assert (H : (0 <=? retries this) = false) by (apply Z.leb_gt; lia).
  rewrite H. reflexivity.
Qed.

Lemma try_block_well_formed (url : string) (o : RequestOptions) (attempt : Z)
  (s : State) :
  match fst (try_block P w url o attempt s) with
  | Normal (Return r) | Normal (Continue r) => well_formed r
  | Throw _ => True
  end.
Proof.
  rewrite try_block_cases.
  destruct (getAuthHeaders P (this_ s) (Date_now w (trace s))) as [auth|e];
    [|exact I].
  cbv zeta.
  destruct (fetchFn (this_ s)) as [f|]; [|exact I].
  destruct (f (trace s) url _) as [r|e]; [|exact I].
  destruct (Response_ok r) eqn:Hok.
  - cbn [fst]. unfold well_formed. cbn [ok data error resp_status].
    unfold Response_ok in Hok. apply andb_true_iff in Hok.
    destruct Hok as [H1 H2]. apply Z.leb_le in H1, H2.
    repeat split; (discriminate || lia).
  - assert (Hbad : ~ (200 <= status r <= 299)).
    { unfold Response_ok in Hok. apply andb_false_iff in Hok.
      destruct Hok as [H|H]; apply Z.leb_gt in H; lia. }
    destruct (errorMessage _ _) as [m|e]; [|exact I].
    destruct (isRetryable (status r) && _); cbn [fst]; unfold well_formed;
      cbn [ok data error resp_status failure];
      repeat split; (discriminate || exact Hbad).
Qed.

Lemma failure_0_well_formed (message : string) : well_formed (failure 0 message).
Proof.
  unfold well_formed. cbn. repeat split; (discriminate || lia).
Qed.

Lemma request_loop_well_formed (url : string) (o : RequestOptions) (fuel : nat) :
  forall attempt lastError s r s',
    well_formed (nullish lastError exhausted) ->
    request_loop P w fuel url o attempt lastError s = Some (r, s') ->
    well_formed r.
Proof.
  induction fuel as [|fuel IH]; intros attempt lastError s r s' Hl H;
    [discriminate|].
  cbn [request_loop] in H.
  destruct (attempt <=? retries (this_ s)).
  - pose proof (try_block_well_formed url o attempt s) as Hk.
    destruct (try_block P w url o attempt s) as [[[r0|e0]|err] s1]; cbn [fst] in Hk.
    + injection H as <- <-. exact Hk.
    + eapply (IH _ (Some e0)); [exact Hk|exact H].
    + assert (He : well_formed (fst (catch_block w err attempt s1)))
        by (unfold catch_block; destruct (attempt <? _);
            apply failure_0_well_formed).
      destruct (catch_block w err attempt s1) as [e1 s2]; cbn [fst] in He.
      eapply (IH _ (Some e1)); [exact He|exact H].
  - injection H as <- <-. exact Hl.
Qed.

(** X5.  Every envelope a call resolves to has one of the two shapes
    of [ApiResponse]: [ok] true with [data], no [error] and a status in
    200..299, or [ok] false with an [error] message, no [data] and a
    status outside 200..299 (0 when no usable response was received). *)
Theorem envelope_is_well_formed (this : ApiClient) (path : string) (c : Call) :
  exists outcome s,
    invoke P w this path c = Some (outcome, s) /\
    match outcome with
    | Normal r =>
        (ok r = true /\ data r <> None /\ error r = None /\
         200 <= resp_status r <= 299)
        \/ (ok r = false /\ data r = None /\ error r <> None /\
            ~ (200 <= resp_status r <= 299))
    | Throw _ => trace s = []
    end.
Proof.
  rewrite invoke_request. unfold request.
  destruct (buildUrl P this path (opt_params (options_of c))) as [url|e].
  - set (s0 := {| this_ := this; trace := [] |}).
    destruct (request_loop_total P w url (options_of c)
                (S (Z.to_nat (retries this + 1))) 0 None s0) as [r [s' H]].
    { cbn [this_ s0]. lia. }
    rewrite H. exists (Normal r), s'. split; [reflexivity|].
    assert (Hw : well_formed r).
    { eapply (request_loop_well_formed url _ _ 0 None s0); [|exact H].
      apply failure_0_well_formed. }
    unfold well_formed in Hw. destruct (ok r); [left|right]; tauto.
  - eexists _, _. split; reflexivity.
Qed.

(** X6.  The attempts of a call replay one request: every transport
    call of a call of the surface is made on the same URL, with the method
    of the verb ([GET] for [request] without a method) and with the same
    body; only the headers can differ from one attempt to the next. *)
Theorem retries_replay_the_request (this : ApiClient) (path : string) (c : Call) :
  exists outcome s url,
    invoke P w this path c = Some (outcome, s) /\
    forall url' init,
      In (url', init) (fetches (trace s)) ->
      url' = url /\
      fo_method init = method_of c /\
      fo_body init = (if ToBoolean (opt_body (options_of c))
                      then JSON_stringify (opt_body (options_of c)) else None).
Proof.
  destruct (request_returns this path (options_of c)) as [outcome [s Hcall]].
  exists outcome, s.
  destruct (request_calls_fresh P w _ _ _ _ _ Hcall) as [url Hfresh].
  exists url. split; [rewrite invoke_request; exact Hcall|].
  intros url' init Hin.
  destruct (fetches_In _ _ _ Hin) as [pre [post Htr]].
  destruct (Hfresh _ _ _ _ Htr) as [-> [auth [_ ->]]].
  split; [reflexivity|]. split; [destruct c; reflexivity|reflexivity].
Qed.

End Bounds.

Section Recovery.

Variable P : Platform.
Variable w : World.
Variable this : ApiClient.
Variable o : RequestOptions.
Variable url : string.
Variable f : Transport.

Hypothesis Hderiv : headers_derivable P this.
Hypothesis Hf : fetchFn this = Some f.

Lemma backoff_run_profile (d n : Z) (c : nat) (tr : Trace) :
  backoff_run url d n c tr ->
  exists k, c = S k /\ sleeps tr = delays d n k /\ List.length (fetches tr) = c.
Proof.
  induction 1 as [n init|n k init tr _ [k' [Hk [Hs Hl]]]].
  - exists 0%nat. repeat split; reflexivity.
  - exists (S k'). injection Hk as ->.
    split; [reflexivity|]. split.
    + cbn [sleeps]. rewrite Hs, delays_S. reflexivity.
    + cbn [fetches List.length]. rewrite Hl. reflexivity.
Qed.

Lemma total_delays (d : Z) (k : nat) :
  forall n, 0 <= n ->
    total (delays d n k) = d * 2 ^ n * (2 ^ Z.of_nat k - 1).
Proof.
  induction k as [|k IH]; intros n Hn.
  - cbn. ring.
  - rewrite delays_S. cbn [total fold_right]. fold (total (delays d (n + 1) k)).
    rewrite IH by lia.
    rewrite Nat2Z.inj_succ, !Z.pow_succ_r by lia.
    rewrite Z.pow_add_r by lia. ring.
Qed.

Lemma retried_envelope_fails (out : FetchOutcome) :
  retried out -> is_failure (envelope_of out).
Proof.
  destruct out as [r|e]; cbn [retried envelope_of].
  - intros [Hok _]. rewrite Hok. cbv zeta.
    destruct (errorMessage _ _); split; (reflexivity || discriminate).
  - intros _. split; (reflexivity || discriminate).
Qed.

(** A loop whose next [k] answers are retried and whose answer after
    them is terminal returns that answer's envelope after [k] sleeps. *)
Lemma loop_recovers (k : nat) :
  forall n fuel lastError s t,
    this_ s = with_bearer t this ->
    n + Z.of_nat k <= retries this ->
    (k < fuel)%nat ->
    (forall tr init,
       (List.length (fetches tr) < List.length (fetches (trace s)) + k)%nat ->
       retried (f tr url init)) ->
    (forall tr init,
       List.length (fetches tr) = (List.length (fetches (trace s)) + k)%nat ->
       terminal (f tr url init)) ->
    exists pre init s',
      request_loop P w fuel url o n lastError s =
        Some (envelope_of (f pre url init), s') /\
      trace s' = pre ++ [EvFetch url init] /\
      List.length (fetches pre) = (List.length (fetches (trace s)) + k)%nat /\
      sleeps (trace s') = sleeps (trace s) ++ delays (retryDelay this) n k.
Proof.
  induction k as [|k IH]; intros n fuel lastError s t Hs Hn Hfuel Hret Hterm.
  - destruct fuel as [|fuel]; [lia|].
    destruct (iteration_terminal P w this o url f Hderiv Hf fuel n lastError s t Hs)
      as [init Hloop]; [lia| |].
    { intro init. apply Hterm. lia. }
    exists (trace s), init, (suspend w (EvFetch url init) s).
    split; [exact Hloop|]. split; [reflexivity|]. split; [lia|].
    rewrite suspend_trace, sleeps_app. reflexivity.
  - destruct fuel as [|fuel]; [lia|].
    destruct (iteration_retried P w this o url f Hderiv Hf fuel n lastError s t Hs)
      as [init [[t2 Ht2] [Hmore _]]]; [lia| |].
    { intro init. apply Hret. lia. }
    cbv zeta in Hmore, Ht2. rewrite Hmore by lia.
    set (s2 := suspend w (EvSleep (retryDelay this * 2 ^ n))
                 (suspend w (EvFetch url init) s)) in *.
    assert (Htr2 : trace s2 = trace s ++ [EvFetch url init;
                                          EvSleep (retryDelay this * 2 ^ n)]).
    { unfold s2. rewrite !suspend_trace, <- app_assoc. reflexivity. }
    assert (Hcount : List.length (fetches (trace s2))
                     = S (List.length (fetches (trace s)))).
    { rewrite Htr2, fetches_app, length_app. cbn. lia. }
    destruct (IH (n + 1) fuel (Some (envelope_of (f (trace s) url init))) s2 t2 Ht2)
      as [pre [init' [s' [Hloop [Hlast [Hpre Hsl]]]]]]; [lia|lia| | |].
    { intros tr i Hlt. apply Hret. lia. }
    { intros tr i Heq. apply Hterm. lia. }
    exists pre, init', s'. split; [exact Hloop|]. split; [exact Hlast|].
    split; [lia|].
    rewrite Hsl, Htr2, sleeps_app, delays_S, <- app_assoc. reflexivity.
Qed.

Variable path : string.
Hypothesis Hurl : buildUrl P this path (opt_params o) = Normal url.

(** X2.  When every answer of the transport is retried (a rejection,
    a retryable status, or a failed response whose message cannot be
    derived) a call that reaches the transport with [retries >= 0] resolves
    to a failure after exactly [retries + 1] transport calls and [retries]
    sleeps of [retryDelay * 2 ^ k], [retryDelay * (2 ^ retries - 1)]
    milliseconds of backoff in all. *)
Theorem exhausted_call_waits :
  0 <= retries this ->
  (forall tr init, retried (f tr url init)) ->
  exists r s,
    request P w this path o = Some (Normal r, s) /\
    is_failure r /\
    List.length (fetches (trace s)) = Z.to_nat (retries this + 1) /\
    sleeps (trace s) = delays (retryDelay this) 0 (Z.to_nat (retries this)) /\
    total (sleeps (trace s)) = retryDelay this * (2 ^ retries this - 1).
Proof.
  intros Hn Hret.
  destruct (request_exhausts P w this o url f Hderiv Hf path Hurl Hn Hret)
    as [pre [init [s [Hreq [_ Hrun]]]]].
  destruct (backoff_run_profile _ _ _ _ Hrun) as [k [Hk [Hs Hl]]].
  assert (Hk' : k = Z.to_nat (retries this)) by lia. subst k.
  eexists _, s. split; [exact Hreq|].
  split; [apply retried_envelope_fails, Hret|].
  split; [exact Hl|]. split; [exact Hs|].
  rewrite Hs, total_delays by lia.
  rewrite Z2Nat.id by lia. rewrite Z.pow_0_r. ring.
Qed.

(** X4.  A call recovers: when the first [k] answers of the transport
    are retried, with [k] at most [retries], and the next one is terminal
    (a success, or a failure that is not retryable), the call resolves to
    the envelope of that answer after exactly [k + 1] transport calls and
    the [k] sleeps [retryDelay * 2 ^ 0 .. retryDelay * 2 ^ (k - 1)]. *)
Theorem call_recovers_after_retries (k : nat) :
  Z.of_nat k <= retries this ->
  (forall tr init, (List.length (fetches tr) < k)%nat -> retried (f tr url init)) ->
  (forall tr init, List.length (fetches tr) = k -> terminal (f tr url init)) ->
  exists pre init s,
    request P w this path o = Some (Normal (envelope_of (f pre url init)), s) /\
    trace s = pre ++ [EvFetch url init] /\
    terminal (f pre url init) /\
    List.length (fetches (trace s)) = S k /\
    sleeps (trace s) = delays (retryDelay this) 0 k.
Proof.
  intros Hk Hret Hterm. unfold request. rewrite Hurl.
  destruct (loop_recovers k 0 (S (Z.to_nat (retries this + 1))) None
              {| this_ := this; trace := [] |} (bearerToken this))
    as [pre [init [s' [Hloop [Hlast [Hpre Hsl]]]]]];
    [symmetry; apply with_bearer_self|lia|lia|exact Hret|exact Hterm|].
  rewrite Hloop. exists pre, init, s'.
  split; [reflexivity|]. split; [exact Hlast|].
  cbn [trace fetches List.length plus] in Hpre.
  split; [apply Hterm; exact Hpre|].
  split; [rewrite Hlast, fetches_app, length_app; cbn; lia|exact Hsl].
Qed.

End Recovery.

Section Composition.

Variable P : Platform.
Variable w : World.

Lemma obj_get_set {V : Type} (k k' : string) (v : V) (o : list (string * V)) :
  obj_get k (obj_set k' v o) = if (k' =? k)%string then Some v else obj_get k o.
Proof.
  induction o as [|[k0 v0] o IH]; cbn [obj_set obj_get].
  - destruct (k' =? k)%string; reflexivity.
  - destruct (k0 =? k')%string eqn:E; cbn [obj_get].
    + apply String.eqb_eq in E. subst k0.
      destruct (k' =? k)%string; reflexivity.
    + rewrite IH. destruct (k0 =? k)%string eqn:K; [|reflexivity].
      apply String.eqb_eq in K. subst k0.
      rewrite String.eqb_sym, E. reflexivity.
Qed.

Lemma obj_get_app {V : Type} (k : string) (a b : list (string * V)) :
  obj_get k (a ++ b) =
  match obj_get k a with Some v => Some v | None => obj_get k b end.
Proof.
  induction a as [|[k0 v0] a IH]; cbn [obj_get app]; [reflexivity|].
  destruct (k0 =? k)%string; [reflexivity|exact IH].
Qed.

(** A spread gives a key its last value in the source, or else the
    value the target had. *)
Lemma obj_get_spread {V : Type} (k : string) (src : list (string * V)) :
  forall target,
    obj_get k (obj_spread target src) =
    match obj_get k (rev src) with
    | Some v => Some v
    | None => obj_get k target
    end.
Proof.
  unfold obj_spread.
  induction src as [|[k' v'] src IH]; intro target; [reflexivity|].
  cbn [fold_left fst snd rev]. rewrite IH, obj_get_app, obj_get_set.
  cbn [obj_get]. destruct (obj_get k (rev src)); [reflexivity|].
  destruct (k' =? k)%string; reflexivity.
Qed.

Lemma getAuthHeaders_short (this : ApiClient) (now : Z)
  (auth : list (string * string)) :
  getAuthHeaders P this now = Normal auth -> rev auth = auth.
Proof.
  intro H. destruct (getAuthHeaders_shape P _ _ _ H) as [_ Hlen].
  destruct auth as [|a [|b auth]]; try reflexivity.
  destruct (configured this); discriminate.
Qed.

(** X7.  On every transport call of a [request] a header has the
    value the caller's [headers] give it (the last one, under exactly that
    name), else the value the authentication headers of that attempt give
    it, else [application/json] for [Content-Type], and is absent
    otherwise: caller overrides beat the credential, which beats the
    default content type. *)
Theorem caller_headers_take_precedence (this : ApiClient) (path : string)
  (o : RequestOptions) :
  exists outcome s,
    request P w this path o = Some (outcome, s) /\
    forall url init,
      In (url, init) (fetches (trace s)) ->
      exists token now auth,
        getAuthHeaders P (with_bearer token this) now = Normal auth /\
        forall name,
          obj_get name (fo_headers init) =
          match obj_get name (rev (nullish (opt_headers o) [])) with
          | Some v => Some v
          | None =>
              match obj_get name auth with
              | Some v => Some v
              | None => if ("Content-Type" =? name)%string
                        then Some "application/json"%string else None
              end
          end.
Proof.
  destruct (request_returns P w this path o) as [outcome [s Hcall]].
  exists outcome, s. split; [exact Hcall|].
  intros url init Hin.
  destruct (request_calls_fresh P w _ _ _ _ _ Hcall) as [url0 Hfresh].
  destruct (fetches_In _ _ _ Hin) as [pre [post Htr]].
  destruct (Hfresh _ _ _ _ Htr) as [_ [auth [Hauth ->]]].
  destruct (client_after_this w this pre) as [token Hc]. rewrite Hc in Hauth.
  exists token, (Date_now w pre), auth. split; [exact Hauth|].
  intro name. cbn [fo_headers fetchOptions_of]. unfold compose_headers.
  rewrite !obj_get_spread, (getAuthHeaders_short _ _ _ Hauth).
  reflexivity.
Qed.

(** X8.  [getAuthHeaders] throws in one situation only: there is no
    bearer token and no API key, the legacy pair is complete, the runtime
    has no [Buffer], and [btoa] throws on the JSON text of the share-token
    payload; what it throws is then what [btoa] threw.  In particular the
    'userId and secret are required' error of [createShareToken] is never
    raised through it. *)
Theorem auth_headers_throw_only_from_btoa (this : ApiClient) (now : Z)
  (e : Thrown) :
  getAuthHeaders P this now = Throw e <->
  truthy (bearerToken this) = false /\
  truthy (apiKey this) = false /\
  truthy (userId this) = true /\
  truthy (secret this) = true /\
  Buffer_base64 P = None /\
  btoa P (share_token_text this now) = Throw e.
Proof.
  unfold getAuthHeaders, createShareToken, share_token_text.
  destruct (truthy (bearerToken this));
    [split; [discriminate|intros [H _]; discriminate H]|].
  destruct (truthy (apiKey this));
    [split; [discriminate|intros [_ [H _]]; discriminate H]|].
  destruct (truthy (userId this));
    [|split; [discriminate|intros [_ [_ [H _]]]; discriminate H]].
  destruct (truthy (secret this));
    [|split; [discriminate|intros [_ [_ [_ [H _]]]]; discriminate H]].
  cbn [andb negb orb].
  destruct (Buffer_base64 P) as [encode|].
  - split; [discriminate|intros [_ [_ [_ [_ [H _]]]]]; discriminate H].
  - destruct (btoa P _) as [t|e'].
    + split; [discriminate|intros [_ [_ [_ [_ [_ H]]]]]; discriminate H].
    + split.
      * intro H. injection H as ->. repeat split; reflexivity.
      * intros [_ [_ [_ [_ [_ H]]]]]. injection H as ->. reflexivity.
Qed.

Lemma params_set_fresh (n v : string) (l : list (string * string)) :
  ~ In n (names l) -> params_set n v l = l ++ [(n, v)].
Proof.
  induction l as [|[n0 v0] l IH]; intro Hn; [reflexivity|].
  cbn [params_set app]. cbn [names map fst In] in Hn.
  destruct (n0 =? n)%string eqn:E.
  - apply String.eqb_eq in E. tauto.
  - rewrite IH by tauto. reflexivity.
Qed.

Lemma fold_set_param_fresh (entries : list (string * ParamValue)) :
  forall u,
    NoDup (map fst entries) ->
    (forall k, In k (map fst entries) -> ~ In k (names (searchParams u))) ->
    searchParams (fold_left set_param entries u) =
    searchParams u ++
    map (fun entry => (fst entry, String_of (snd entry))) (defined_entries entries).
Proof.
  induction entries as [|[k v] entries IH]; intros u Hnd Hfresh.
  - cbn. rewrite app_nil_r. reflexivity.
  - cbn [map fst] in Hnd. inversion Hnd as [|? ? Hk Hnd']. subst.
    cbn [fold_left].
    assert (Hset : forall sv,
               searchParams (fold_left set_param entries (searchParams_set k sv u)) =
               searchParams u ++ (k, sv) ::
               map (fun entry => (fst entry, String_of (snd entry)))
                   (defined_entries entries)).
    { intro sv. rewrite IH; [|exact Hnd'|].
      - cbn [searchParams_set searchParams].
        rewrite params_set_fresh by (apply Hfresh; left; reflexivity).
        rewrite <- app_assoc. reflexivity.
      - intros k' Hk'. cbn [searchParams_set searchParams].
        rewrite params_set_fresh by (apply Hfresh; left; reflexivity).
        unfold names. rewrite map_app, in_app_iff. cbn [map fst In].
        intros [H|[H|[]]].
        + apply (Hfresh k'); [right; exact Hk'|exact H].
        + subst k'. contradiction. }
    destruct v as [sv|n|b|]; cbn [set_param snd fst defined_entries filter map];
      try apply Hset.
    apply IH; [exact Hnd'|]. intros k' Hk'. apply Hfresh. right. exact Hk'.
Qed.

(** X9.  When the keys of the parameter map are distinct and none of
    them is a parameter of the path already, [buildUrl] appends the
    defined entries to the parameters of the path in the order of the map,
    each as [(key, String(value))], and adds nothing else; with a path
    without query the parameters of the built URL are exactly the defined
    entries, in order. *)
Theorem fresh_params_are_appended_in_order (this : ApiClient) (path : string)
  (entries : list (string * ParamValue)) (u : URL) :
  URL_new P path (endpoint this) = Some u ->
  NoDup (map fst entries) ->
  (forall k, In k (map fst entries) -> ~ In k (names (searchParams u))) ->
  buildUrl P this path (Some entries)
    = Normal (URL_toString (buildUrl_object u (Some entries))) /\
  searchParams (buildUrl_object u (Some entries)) =
    searchParams u ++
    map (fun entry => (fst entry, String_of (snd entry))) (defined_entries entries).
Proof.
  intros Hu Hnd Hfresh. split.
  - unfold buildUrl. rewrite Hu. reflexivity.
  - apply fold_set_param_fresh; assumption.
Qed.

(** X10.  A client constructed with [retries: 0] keeps the 0 (only a
    missing [retries] becomes 3): each of its calls makes at most one
    transport call and never sleeps.  A client constructed without
    [retries] and [retryDelay] makes at most four transport calls per call
    and sleeps 1000, 2000 and 4000 ms, in that order, as far as it gets. *)
Theorem configured_retries_bound_the_call (rt : Runtime) (config : ClientConfig)
  (this : ApiClient) (path : string) (c : Call) :
  ApiClient_new rt config = Normal this ->
  exists outcome s,
    invoke P w this path c = Some (outcome, s) /\
    (cfg_retries config = Some 0 ->
     (List.length (fetches (trace s)) <= 1)%nat /\ sleeps (trace s) = []) /\
    (cfg_retries config = None -> cfg_retryDelay config = None ->
     (List.length (fetches (trace s)) <= 4)%nat /\
     exists n, (n <= 3)%nat /\ sleeps (trace s) = firstn n [1000; 2000; 4000]).
Proof.
  intro Hnew.
  assert (Hfields : retries this = nullish (cfg_retries config) 3 /\
                    retryDelay this = nullish (cfg_retryDelay config) 1000).
  { unfold ApiClient_new in Hnew. cbv zeta in Hnew.
    destruct (_ =? _)%string in Hnew; [discriminate|].
    injection Hnew as <-. split; reflexivity. }
  destruct Hfields as [Hr Hd].
  destruct (call_schedule P w this path c)
    as [outcome [s [n [Hcall [Hsl [Hn [Hfe _]]]]]]].
  exists outcome, s. split; [exact Hcall|]. split.
  - intro H0. rewrite Hr, H0 in Hn. cbn [nullish] in Hn.
    assert (n = 0%nat) by lia. subst n. split; [lia|exact Hsl].
  - intros H3 H1000. rewrite Hr, H3 in Hn. rewrite Hd, H1000 in Hsl.
    cbn [nullish] in Hn, Hsl. split; [lia|].
    exists n. split; [lia|]. rewrite Hsl.
    destruct n as [|[|[|[|n]]]]; try reflexivity. lia.
Qed.

End Composition.

(** * Runtime detection *)

Section Detection.

Import RuntimeDetection.

(** X11.  [detectRuntime] throws in exactly one kind of runtime: no
    [EdgeRuntime] global, no [Deno], [WebAssembly] and [Response] defined,
    and no [process] global declared; the test [!process?.versions?.node]
    then raises the ReferenceError "process is not defined" instead of
    answering ['edge']. *)
Theorem detectRuntime_throws_without_process (g : Globals) (e : Thrown) :
  detectRuntime g = Throw e <->
  g_EdgeRuntime g = false /\
  g_globalThis_EdgeRuntime g = false /\
  g_Deno g = None /\
  g_WebAssembly g = true /\
  g_Response g = true /\
  g_process g = ProcessUndeclared /\
  e = ThrownError process_not_defined.
Proof.
  unfold detectRuntime, process_versions_node.
  destruct (g_EdgeRuntime g);
    [split; [discriminate|intros [H _]; discriminate H]|].
  destruct (g_globalThis_EdgeRuntime g);
    [split; [discriminate|intros [_ [H _]]; discriminate H]|].
  destruct (g_Deno g) as [d|];
    [split; [discriminate|intros [_ [_ [H _]]]; discriminate H]|].
  destruct (g_WebAssembly g); cbn [andb].
  2:{ split; [|intros [_ [_ [_ [H _]]]]; discriminate H].
      destruct (g_process g) as [| |env [[v|]|]]; discriminate. }
  destruct (g_Response g).
  2:{ split; [|intros [_ [_ [_ [_ [H _]]]]]; discriminate H].
      destruct (g_process g) as [| |env [[v|]|]]; discriminate. }
  destruct (g_process g) as [| |env versions].
  - split.
    + intro H. injection H as <-. repeat split; reflexivity.
    + intros [_ [_ [_ [_ [_ [_ ->]]]]]]. reflexivity.
  - split; [discriminate|intros [_ [_ [_ [_ [_ [H _]]]]]]; discriminate H].
  - split; [|intros [_ [_ [_ [_ [_ [H _]]]]]]; discriminate H].
    destruct versions as [[v|]|]; cbn [nullish truthy negb];
      try discriminate.
    destruct (negb (negb (v =? "")%string)); discriminate.
Qed.

(** X12.  In a process that carries a Node version (a non-empty
    [process.versions.node]) [detectRuntime] answers ['edge'] as soon as
    one of [EdgeRuntime], [globalThis.EdgeRuntime] or [Deno] is defined,
    and ['node'] otherwise, whether or not [WebAssembly] and [Response]
    exist. *)
Theorem edge_indicators_beat_node (g : Globals)
  (env : option (string -> option string)) (version : string) :
  g_process g = ProcessObject env (Some (Some version)) ->
  version <> ""%string ->
  detectRuntime g =
  Normal (if g_EdgeRuntime g || g_globalThis_EdgeRuntime g
             || match g_Deno g with Some _ => true | None => false end
          then RtEdge else RtNode).
Proof.
  intros Hp Hv. unfold detectRuntime, process_versions_node. rewrite Hp.
  destruct (g_EdgeRuntime g); [reflexivity|].
  destruct (g_globalThis_EdgeRuntime g); [reflexivity|].
  destruct (g_Deno g); [reflexivity|]. cbn [orb nullish truthy].
  apply String.eqb_neq in Hv. rewrite Hv. cbn [negb].
  destruct (g_WebAssembly g && g_Response g); reflexivity.
Qed.

Lemma detectRuntime_node (g : Globals) :
  detectRuntime g = Normal RtNode <-> runs_on_node g.
Proof.
  unfold detectRuntime, process_versions_node, runs_on_node.
  destruct (g_EdgeRuntime g);
    [split; [discriminate|intros [H _]; discriminate H]|].
  destruct (g_globalThis_EdgeRuntime g);
    [split; [discriminate|intros [_ [H _]]; discriminate H]|].
  destruct (g_Deno g);
    [split; [discriminate|intros [_ [_ [H _]]]; discriminate H]|].
  destruct (g_process g) as [| |env [[version|]|]];
    cbn [nullish truthy negb];
    try (split;
         [destruct (g_WebAssembly g && g_Response g); discriminate
         |intros [_ [_ [_ [env' [version' [H _]]]]]]; discriminate H]).
  destruct (String.eqb_spec version "") as [->|Hv]; cbn [negb].
  - destruct (g_WebAssembly g && g_Response g).
    + split; [discriminate|].
      intros [_ [_ [_ [env' [version' [H [Hv|Hw]]]]]]];
        [injection H as _ <-; now elim Hv|discriminate Hw].
    + split; [intros _|reflexivity].
      repeat split. exists env, ""%string. split; [reflexivity|now right].
  - split; [intros _|destruct (g_WebAssembly g && g_Response g); reflexivity].
    repeat split. exists env, version. split; [reflexivity|now left].
Qed.

(** X13.  Node is detected in exactly one kind of runtime: no
    [EdgeRuntime] (as a global or on [globalThis]), no [Deno], a [process]
    object whose [versions.node] is set, and a non-empty version where
    [WebAssembly] and [Response] both exist.  Exactly there
    [isNodeRuntime] answers [true], [assertRuntime('node')] returns and
    [getRuntimeCapabilities] reports [supportsFileSystem]; and a runtime
    that has both [WebAssembly] and [Response] is never detected as
    ['unknown']. *)
Theorem node_detection_is_characterised (g : Globals) :
  (isNodeRuntime g = Normal true <-> runs_on_node g) /\
  (assertRuntime g RtNode = Normal tt <-> runs_on_node g) /\
  ((exists c, getRuntimeCapabilities g = Normal c /\ supportsFileSystem c = true)
   <-> runs_on_node g) /\
  (detectRuntime g = Normal RtUnknown -> g_WebAssembly g && g_Response g = false).
Proof.
  split; [|split; [|split]].
  - rewrite <- detectRuntime_node. unfold isNodeRuntime.
    destruct (detectRuntime g) as [[| |]|e]; split; intro H;
      (reflexivity || discriminate H).
  - rewrite <- detectRuntime_node. unfold assertRuntime.
    destruct (detectRuntime g) as [[| |]|e]; split; intro H;
      (reflexivity || discriminate H).
  - rewrite <- detectRuntime_node. unfold getRuntimeCapabilities.
    destruct (detectRuntime g) as [[| |]|e]; split;
      try (intros [c [Hc Hs]]; injection Hc as <-; discriminate Hs);
      try (intros [c [Hc _]]; discriminate Hc);
      try (intro H; discriminate H).
    + reflexivity.
    + intros _. eexists. split; reflexivity.
  - unfold detectRuntime, process_versions_node.
    destruct (g_EdgeRuntime g); [discriminate|].
    destruct (g_globalThis_EdgeRuntime g); [discriminate|].
    destruct (g_Deno g); [discriminate|].
    destruct (g_WebAssembly g && g_Response g); [|reflexivity].
    destruct (g_process g) as [| |env [[version|]|]];
      cbn [nullish truthy negb]; try discriminate.
    destruct (negb (negb (version =? "")%string)); discriminate.
Qed.

End Detection.

(** * Edge helpers *)

Section Environment.

Import EdgeHelpers.

(** X14.  With a default, [getEdgeEnv] never answers [undefined]; and
    a value found in [process.env] is answered as it is, the empty string
    included, without looking at [Deno.env] or at the default, so that the
    answer can be the empty string only if the default or the value of
    [process.env] is. *)
Theorem getEdgeEnv_with_default (g : Globals) (key default : string) :
  getEdgeEnv g key (Some default) <> None /\
  (forall value, process_env_value g key = Some value ->
                 getEdgeEnv g key (Some default) = Some value) /\
  (getEdgeEnv g key (Some default) = Some ""%string ->
   default = ""%string \/ process_env_value g key = Some ""%string).
Proof.
  unfold getEdgeEnv, process_env_value.
  assert (Hdeno : forall d : option (option (string -> Completion (option string))),
             let r := match
                        match d with
                        | Some (Some get) =>
                            match get key with
                            | Normal value => Some (js_or value (Some default))
                            | Throw _ => None
                            end
                        | _ => None
                        end
                      with
                      | Some answer => answer
                      | None => Some default
                      end in
             r <> None /\ (r = Some ""%string -> default = ""%string)).
  { intros [[get|]|]; cbv zeta; try (split; [discriminate|congruence]).
    destruct (get key) as [[v|]|e]; unfold js_or; cbn [truthy];
      try (split; [discriminate|congruence]).
    destruct (v =? "")%string eqn:E; cbn [negb];
      try (split; [discriminate|congruence]).
    split; [discriminate|]. intro H. injection H as ->. discriminate E. }
  specialize (Hdeno (g_Deno g)). cbv zeta in Hdeno. destruct Hdeno as [Hd1 Hd2].
  destruct (g_process g) as [| |[env|] versions];
    try (split; [exact Hd1|split; [discriminate|intro H; left; exact (Hd2 H)]]).
  destruct (env key) as [v|].
  - split; [discriminate|]. split; [intros value H; exact H|].
    intro H. right. exact H.
  - split; [exact Hd1|split; [discriminate|intro H; left; exact (Hd2 H)]].
Qed.

(** X15.  [requireEdgeEnv] returns only non-empty values, and then the
    one [getEdgeEnv] finds; it throws for a variable that is missing and
    also for one that [process.env] holds as the empty string, even when
    [Deno.env] has a value for it. *)
Theorem requireEdgeEnv_rejects_empty (g : Globals) (key : string) :
  (forall value, requireEdgeEnv g key = Normal value ->
                 value <> ""%string /\ getEdgeEnv g key None = Some value) /\
  (process_env_value g key = Some ""%string ->
   requireEdgeEnv g key = Throw (ThrownError (required_message key))) /\
  (getEdgeEnv g key None = None ->
   requireEdgeEnv g key = Throw (ThrownError (required_message key))).
Proof.
  split; [|split].
  - intros value. unfold requireEdgeEnv. cbv zeta.
    destruct (getEdgeEnv g key None) as [v|]; cbn [truthy negb nullish];
      [|discriminate].
    destruct (v =? "")%string eqn:E; cbn [negb]; [discriminate|].
    intro H. injection H as ->. apply String.eqb_neq in E. auto.
  - intro Hp. unfold requireEdgeEnv, getEdgeEnv. unfold process_env_value in Hp.
    destruct (g_process g) as [| |[env|] versions]; try discriminate.
    rewrite Hp. reflexivity.
  - intro Hn. unfold requireEdgeEnv. rewrite Hn. reflexivity.
Qed.

(** X16.  The geo information of a request is all or nothing: the
    country is a non-empty string or [undefined], never [null] or empty;
    when it is [undefined] so are the region, city, latitude and longitude,
    whatever other geo headers the request carries; when it is a string
    the other four fields are strings or [null], never [undefined]. *)
Theorem geo_is_all_or_nothing (headers : Headers) :
  let geo := getGeoFromRequest headers in
  (country geo = JUndefined /\ region geo = JUndefined /\ city geo = JUndefined /\
   latitude geo = JUndefined /\ longitude geo = JUndefined)
  \/ ((exists c, c <> ""%string /\ country geo = JString c) /\
      region geo <> JUndefined /\ city geo <> JUndefined /\
      latitude geo <> JUndefined /\ longitude geo <> JUndefined).
Proof.
  assert (Hn : forall v, nullable v <> JUndefined)
    by (intros [v|]; discriminate).
  assert (Ht : forall v, truthy v = true ->
                         exists c, c <> ""%string /\ nullable v = JString c).
  { intros [v|] H; [|discriminate]. exists v. split; [|reflexivity].
    cbn in H. apply negb_true_iff, String.eqb_neq in H. exact H. }
  unfold getGeoFromRequest. cbv zeta.
  destruct (truthy (headers "x-vercel-ip-country"%string)) eqn:Hv.
  - right. cbn [country region city latitude longitude]. auto 6.
  - destruct (truthy (headers "cf-ipcountry"%string)) eqn:Hc.
    + right. cbn [country region city latitude longitude]. auto 6.
    + left. repeat split.
Qed.

End Environment.

Section ClientIp.

Import EdgeHelpers.

Lemma skip_space_shorter (b : bool) (l r : list ascii) :
  skip_space b l = Some r -> (List.length r < List.length l)%nat.
Proof.
  unfold skip_space.
  destruct l as [|a [|a2 [|a3 l]]]; try discriminate;
    repeat match goal with
           | |- context [if ?c then _ else _] => destruct c
           end;
    intro H; try discriminate; injection H as <-; cbn; lia.
Qed.

Lemma skip_space_suffix (b : bool) (l r : list ascii) :
  skip_space b l = Some r -> exists p, l = p ++ r.
Proof.
  unfold skip_space.
  destruct l as [|a [|a2 [|a3 l]]]; try discriminate;
    repeat match goal with
           | |- context [if ?c then _ else _] => destruct c
           end;
    intro H; try discriminate; injection H as <-;
    first [ exists [a]; reflexivity
          | exists [a; a2]; reflexivity
          | exists [a; a2; a3]; reflexivity ].
Qed.

Lemma skip_spaces_done (b : bool) (fuel : nat) :
  forall l, (List.length l <= fuel)%nat ->
            skip_space b (skip_spaces b fuel l) = None.
Proof.
  induction fuel as [|fuel IH]; intros l Hl.
  - destruct l; [reflexivity|cbn in Hl; lia].
  - cbn [skip_spaces]. destruct (skip_space b l) as [r|] eqn:E; [|exact E].
    apply IH. apply skip_space_shorter in E. lia.
Qed.

Lemma skip_spaces_suffix (b : bool) (fuel : nat) :
  forall l, exists p, l = p ++ skip_spaces b fuel l.
Proof.
  induction fuel as [|fuel IH]; intro l; [exists []; reflexivity|].
  cbn [skip_spaces]. destruct (skip_space b l) as [r|] eqn:E;
    [|exists []; reflexivity].
  destruct (skip_space_suffix _ _ _ E) as [p ->].
  destruct (IH r) as [q Hq]. exists (p ++ q).
  rewrite <- app_assoc, <- Hq. reflexivity.
Qed.

Lemma skip_spaces_fixed (b : bool) (fuel : nat) (l : list ascii) :
  skip_space b l = None -> skip_spaces b fuel l = l.
Proof. intro H. destruct fuel; cbn [skip_spaces]; [|rewrite H]; reflexivity. Qed.

(** A prefix that starts with white space makes the whole start with it. *)
Lemma skip_space_prefix (p q r : list ascii) :
  skip_space false p = Some r -> skip_space false (p ++ q) = Some (r ++ q).
Proof.
  unfold skip_space.
  destruct p as [|a [|a2 [|a3 p]]]; try discriminate; cbn [app];
    repeat match goal with
           | |- context [if ?c then _ else _] => destruct c
           end;
    intro H; try discriminate; injection H as <-; try reflexivity.
  all: destruct q as [|x [|y q]]; try reflexivity.
Qed.

Lemma trim_bytes_clean (l : list ascii) :
  skip_space false (trim_bytes l) = None /\
  skip_space true (rev (trim_bytes l)) = None /\
  (forall c, In c (trim_bytes l) -> In c l).
Proof.
  unfold trim_bytes. cbv zeta.
  set (l1 := skip_spaces false (List.length l) l).
  set (l2 := skip_spaces true (List.length l1) (rev l1)).
  assert (H1 : skip_space false l1 = None)
    by (apply skip_spaces_done; lia).
  assert (H2 : skip_space true l2 = None)
    by (apply skip_spaces_done; rewrite length_rev; lia).
  destruct (skip_spaces_suffix false (List.length l) l) as [p Hp]. fold l1 in Hp.
  destruct (skip_spaces_suffix true (List.length l1) (rev l1)) as [q Hq].
  fold l2 in Hq.
  assert (Hl1 : l1 = rev l2 ++ rev q).
  { rewrite <- rev_app_distr, <- Hq, rev_involutive. reflexivity. }
  split; [|split].
  - destruct (skip_space false (rev l2)) as [r|] eqn:E; [|reflexivity].
    apply (skip_space_prefix _ (rev q)) in E. rewrite <- Hl1, H1 in E.
    discriminate.
  - rewrite rev_involutive. exact H2.
  - intros c Hc. rewrite Hp, Hl1. apply in_or_app. right.
    apply in_or_app. left. exact Hc.
Qed.

Lemma first_segment_no_comma (s : string) :
  ~ In ","%char (list_ascii_of_string (first_segment s)).
Proof.
  induction s as [|c s IH]; cbn [first_segment]; [intros []|].
  destruct (nat_of_ascii c =? 44)%nat eqn:E; [intros []|].
  cbn [list_ascii_of_string In]. intros [H|H]; [|exact (IH H)].
  subst c. discriminate E.
Qed.

Lemma js_or_left (a b : option string) : truthy a = true -> js_or a b = a.
Proof. unfold js_or. intros ->. reflexivity. Qed.

Lemma js_or_undefined (a : option string) (ip : string) :
  js_or a None = Some ip -> ip <> ""%string.
Proof.
  unfold js_or. destruct (truthy a) eqn:E; [|discriminate].
  intros ->. cbn in E. apply negb_true_iff, String.eqb_neq in E. exact E.
Qed.

(** X17.  [getClientIp] never answers the empty string: it answers a
    non-empty address or [undefined]. *)
Theorem client_ip_is_never_empty (headers : Headers) (ip : string) :
  getClientIp headers = Some ip -> ip <> ""%string.
Proof. unfold getClientIp. cbv zeta. apply js_or_undefined. Qed.

(** X18.  When the first comma-separated entry of [x-forwarded-for]
    is not blank, [getClientIp] answers that entry trimmed, whatever the
    other headers say: the answer holds no comma and neither starts nor
    ends with white space (trimming it again changes nothing). *)
Theorem forwarded_first_hop_is_trimmed (headers : Headers) (value : string) :
  headers "x-forwarded-for"%string = Some value ->
  trim (first_segment value) <> ""%string ->
  getClientIp headers = Some (trim (first_segment value)) /\
  ~ In ","%char (list_ascii_of_string (trim (first_segment value))) /\
  trim (trim (first_segment value)) = trim (first_segment value).
Proof.
  intros Hx Hne.
  destruct (trim_bytes_clean (list_ascii_of_string (first_segment value)))
    as [Hstart [Hend Hin]].
  split; [|split].
  - unfold getClientIp. rewrite Hx. cbv zeta.
    assert (Ht : truthy (Some (trim (first_segment value))) = true)
      by (apply truthy_Some, Hne).
    rewrite !(js_or_left _ _ Ht). reflexivity.
  - unfold trim. rewrite list_ascii_of_string_of_list_ascii.
    intro H. apply Hin in H. exact (first_segment_no_comma _ H).
  - unfold trim at 1 2. rewrite list_ascii_of_string_of_list_ascii.
    unfold trim. f_equal. unfold trim_bytes at 1. cbv zeta.
    rewrite (skip_spaces_fixed false _ _ Hstart),
      (skip_spaces_fixed true _ _ Hend).
    apply rev_involutive.
Qed.

(** X19.  When the first entry of [x-forwarded-for] is blank (the
    header is empty, or starts with a comma or with white space before the
    first comma) the later entries of that header are not consulted: the
    answer is the first non-empty of [x-real-ip], [cf-connecting-ip] and
    [x-vercel-forwarded-for], or [undefined]. *)
Theorem blank_first_hop_falls_through (headers : Headers) (value : string) :
  headers "x-forwarded-for"%string = Some value ->
  trim (first_segment value) = ""%string ->
  getClientIp headers =
  js_or (js_or (js_or (headers "x-real-ip"%string)
                      (headers "cf-connecting-ip"%string))
               (headers "x-vercel-forwarded-for"%string))
        None.
Proof.
  intros Hx Hblank. unfold getClientIp. rewrite Hx, Hblank. reflexivity.
Qed.

End ClientIp.

Section EdgeFetch.

Import EdgeHelpers.

Variable fetch : option EdgeTransport.
Variable input : string.
Variable finalOptions : EdgeFetchOptions.
Variable R D T : Z.

Lemma edge_loop_S (fuel : nat) (a : Z) (lastError : option JSError)
  (tr : list EdgeEvent) :
  edge_loop fetch (S fuel) input finalOptions R D T a lastError tr =
  if a <=? R then
    match edge_attempt fetch input finalOptions T a tr with
    | (EdgeReturn r, tr1) => Some (EdgeResolved r, tr1)
    | (EdgeThrow e, tr1) => Some (EdgeRejected e, tr1)
    | (EdgeNext e, tr1) =>
        edge_loop fetch fuel input finalOptions R D T (a + 1) (Some e)
          (if a <? R then tr1 ++ [EdgeSleep (D * 2 ^ a)] else tr1)
    end
  else Some (EdgeRejected (nullish lastError request_failed), tr).
Proof. reflexivity. Qed.

Lemma edge_calls_app (a b : list EdgeEvent) :
  edge_calls (a ++ b) = edge_calls a ++ edge_calls b.
Proof.
  induction a as [|[i o t|ms] a IH]; cbn [edge_calls app]; [reflexivity| |exact IH].
  rewrite IH. reflexivity.
Qed.

Lemma edge_sleeps_app (a b : list EdgeEvent) :
  edge_sleeps (a ++ b) = edge_sleeps a ++ edge_sleeps b.
Proof.
  induction a as [|[i o t|ms] a IH]; cbn [edge_sleeps app]; [reflexivity|exact IH|].
  rewrite IH. reflexivity.
Qed.

(** One attempt makes one call at most, on [input], with the signal of
    its own controller and the timeout armed; a response it returns is a
    2xx or a 4xx. *)
Lemma edge_attempt_cases (a : Z) (tr : list EdgeEvent) :
  let init := obj_set "signal" (ControllerSignal a) finalOptions in
  let result := edge_attempt fetch input finalOptions T a tr in
  (snd result = tr \/ snd result = tr ++ [EdgeCall input init T]) /\
  (forall r, fst result = EdgeReturn r -> handed_back r = true).
Proof.
  cbv zeta. unfold edge_attempt, edge_catch.
  destruct fetch as [f|].
  - destruct (f tr input _) as [r|e].
    + fold (handed_back r). destruct (handed_back r) eqn:H; cbn [fst snd].
      * split; [right; reflexivity|]. intros r' Hr. injection Hr as <-. exact H.
      * split; [right; reflexivity|]. discriminate.
    + cbv zeta. destruct (_ =? _)%string; cbn [fst snd];
        (split; [right; reflexivity|discriminate]).
  - cbn. split; [left; reflexivity|discriminate].
Qed.

Lemma edge_loop_total (fuel : nat) :
  forall a lastError tr,
    (Z.to_nat (R + 1 - a) < fuel)%nat ->
    exists result tr',
      edge_loop fetch fuel input finalOptions R D T a lastError tr
      = Some (result, tr').
Proof.
  induction fuel as [|fuel IH]; intros a lastError tr Hfuel; [lia|].
  rewrite edge_loop_S. destruct (a <=? R) eqn:Hle; [|eauto].
  apply Z.leb_le in Hle.
  destruct (edge_attempt fetch input finalOptions T a tr) as [[r|e|e] tr1];
    [eauto|eauto|].
  apply IH. lia.
Qed.

(** What a loop does, whatever the transport answers. *)
Lemma edge_loop_sound (fuel : nat) :
  forall a lastError tr result tr',
    edge_loop fetch fuel input finalOptions R D T a lastError tr
    = Some (result, tr') ->
    (forall r, result = EdgeResolved r -> handed_back r = true) /\
    exists ext,
      tr' = tr ++ ext /\
      (List.length (edge_calls ext) <= Z.to_nat (R + 1 - a))%nat /\
      forall call, In call (edge_calls ext) ->
        exists k, call = (input, obj_set "signal" (ControllerSignal k) finalOptions, T).
Proof.
  induction fuel as [|fuel IH]; intros a lastError tr result tr' H; [discriminate|].
  rewrite edge_loop_S in H. destruct (a <=? R) eqn:Hle.
  2:{ injection H as <- <-. split; [discriminate|].
      exists []. rewrite app_nil_r. split; [reflexivity|].
      split; [cbn; lia|intros call []]. }
  apply Z.leb_le in Hle.
  destruct (edge_attempt_cases a tr) as [Htr Hback]. cbv zeta in Htr, Hback.
  assert (Hone : exists pre,
             snd (edge_attempt fetch input finalOptions T a tr) = tr ++ pre /\
             edge_sleeps pre = [] /\
             (List.length (edge_calls pre) <= 1)%nat /\
             forall call, In call (edge_calls pre) ->
               exists k, call = (input, obj_set "signal" (ControllerSignal k)
                                          finalOptions, T)).
  { destruct Htr as [Htr|Htr]; rewrite Htr.
    - exists []. rewrite app_nil_r. repeat split; [cbn; lia|intros call []].
    - eexists. split; [reflexivity|]. repeat split; [cbn; lia|].
      intros call [<-|[]]. eauto. }
  destruct Hone as [pre [Hpre [_ [Hlen Hcalls]]]].
  destruct (edge_attempt fetch input finalOptions T a tr) as [[r|e|e] tr1];
    cbn [fst snd] in *.
  - injection H as <- <-. split.
    + intros r' Hr. injection Hr as <-. apply Hback. reflexivity.
    + exists pre. split; [exact Hpre|]. split; [lia|exact Hcalls].
  - injection H as <- <-. split; [discriminate|].
    exists pre. split; [exact Hpre|]. split; [lia|exact Hcalls].
  - destruct (IH _ _ _ _ _ H) as [Hres [ext [Hext [Hl Hc]]]].
    split; [exact Hres|].
    exists (pre ++ (if a <? R then [EdgeSleep (D * 2 ^ a)] else []) ++ ext).
    split.
    + rewrite Hext, Hpre. destruct (a <? R); cbn [app];
        rewrite <- ?app_assoc; reflexivity.
    + rewrite !edge_calls_app, !length_app.
      assert (Hs : edge_calls (if a <? R then [EdgeSleep (D * 2 ^ a)] else []) = [])
        by (destruct (a <? R); reflexivity).
      rewrite Hs. cbn [List.length app]. split; [lia|].
      intros call Hin. apply in_app_or in Hin. destruct Hin; auto.
Qed.

End EdgeFetch.

Section EdgeFetchProperties.

Import EdgeHelpers.

Variable fetch : option EdgeTransport.
Variable defaultOptions : option EdgeFetchOptions.
Variable input : string.
Variable options : option EdgeFetchOptions.

Lemma createEdgeFetch_returns :
  exists result tr, createEdgeFetch fetch defaultOptions input options = Some (result, tr).
Proof. unfold createEdgeFetch. cbv zeta. apply edge_loop_total. lia. Qed.

(** X20.  Whatever the transport does, [edgeFetch] settles after at
    most [retries + 1] transport calls ([retries] being the per-call
    option, else the factory option, else 3), and a response it resolves
    to has a status in 200..299 or in 400..499: a response with any other
    status (5xx, but also 1xx and 3xx) is never handed back. *)
Theorem edge_fetch_hands_back_2xx_and_4xx (defaults := nullish defaultOptions []) :
  exists result tr,
    createEdgeFetch fetch defaultOptions input options = Some (result, tr) /\
    (List.length (edge_calls tr) <= Z.to_nat (finalRetries_of defaults options + 1))%nat /\
    forall r, result = EdgeResolved r ->
              200 <= er_status r <= 299 \/ 400 <= er_status r <= 499.
Proof.
  destruct createEdgeFetch_returns as [result [tr H]].
  exists result, tr. split; [exact H|].
  unfold createEdgeFetch in H. cbv zeta in H.
  apply edge_loop_sound in H. destruct H as [Hback [ext [Hext [Hlen _]]]].
  cbn [app] in Hext. subst ext.
  split; [rewrite Z.sub_0_r in Hlen; exact Hlen|].
  intros r Hr. specialize (Hback r Hr). unfold handed_back, er_ok in Hback.
  apply orb_true_iff in Hback. destruct Hback as [Hb|Hb];
    apply andb_true_iff in Hb; destruct Hb as [H1 H2].
  - apply Z.leb_le in H1, H2. left. lia.
  - apply Z.leb_le in H1. apply Z.ltb_lt in H2. right. lia.
Qed.

(** X21.  Every transport call of [edgeFetch] is made on the given
    input with the timeout in force (per-call option, else factory option,
    else 30000 ms) and with the abort signal of a controller of its own
    under [signal]: a signal supplied by the caller never reaches the
    transport.  Under every other key the per-call option wins over the
    factory default, and the factory's [retries], [retryDelay] and
    [timeout] are not forwarded. *)
Theorem edge_fetch_replaces_the_signal (defaults := nullish defaultOptions []) :
  exists result tr,
    createEdgeFetch fetch defaultOptions input options = Some (result, tr) /\
    forall input' init timeout,
      In (input', init, timeout) (edge_calls tr) ->
      input' = input /\
      timeout = finalTimeout_of defaults options /\
      (exists k, obj_get "signal" init = Some (ControllerSignal k)) /\
      forall key,
        key <> "signal"%string ->
        obj_get key init =
        match obj_get key (rev (nullish options [])) with
        | Some v => Some v
        | None =>
            if (key =? "retries")%string || (key =? "retryDelay")%string
               || (key =? "timeout")%string
            then None else obj_get key defaults
        end.
Proof.
  destruct createEdgeFetch_returns as [result [tr H]].
  exists result, tr. split; [exact H|].
  unfold createEdgeFetch in H. cbv zeta in H.
  apply edge_loop_sound in H. destruct H as [_ [ext [Hext [_ Hcalls]]]].
  cbn [app] in Hext. subst ext.
  intros input' init timeout Hin.
  destruct (Hcalls _ Hin) as [k Hk]. injection Hk as -> -> ->.
  split; [reflexivity|]. split; [reflexivity|]. split.
  - exists k. rewrite obj_get_set, String.eqb_refl. reflexivity.
  - intros key Hkey. rewrite obj_get_set.
    assert (Hs : ("signal" =? key)%string = false)
      by (apply String.eqb_neq; congruence).
    rewrite Hs. unfold finalOptions_of. rewrite obj_get_spread.
    destruct (obj_get key (rev (nullish options []))); [reflexivity|].
    unfold fetchDefaults_of. fold defaults.
    induction defaults as [|[k0 v0] l IH]; cbn [filter obj_get fst].
    + destruct (_ || _); reflexivity.
    + destruct (k0 =? key)%string eqn:E.
      * apply String.eqb_eq in E. subst k0.
        destruct ((key =? "retries")%string || (key =? "retryDelay")%string
                  || (key =? "timeout")%string) eqn:F; cbn [negb].
        -- exact IH.
        -- cbn [obj_get]. rewrite String.eqb_refl. reflexivity.
      * destruct (negb _); cbn [obj_get]; rewrite ?E; exact IH.
Qed.

End EdgeFetchProperties.

Section EdgeFetchRuns.

Import EdgeHelpers.

Variable f : EdgeTransport.
Variable input : string.
Variable finalOptions : EdgeFetchOptions.
Variable R D T : Z.

(** An attempt whose answer is an abort. *)
Lemma edge_attempt_abort (a : Z) (tr : list EdgeEvent) (e : JSError) :
  (forall init, f tr input init = EdgeRejects (RaisedError e)) ->
  err_name e = "AbortError"%string ->
  edge_attempt (Some f) input finalOptions T a tr =
  (EdgeThrow (timeout_error T),
   tr ++ [EdgeCall input (obj_set "signal" (ControllerSignal a) finalOptions) T]).
Proof.
  intros Hf Hname. unfold edge_attempt, edge_catch. rewrite Hf. cbv zeta.
  rewrite Hname. reflexivity.
Qed.

(** An attempt whose answer lets the loop go on. *)
Lemma edge_attempt_goes_on (a : Z) (tr : list EdgeEvent) :
  let init := obj_set "signal" (ControllerSignal a) finalOptions in
  goes_on (f tr input init) ->
  edge_attempt (Some f) input finalOptions T a tr =
  (EdgeNext (error_of (f tr input init)), tr ++ [EdgeCall input init T]).
Proof.
  cbv zeta. unfold edge_attempt, edge_catch, goes_on.
  destruct (f tr input _) as [r|[e|v]]; cbn [error_of].
  - unfold handed_back. intros ->. reflexivity.
  - intros ->. reflexivity.
  - cbn [err_name]. intros ->. reflexivity.
Qed.

Lemma edge_loop_exhausts (k : nat) :
  forall a fuel lastError tr,
    R = a + Z.of_nat k ->
    (S k < fuel)%nat ->
    (forall tr' init, goes_on (f tr' input init)) ->
    exists pre init tr',
      edge_loop (Some f) fuel input finalOptions R D T a lastError tr
      = Some (EdgeRejected (error_of (f pre input init)), tr') /\
      tr' = pre ++ [EdgeCall input init T] /\
      List.length (edge_calls tr') = (List.length (edge_calls tr) + S k)%nat /\
      edge_sleeps tr' = edge_sleeps tr ++ delays D a k.
Proof.
  induction k as [|k IH]; intros a fuel lastError tr HR Hfuel Hgo.
  - destruct fuel as [|[|fuel]]; try lia.
    rewrite edge_loop_S.
    assert (Hle : (a <=? R) = true) by (apply Z.leb_le; lia).
    assert (Hlt : (a <? R) = false) by (apply Z.ltb_ge; lia).
    rewrite Hle, (edge_attempt_goes_on a tr (Hgo _ _)), Hlt, edge_loop_S.
    assert (Hgt : (a + 1 <=? R) = false) by (apply Z.leb_gt; lia).
    rewrite Hgt. eexists _, _, _. split; [reflexivity|].
    split; [reflexivity|].
    rewrite edge_calls_app, edge_sleeps_app, length_app. cbn.
    rewrite app_nil_r. split; [lia|reflexivity].
  - destruct fuel as [|fuel]; try lia.
    rewrite edge_loop_S.
    assert (Hle : (a <=? R) = true) by (apply Z.leb_le; lia).
    assert (Hlt : (a <? R) = true) by (apply Z.ltb_lt; lia).
    rewrite Hle, (edge_attempt_goes_on a tr (Hgo _ _)), Hlt.
    match goal with
    | |- context [edge_loop _ _ _ _ _ _ _ _ ?last ?tr2] =>
        destruct (IH (a + 1) fuel last tr2) as [pre [init [tr' [Hloop [Hlast [Hc Hs]]]]]];
          [lia|lia|exact Hgo|]
    end.
    exists pre, init, tr'. split; [exact Hloop|]. split; [exact Hlast|].
    rewrite Hc, Hs, !edge_calls_app, !edge_sleeps_app, !length_app, delays_S.
    cbn [edge_calls edge_sleeps List.length app]. rewrite app_nil_r, <- app_assoc.
    split; [lia|reflexivity].
Qed.

End EdgeFetchRuns.

Section EdgeFetchOutcomes.

Import EdgeHelpers.

Variable f : EdgeTransport.
Variable defaultOptions : option EdgeFetchOptions.
Variable input : string.
Variable options : option EdgeFetchOptions.

(** X22.  An abort is not retried: when the transport rejects the
    first call with an [Error] named [AbortError], [edgeFetch] rejects at
    once with [Request timeout after <timeout>ms], after that single call
    and without a sleep, however many retries are allowed. *)
Theorem edge_fetch_abort_is_not_retried (e : JSError)
  (defaults := nullish defaultOptions []) :
  0 <= finalRetries_of defaults options ->
  (forall init, f [] input init = EdgeRejects (RaisedError e)) ->
  err_name e = "AbortError"%string ->
  createEdgeFetch (Some f) defaultOptions input options =
  Some (EdgeRejected
          {| err_name := "Error";
             err_message := "Request timeout after "
                            ++ Number_toString (finalTimeout_of defaults options)
                            ++ "ms" |},
        [EdgeCall input
           (obj_set "signal" (ControllerSignal 0) (finalOptions_of defaults options))
           (finalTimeout_of defaults options)]).
Proof.
  intros HR Hf Hname. unfold createEdgeFetch. cbv zeta. fold defaults.
  rewrite edge_loop_S.
  assert (Hle : (0 <=? finalRetries_of defaults options) = true)
    by (apply Z.leb_le; exact HR).
  rewrite Hle, (edge_attempt_abort f input _ _ 0 [] e Hf Hname). reflexivity.
Qed.

(** X23.  When every answer of the transport is a response that is
    neither 2xx nor 4xx, or a rejection that is not an abort, [edgeFetch]
    makes exactly [retries + 1] calls, sleeps [retryDelay * 2 ^ k] after
    call [k] when another follows, and rejects with the error of the last
    answer: [HTTP <status>: <statusText>] for a response, the thrown
    [Error], or an [Error] made of the thrown value. *)
Theorem edge_fetch_exhausts (defaults := nullish defaultOptions []) :
  0 <= finalRetries_of defaults options ->
  (forall tr init, goes_on (f tr input init)) ->
  exists pre init tr,
    createEdgeFetch (Some f) defaultOptions input options =
      Some (EdgeRejected (error_of (f pre input init)), tr) /\
    tr = pre ++ [EdgeCall input init (finalTimeout_of defaults options)] /\
    List.length (edge_calls tr) = Z.to_nat (finalRetries_of defaults options + 1) /\
    edge_sleeps tr = delays (finalDelay_of defaults options) 0
                       (Z.to_nat (finalRetries_of defaults options)).
Proof.
  intros HR Hgo. unfold createEdgeFetch. cbv zeta. fold defaults.
  destruct (edge_loop_exhausts f input (finalOptions_of defaults options)
              (finalRetries_of defaults options) (finalDelay_of defaults options)
              (finalTimeout_of defaults options)
              (Z.to_nat (finalRetries_of defaults options)) 0
              (S (Z.to_nat (finalRetries_of defaults options + 1))) None [])
    as [pre [init [tr [Hloop [Hlast [Hc Hs]]]]]]; [lia|lia|exact Hgo|].
  exists pre, init, tr. split; [exact Hloop|]. split; [exact Hlast|].
  split; [rewrite Hc; cbn; lia|exact Hs].
Qed.

End EdgeFetchOutcomes.

(** * The further properties at concrete inputs *)

Import Samples.

Lemma exhausted_call_waits_witness :
  exists r s,
    request node quiet
      (client None (Some "key") None None (always (answer 503 None)) 2 100)
      "/users" no_options = Some (Normal r, s) /\
    is_failure r /\
    List.length (fetches (trace s)) = 3%nat /\
    sleeps (trace s) = [100; 200] /\
    total (sleeps (trace s)) = 300.
Proof.
  apply (exhausted_call_waits node quiet
           (client None (Some "key") None None (always (answer 503 None)) 2 100)
           no_options users_url (always (answer 503 None))).
  - apply (headers_derivable_buffer node _ base64). reflexivity.
  - reflexivity.
  - apply users_url_built. reflexivity.
  - cbn. lia.
  - intros tr init. split; [reflexivity|left; reflexivity].
Defined.

Lemma negative_retries_fall_back_witness :
  invoke node quiet
    (client None (Some "key") None None (always (answer 200 None)) (-1) 100)
    "/users" (CallGet None)
  = Some (Normal {| ok := false; resp_status := 0; data := None;
                    error := Some "Request failed after retries"%string |},
          {| this_ := client None (Some "key") None None
                        (always (answer 200 None)) (-1) 100;
             trace := [] |}).
Proof.
  apply (negative_retries_fall_back node quiet _ "/users" (CallGet None) users_url).
  - cbn. lia.
  - reflexivity.
Defined.

Lemma call_recovers_after_retries_witness :
  exists pre init s,
    request node quiet (client None (Some "key") None None flaky 3 100)
      "/users" no_options
    = Some (Normal (envelope_of (flaky pre users_url init)), s) /\
    trace s = pre ++ [EvFetch users_url init] /\
    terminal (flaky pre users_url init) /\
    List.length (fetches (trace s)) = 3%nat /\
    sleeps (trace s) = [100; 200].
Proof.
  apply (call_recovers_after_retries node quiet
           (client None (Some "key") None None flaky 3 100)
           no_options users_url flaky
           (headers_derivable_buffer node _ base64 eq_refl) eq_refl
           "/users"
           (users_url_built (client None (Some "key") None None flaky 3 100) eq_refl)
           2).
  - cbn. lia.
  - intros tr init H. unfold flaky. apply Nat.ltb_lt in H. rewrite H.
    split; [reflexivity|left; reflexivity].
  - intros tr init H. unfold flaky. rewrite H. left. reflexivity.
Defined.

Lemma fresh_params_are_appended_in_order_witness :
  searchParams
    (buildUrl_object (mkURL users_url None None [])
       (Some [("page", PNumber 2); ("skip", PUndefined); ("q", PString "a")]%string))
  = [("page", "2"); ("q", "a")]%string.
Proof.
  refine (proj2 (fresh_params_are_appended_in_order node
                   (client None (Some "key") None None (always (answer 200 None)) 3 1000)
                   "/users"
                   [("page", PNumber 2); ("skip", PUndefined); ("q", PString "a")]%string
                   (mkURL users_url None None []) eq_refl _ _)).
  - repeat constructor; cbn; intuition discriminate.
  - intros k _ [].
Defined.

Lemma configured_retries_bound_the_call_witness :
  exists outcome s,
    invoke node quiet
      (mkClient "https://analytics.example.com/api" None (Some "key") None None
         (Some (always (answer 503 None))) 0 1000)
      "/users" (CallGet None) = Some (outcome, s) /\
    (List.length (fetches (trace s)) <= 1)%nat /\ sleeps (trace s) = [].
Proof.
  destruct (configured_retries_bound_the_call node quiet bare
              (mkConfig (Some "https://analytics.example.com/api"%string) None
                 (Some "key"%string) None None
                 (Some (always (answer 503 None))) (Some 0) None)
              _ "/users" (CallGet None) eq_refl)
    as [outcome [s [Hcall [Hzero _]]]].
  exists outcome, s. split; [exact Hcall|]. exact (Hzero eq_refl).
Defined.

Lemma auth_headers_throw_only_from_btoa_witness :
  getAuthHeaders edge
    (client None None (Some "user") (Some "pass") (always (answer 200 None)) 3 1000) 0
  <> Throw (ThrownError legacy_required).
Proof.
  intro H.
  apply (auth_headers_throw_only_from_btoa edge) in H.
  destruct H as [_ [_ [_ [_ [_ H]]]]]. discriminate H.
Defined.

Lemma detectRuntime_throws_without_process_witness :
  RuntimeDetection.detectRuntime worker
  = Throw (ThrownError RuntimeDetection.process_not_defined).
Proof.
  apply (detectRuntime_throws_without_process worker). repeat split.
Defined.

Lemma edge_indicators_beat_node_witness :
  RuntimeDetection.detectRuntime deno_with_process
  = Normal RuntimeDetection.RtEdge.
Proof.
  apply (edge_indicators_beat_node deno_with_process
           (Some (fun _ => None)) "20.11.1" eq_refl).
  discriminate.
Defined.

Lemma requireEdgeEnv_rejects_empty_witness :
  EdgeHelpers.requireEdgeEnv empty_in_process "API_KEY"
  = Throw (ThrownError (EdgeHelpers.required_message "API_KEY")).
Proof.
  apply (proj1 (proj2 (requireEdgeEnv_rejects_empty empty_in_process "API_KEY"))).
  reflexivity.
Defined.

Lemma getEdgeEnv_with_default_witness :
  EdgeHelpers.getEdgeEnv empty_in_process "API_KEY" (Some "fallback"%string)
  = Some ""%string.
Proof.
  apply (proj1 (proj2 (getEdgeEnv_with_default empty_in_process "API_KEY" "fallback"))).
  reflexivity.
Defined.

Lemma client_ip_is_never_empty_witness :
  "203.0.113.7"%string <> ""%string.
Proof.
  apply (client_ip_is_never_empty (proxied " 203.0.113.7 , 10.0.0.1")).
  vm_compute. reflexivity.
Defined.

Lemma forwarded_first_hop_is_trimmed_witness :
  EdgeHelpers.getClientIp (proxied " 203.0.113.7 , 10.0.0.1")
  = Some "203.0.113.7"%string.
Proof.
  refine (proj1 (forwarded_first_hop_is_trimmed
                   (proxied " 203.0.113.7 , 10.0.0.1")
                   " 203.0.113.7 , 10.0.0.1" eq_refl _)).
  vm_compute. discriminate.
Defined.

Lemma blank_first_hop_falls_through_witness :
  EdgeHelpers.getClientIp (proxied " , 10.0.0.1") = Some "198.51.100.4"%string.
Proof.
  apply (blank_first_hop_falls_through (proxied " , 10.0.0.1") " , 10.0.0.1").
  - reflexivity.
  - vm_compute. reflexivity.
Defined.

Lemma edge_fetch_abort_is_not_retried_witness :
  EdgeHelpers.createEdgeFetch (Some aborting)
    (Some [("timeout", EdgeHelpers.Plain (JNumber 5000))]%string)
    "https://api.example.com/data" None
  = Some (EdgeHelpers.EdgeRejected
            (EdgeHelpers.mkError "Error" "Request timeout after 5000ms"),
          [EdgeHelpers.EdgeCall "https://api.example.com/data"
             [("signal", EdgeHelpers.ControllerSignal 0)]%string 5000]).
Proof.
  apply (edge_fetch_abort_is_not_retried aborting
           (Some [("timeout", EdgeHelpers.Plain (JNumber 5000))]%string)
           "https://api.example.com/data" None
           (EdgeHelpers.mkError "AbortError" "This operation was aborted")).
  - cbn. lia.
  - intro init. reflexivity.
  - reflexivity.
Defined.

Lemma edge_fetch_exhausts_witness :
  exists pre init tr,
    EdgeHelpers.createEdgeFetch (Some unavailable) None
      "https://api.example.com/data"
      (Some [("retries", EdgeHelpers.Plain (JNumber 2))]%string)
    = Some (EdgeHelpers.EdgeRejected
              (EdgeHelpers.error_of
                 (unavailable pre "https://api.example.com/data" init)), tr) /\
    tr = pre ++ [EdgeHelpers.EdgeCall "https://api.example.com/data" init 30000] /\
    List.length (EdgeHelpers.edge_calls tr) = 3%nat /\
    EdgeHelpers.edge_sleeps tr = [1000; 2000].
Proof.
  apply (edge_fetch_exhausts unavailable None "https://api.example.com/data"
           (Some [("retries", EdgeHelpers.Plain (JNumber 2))]%string)).
  - cbn. lia.
  - intros tr init. reflexivity.
Defined.
